(** * voltron: client discovery watcher and service/client lifecycle orchestrator

    A shallow embedding of [client.go], [service.go], [voltron.go] and
    [builtin/client/http/client.go] of github.com/govoltron/voltron.

    - Calls into pluggable implementations ([Client], [Service]) and into the
      coordination store are recorded in a trace of [Event]s, newest first.
      What an implementation answers may depend on everything that happened
      before the call, so its answer is a function of that history.
    - The sequential code (the discovery watcher, one loop iteration of
      [Voltron.init]) is written in a small state monad over the trace.
    - [Voltron.Run] starts one goroutine per prepared service.  It is modelled
      as a transition system: a program counter for the calling goroutine, a
      program counter per service goroutine, the start channel, the contexts
      and the wait group.  A schedule is a list of [Action]s; [exec] runs it.
    - A step of the caller is the cluster check, one iteration of the client
      loop, one iteration of the service loop, [close(signal)], a [wg.Wait]
      that succeeds, one [Shutdown], or the return.  The service goroutines
      look at the start channel and at the context only, and those change in
      steps of their own.  A handler of a discovery watcher is one step: the
      broker is taken to hand a watcher its events one at a time.
    - The HTTP client is a record and its methods are functions on it that
      say what the call yields (a result or a panic) and what it leaves. *)

From Stdlib Require Import ZArith String List Bool Lia.
From stdpp Require Import base option list gmap strings fin_maps.

Open Scope string_scope.
Open Scope list_scope.

(** ** Errors, endpoints, events *)

(** [ErrInvalidCluster] is the package-level error value of voltron.go; every
    other error is identified by its message. *)
Inductive error :=
| ErrInvalidCluster
| Err (msg : string).

(** Modelled from the spec: [matrix.Endpoint] is declared in the matrix
    library; the code reads its fields [ID], [Addr] and [Weight]. *)
Record Endpoint := { ID : string; Addr : string; Weight : Z }.

Inductive Event :=
| EvNewBroker (k : nat) (res : option error)
| EvNewOptions (k : nat) (options : string) (endpoints : list Endpoint)
| EvClientInit (k : nat) (res : option error)
| EvClientReInit (k : nat) (res : option error)
| EvWatch (k : nat)
| EvClientShutdown (k : nat)
| EvNewReporter (j : nat)
| EvSvcInit (j : nat) (res : option error)
| EvPrepared (j : nat)
| EvRelease
| EvKeepalive (j : nat) (addr : string) (weight : Z) (ttl : Z)
| EvSvcRun (j : nat)
| EvSvcRunReturn (j : nat)
| EvReporterClose (j : nat).

(** Newest event first. *)
Definition Trace := list Event.

#[global] Instance error_eq_dec : EqDecision error.
Proof. solve_decision. Defined.
#[global] Instance Endpoint_eq_dec : EqDecision Endpoint.
Proof. solve_decision. Defined.
#[global] Instance Event_eq_dec : EqDecision Event.
Proof. solve_decision. Defined.

(** ** The trace monad *)

Definition M (A : Type) : Type := Trace -> A * Trace.

#[global] Instance M_ret : MRet M := fun A a t => (a, t).
#[global] Instance M_bind : MBind M :=
  fun A B f m t => let '(a, t') := m t in f a t'.

Definition emit (e : Event) : M unit := fun t => (tt, e :: t).

(** A call into an implementation: the answer is read off the history, and the
    call is recorded together with its answer. *)
Definition call (answer : Trace -> option error) (ev : option error -> Event)
  : M (option error) :=
  fun t => let r := answer t in (r, ev r :: t).

(** ** Counting and ordering on traces *)

Fixpoint count (p : Event -> bool) (t : Trace) : nat :=
  match t with
  | [] => 0
  | e :: t' => (if p e then 1 else 0) + count p t'
  end.

(** [hist_all q R t]: at every occurrence of a [q]-event in [t], the history
    before that event satisfies [R]. *)
Fixpoint hist_all (q : Event -> bool) (R : Trace -> Prop) (t : Trace) : Prop :=
  match t with
  | [] => True
  | e :: older => (if q e then R older else True) /\ hist_all q R older
  end.

Definition is_client_init (k : nat) (e : Event) : bool :=
  match e with EvClientInit k' _ => bool_decide (k' = k) | _ => false end.
Definition is_any_client_init (e : Event) : bool :=
  match e with EvClientInit _ _ => true | _ => false end.
Definition is_reinit (k : nat) (e : Event) : bool :=
  match e with EvClientReInit k' _ => bool_decide (k' = k) | _ => false end.
Definition is_shutdown (e : Event) : bool :=
  match e with EvClientShutdown _ => true | _ => false end.
Definition is_release (e : Event) : bool :=
  match e with EvRelease => true | _ => false end.
Definition is_new_reporter (j : nat) (e : Event) : bool :=
  match e with EvNewReporter j' => bool_decide (j' = j) | _ => false end.
Definition is_svc_init (j : nat) (e : Event) : bool :=
  match e with EvSvcInit j' _ => bool_decide (j' = j) | _ => false end.
Definition is_keepalive (j : nat) (e : Event) : bool :=
  match e with EvKeepalive j' _ _ _ => bool_decide (j' = j) | _ => false end.
Definition is_svc_run (j : nat) (e : Event) : bool :=
  match e with EvSvcRun j' => bool_decide (j' = j) | _ => false end.
Definition is_any_svc_run (e : Event) : bool :=
  match e with EvSvcRun _ => true | _ => false end.
Definition is_svc_run_return (j : nat) (e : Event) : bool :=
  match e with EvSvcRunReturn j' => bool_decide (j' = j) | _ => false end.
Definition is_reporter_close (j : nat) (e : Event) : bool :=
  match e with EvReporterClose j' => bool_decide (j' = j) | _ => false end.

(** Events of the service side: anything [Voltron.run] or a service goroutine
    does. *)
Definition is_service_event (e : Event) : bool :=
  match e with
  | EvNewReporter _ | EvSvcInit _ _ | EvPrepared _ | EvRelease
  | EvKeepalive _ _ _ _ | EvSvcRun _ | EvSvcRunReturn _ | EvReporterClose _ => true
  | _ => false
  end.

(** Lifecycle methods of client and service implementations. *)
Definition is_lifecycle (e : Event) : bool :=
  match e with
  | EvClientInit _ _ | EvClientReInit _ _ | EvClientShutdown _
  | EvSvcInit _ _ | EvSvcRun _ => true
  | _ => false
  end.

(** The client records shut down so far, newest first. *)
Fixpoint shutdown_ids (t : Trace) : list nat :=
  match t with
  | [] => []
  | EvClientShutdown k :: t' => k :: shutdown_ids t'
  | _ :: t' => shutdown_ids t'
  end.

(** ** client.go *)

(** The [Client] interface.  [NewOptions] builds an options value that only
    the implementation looks at; the call is recorded with its arguments.
    [Shutdown] returns nothing. *)
Record Client := {
  cl_Name : string;
  cl_Init : Trace -> option error;
  cl_ReInit : Trace -> option error;
}.

(** [ClientOptions]: the type switch of [Voltron.init] tells
    [*DiscoveryOptions] from every other implementation. *)
Inductive ClientOptions :=
| StaticOptions (srvname : string)
| DiscoveryOptions (srvname : string).

(** A [*client] is identified by its position in [manifest]. *)
Record client := {
  client_rt : Client;
  client_options : ClientOptions;
  client_description : string;
}.

(** [discoveryWatcher]: [c] is the client it serves, [options] the raw
    configuration ([[]byte], nil and empty alike), [endpoints] the directory. *)
Record discoveryWatcher := {
  c : nat;
  options : string;
  endpoints : gmap string Endpoint;
}.

(** Modelled from the spec: [matrix.Broker] is declared in the matrix library.
    Its contract is [Getenv(key) -> string], [Endpoints() -> list<Endpoint>]
    and [Watch(observer)], after which the observer receives the broker's
    events. *)
Record Broker := {
  env : gmap string string;
  members : list Endpoint;
  watcher : option discoveryWatcher;
}.

Definition Getenv (b : Broker) (key : string) : string := default "" (env b !! key).
Definition Endpoints (b : Broker) : list Endpoint := members b.
Definition Watch (w : discoveryWatcher) (b : Broker) : Broker :=
  {| env := env b; members := members b; watcher := Some w |}.

Inductive BrokerEvent :=
| ConfigSet (key value : string)
| ConfigDelete (key : string)
| EndpointUpdate (endpoint : Endpoint)
| EndpointDelete (id : string).

Module Watcher.

(** [discoveryWatcher.Init].  The deferred [Watch] runs after the
    implementation's [Init] has returned, whatever it returned. *)
Definition Init (k : nat) (rt : Client) (b : Broker) : M (option error * Broker) :=
  let w := {| c := k;
              options := Getenv b "options";
              endpoints := foldl (fun m ep => <[ID ep := ep]> m) ∅ (Endpoints b) |} in
  _ ← emit (EvNewOptions k (options w) (Endpoints b));
  err ← call (cl_Init rt) (EvClientInit k);
  _ ← emit (EvWatch k);
  mret (err, Watch w b).

(** The slice [reinit] builds from the map.  Go ranges over a map in no fixed
    order; here it is the map's content in the order of [map_to_list]. *)
Definition directory (w : discoveryWatcher) : list Endpoint :=
  (map_to_list (endpoints w)).*2.

(** [discoveryWatcher.reinit]. *)
Definition reinit (rt : Client) (w : discoveryWatcher) : M (option error) :=
  _ ← emit (EvNewOptions (c w) (options w) (directory w));
  call (cl_ReInit rt) (EvClientReInit (c w)).

(** The trace [reinit] leaves behind: one [NewOptions], one [ReInit]. *)
Definition reinit_trace (rt : Client) (w : discoveryWatcher) (t : Trace) : Trace :=
  snd (reinit rt w t).

Definition set_options (v : string) (w : discoveryWatcher) : discoveryWatcher :=
  {| c := c w; options := v; endpoints := endpoints w |}.
Definition set_endpoints (m : gmap string Endpoint) (w : discoveryWatcher)
  : discoveryWatcher :=
  {| c := c w; options := options w; endpoints := m |}.

(** The handlers return nothing: the result of [reinit] is dropped. *)
Definition OnSetenv (rt : Client) (key value : string) (w : discoveryWatcher)
  : M discoveryWatcher :=
  if decide (key = "options") then
    let w' := set_options value w in
    _ ← reinit rt w'; mret w'
  else mret w.

Definition OnDelenv (rt : Client) (key : string) (w : discoveryWatcher)
  : M discoveryWatcher :=
  if decide (key = "options") then
    let w' := set_options "" w in
    _ ← reinit rt w'; mret w'
  else mret w.

(** The test of [OnUpdateEndpoint]: the ID is cached with the same address
    and weight. *)
Definition unchanged (endpoint : Endpoint) (w : discoveryWatcher) : bool :=
  match endpoints w !! ID endpoint with
  | Some ep => bool_decide (Addr ep = Addr endpoint) && bool_decide (Weight ep = Weight endpoint)
  | None => false
  end.

Definition OnUpdateEndpoint (rt : Client) (endpoint : Endpoint) (w : discoveryWatcher)
  : M discoveryWatcher :=
  if unchanged endpoint w then mret w
  else
    let w' := set_endpoints (<[ID endpoint := endpoint]> (endpoints w)) w in
    _ ← reinit rt w'; mret w'.

Definition OnDeleteEndpoint (rt : Client) (id : string) (w : discoveryWatcher)
  : M discoveryWatcher :=
  match endpoints w !! id with
  | None => mret w
  | Some _ =>
      let w' := set_endpoints (delete id (endpoints w)) w in
      _ ← reinit rt w'; mret w'
  end.

(** The observer interface [matrix.BrokerWatcher]. *)
Definition notify (rt : Client) (ev : BrokerEvent) (w : discoveryWatcher)
  : M discoveryWatcher :=
  match ev with
  | ConfigSet key value => OnSetenv rt key value w
  | ConfigDelete key => OnDelenv rt key w
  | EndpointUpdate endpoint => OnUpdateEndpoint rt endpoint w
  | EndpointDelete id => OnDeleteEndpoint rt id w
  end.

(** Modelled from the spec: the broker hands an event to its registered
    observer, and to nobody when none is registered. *)
Definition deliver (rt : Client) (ev : BrokerEvent) (b : Broker) : M Broker :=
  match watcher b with
  | None => mret b
  | Some w => w' ← notify rt ev w; mret (Watch w' b)
  end.

End Watcher.

(** ** service.go *)

(** The [Service] interface.  [Run] blocks for as long as the implementation
    likes: when (and whether) it returns is decided by the schedule. *)
Record Service := {
  sv_Name : string;
  sv_Init : Trace -> option error;
}.

(** [service]; the mutable field [reporter] lives in the run-time state.
    [WithAutoReport] sets [addr], [weight] and [ttl]; without it they hold Go's
    zero values. *)
Record service := {
  service_rt : Service;
  service_description : string;
  addr : string;
  weight : Z;
  ttl : Z;
}.

Definition WithAutoReport (a : string) (w : Z) (l : Z) (s : service) : service :=
  {| service_rt := service_rt s; service_description := service_description s;
     addr := a; weight := w; ttl := l |}.

(** Where the goroutine started by [service.boot] stands.  [TCall d] and the
    later ones remember whether [reporter.Close] has been deferred. *)
Inductive TaskPc :=
| TWait
| TStarted
| TCall (deferred : bool)
| TRunning (deferred : bool)
| TReturning (deferred : bool)
| TExited.

(** ** voltron.go *)

(** Modelled from the spec: [matrix.Cluster] is declared in the matrix
    library.  [NewBroker(serviceName)] yields a broker or an error;
    [NewReporter(serviceName)] yields a reporter handle. *)
Record Cluster := {
  NewBroker : string -> error + Broker;
}.

(** The fields of [Voltron] that registration fills in: [Setup] appends to
    [services], [Join] sets [cluster] ([None] is Go's nil). *)
Record Voltron := {
  services : list service;
  cluster : option Cluster;
}.

(** Where the goroutine that called [Voltron.Run] stands. *)
Inductive MainPc :=
| PcEntry
| PcInit (k : nat)
| PcPrepare (j : nat)
| PcGogo
| PcWait
| PcShutdown (k : nat) (err : option error)
| PcReturned (err : option error).

Record State := {
  pc : MainPc;
  vol_clients : list nat;
  brokers : gmap nat Broker;
  reporters : gset nat;
  tasks : gmap nat TaskPc;
  wg : nat;
  signal : bool;
  ctx_caller : bool;
  ctx_Run : bool;
  ctx_run : bool;
  trace : Trace;
}.

(** [New]: nothing has run yet. *)
Definition New : State :=
  {| pc := PcEntry; vol_clients := []; brokers := ∅; reporters := ∅; tasks := ∅;
     wg := 0; signal := false; ctx_caller := false; ctx_Run := false;
     ctx_run := false; trace := [] |}.

(** [ctx.Done()] of the context the service goroutines wait on: it is a child
    of [Run]'s context, which is a child of the caller's. *)
Definition ctx_done (s : State) : bool := ctx_caller s || ctx_Run s || ctx_run s.

Inductive Action :=
| AMain
| ACancel
| ADeliver (k : nat) (ev : BrokerEvent)
| ATaskDone (j : nat)
| ATaskGo (j : nat)
| ATask (j : nat).

Definition set_pc (p : MainPc) (s : State) : State :=
  {| pc := p; vol_clients := vol_clients s; brokers := brokers s;
     reporters := reporters s; tasks := tasks s; wg := wg s; signal := signal s;
     ctx_caller := ctx_caller s; ctx_Run := ctx_Run s; ctx_run := ctx_run s;
     trace := trace s |}.
Definition set_trace (t : Trace) (s : State) : State :=
  {| pc := pc s; vol_clients := vol_clients s; brokers := brokers s;
     reporters := reporters s; tasks := tasks s; wg := wg s; signal := signal s;
     ctx_caller := ctx_caller s; ctx_Run := ctx_Run s; ctx_run := ctx_run s;
     trace := t |}.
Definition set_vol_clients (l : list nat) (s : State) : State :=
  {| pc := pc s; vol_clients := l; brokers := brokers s;
     reporters := reporters s; tasks := tasks s; wg := wg s; signal := signal s;
     ctx_caller := ctx_caller s; ctx_Run := ctx_Run s; ctx_run := ctx_run s;
     trace := trace s |}.
Definition set_brokers (m : gmap nat Broker) (s : State) : State :=
  {| pc := pc s; vol_clients := vol_clients s; brokers := m;
     reporters := reporters s; tasks := tasks s; wg := wg s; signal := signal s;
     ctx_caller := ctx_caller s; ctx_Run := ctx_Run s; ctx_run := ctx_run s;
     trace := trace s |}.
Definition set_reporters (r : gset nat) (s : State) : State :=
  {| pc := pc s; vol_clients := vol_clients s; brokers := brokers s;
     reporters := r; tasks := tasks s; wg := wg s; signal := signal s;
     ctx_caller := ctx_caller s; ctx_Run := ctx_Run s; ctx_run := ctx_run s;
     trace := trace s |}.
Definition set_task (j : nat) (p : TaskPc) (s : State) : State :=
  {| pc := pc s; vol_clients := vol_clients s; brokers := brokers s;
     reporters := reporters s; tasks := <[j := p]> (tasks s); wg := wg s;
     signal := signal s; ctx_caller := ctx_caller s; ctx_Run := ctx_Run s;
     ctx_run := ctx_run s; trace := trace s |}.
Definition set_wg (n : nat) (s : State) : State :=
  {| pc := pc s; vol_clients := vol_clients s; brokers := brokers s;
     reporters := reporters s; tasks := tasks s; wg := n; signal := signal s;
     ctx_caller := ctx_caller s; ctx_Run := ctx_Run s; ctx_run := ctx_run s;
     trace := trace s |}.
Definition close_signal (s : State) : State :=
  {| pc := pc s; vol_clients := vol_clients s; brokers := brokers s;
     reporters := reporters s; tasks := tasks s; wg := wg s; signal := true;
     ctx_caller := ctx_caller s; ctx_Run := ctx_Run s; ctx_run := ctx_run s;
     trace := trace s |}.
Definition cancel_caller (s : State) : State :=
  {| pc := pc s; vol_clients := vol_clients s; brokers := brokers s;
     reporters := reporters s; tasks := tasks s; wg := wg s; signal := signal s;
     ctx_caller := true; ctx_Run := ctx_Run s; ctx_run := ctx_run s;
     trace := trace s |}.
Definition cancel_Run (s : State) : State :=
  {| pc := pc s; vol_clients := vol_clients s; brokers := brokers s;
     reporters := reporters s; tasks := tasks s; wg := wg s; signal := signal s;
     ctx_caller := ctx_caller s; ctx_Run := true; ctx_run := ctx_run s;
     trace := trace s |}.
Definition cancel_run (s : State) : State :=
  {| pc := pc s; vol_clients := vol_clients s; brokers := brokers s;
     reporters := reporters s; tasks := tasks s; wg := wg s; signal := signal s;
     ctx_caller := ctx_caller s; ctx_Run := ctx_Run s; ctx_run := true;
     trace := trace s |}.
Definition log (e : Event) (s : State) : State := set_trace (e :: trace s) s.

Section Run.

(** The package-level [manifest] filled by [ClientVarP], and the
    orchestrator after [Setup] and [Join]. *)
Variable manifest : list client.
Variable vol : Voltron.

(** [DiscoveryOptions.initBroker]. *)
Definition initBroker (k : nat) (srvname : string) : M (error + Broker) :=
  match cluster vol with
  | None => mret (inl (Err "invalid cluster"))
  | Some cl =>
      match NewBroker cl srvname with
      | inl e => _ ← emit (EvNewBroker k (Some e)); mret (inl e)
      | inr b => _ ← emit (EvNewBroker k None); mret (inr b)
      end
  end.

(** One iteration of the loop of [Voltron.init] for the record at index [k]:
    the error, and the broker a discovery-bound client got. *)
Definition init_client (k : nat) (cl : client) : M (option error * option Broker) :=
  match client_options cl with
  | StaticOptions _ =>
      err ← call (cl_Init (client_rt cl)) (EvClientInit k);
      mret (err, None)
  | DiscoveryOptions srvname =>
      r ← initBroker k srvname;
      match r with
      | inl e => mret (Some e, None)
      | inr b =>
          '(err, b') ← Watcher.Init k (client_rt cl) b;
          mret (err, Some b')
      end
  end.

(** One step of the goroutine that called [Run]; [None] when it is blocked
    (in [wg.Wait]) or has returned. *)
Definition main_step (s : State) : option State :=
  match pc s with
  | PcEntry =>
      match cluster vol with
      | None => Some (set_pc (PcReturned (Some ErrInvalidCluster)) s)
      | Some _ => Some (set_pc (PcInit 0) s)
      end
  | PcInit k =>
      match manifest !! k with
      | None => Some (set_pc (PcPrepare 0) s)
      | Some cl =>
          let '((err, ob), t) := init_client k cl (trace s) in
          let s := set_trace t s in
          let s := match ob with
                   | Some b => set_brokers (<[k := b]> (brokers s)) s
                   | None => s
                   end in
          match err with
          | Some e => Some (set_pc (PcReturned (Some e)) (cancel_Run s))
          | None =>
              Some (set_pc (PcInit (S k)) (set_vol_clients (vol_clients s ++ [k]) s))
          end
      end
  | PcPrepare j =>
      match services vol !! j with
      | None => Some (set_pc PcGogo s)
      | Some sv =>
          let s := if decide (addr sv = "") then s
                   else log (EvNewReporter j) (set_reporters ({[j]} ∪ reporters s) s) in
          let '(err, t) := call (sv_Init (service_rt sv)) (EvSvcInit j) (trace s) in
          let s := set_trace t s in
          match err with
          | Some e => Some (set_pc (PcShutdown 0 (Some e)) (cancel_run s))
          | None =>
              Some (set_pc (PcPrepare (S j))
                      (log (EvPrepared j) (set_task j TWait (set_wg (S (wg s)) s))))
          end
      end
  | PcGogo => Some (set_pc PcWait (log EvRelease (close_signal s)))
  | PcWait =>
      if decide (wg s = 0) then Some (set_pc (PcShutdown 0 None) (cancel_run s))
      else None
  | PcShutdown k r =>
      match vol_clients s !! k with
      | Some i => Some (set_pc (PcShutdown (S k) r) (log (EvClientShutdown i) s))
      | None => Some (set_pc (PcReturned r) (cancel_Run s))
      end
  | PcReturned _ => None
  end.

(** The goroutine of [service.boot] for the service at index [j]: the two
    branches of its [select], then the rest of its body. *)
Definition task_done (j : nat) (s : State) : option State :=
  match tasks s !! j with
  | Some TWait =>
      if ctx_done s then Some (set_task j TExited (set_wg (wg s - 1) s)) else None
  | _ => None
  end.

Definition task_go (j : nat) (s : State) : option State :=
  match tasks s !! j with
  | Some TWait => if signal s then Some (set_task j TStarted s) else None
  | _ => None
  end.

Definition task_step (j : nat) (s : State) : option State :=
  match tasks s !! j, services vol !! j with
  | Some TStarted, Some sv =>
      if decide (j ∈ reporters s)
      then Some (set_task j (TCall true) (log (EvKeepalive j (addr sv) (weight sv) (ttl sv)) s))
      else Some (set_task j (TCall false) s)
  | Some (TCall d), _ => Some (set_task j (TRunning d) (log (EvSvcRun j) s))
  | Some (TRunning d), _ => Some (set_task j (TReturning d) (log (EvSvcRunReturn j) s))
  | Some (TReturning d), _ =>
      let s := if d then log (EvReporterClose j) s else s in
      Some (set_task j TExited (set_wg (wg s - 1) s))
  | _, _ => None
  end.

(** A broker hands an event to the watcher of client [k]. *)
Definition deliver_step (k : nat) (ev : BrokerEvent) (s : State) : option State :=
  match brokers s !! k, manifest !! k with
  | Some b, Some cl =>
      let '(b', t) := Watcher.deliver (client_rt cl) ev b (trace s) in
      Some (set_brokers (<[k := b']> (brokers s)) (set_trace t s))
  | _, _ => None
  end.

Definition step (s : State) (a : Action) : option State :=
  match a with
  | AMain => main_step s
  | ACancel => Some (cancel_caller s)
  | ADeliver k ev => deliver_step k ev s
  | ATaskDone j => task_done j s
  | ATaskGo j => task_go j s
  | ATask j => task_step j s
  end.

(** Run a schedule; an action that is not enabled is skipped. *)
Fixpoint exec (sched : list Action) (s : State) : State :=
  match sched with
  | [] => s
  | a :: rest => exec rest (default s (step s a))
  end.

End Run.

(** ** Concrete inputs *)

Module Sample.

Definition okClient : Client :=
  {| cl_Name := "httpclient"; cl_Init := fun _ => None; cl_ReInit := fun _ => None |}.

(** A client whose [Init] and [ReInit] both fail. *)
Definition failingClient : Client :=
  {| cl_Name := "broken";
     cl_Init := fun _ => Some (Err "init failed");
     cl_ReInit := fun _ => Some (Err "reinit failed") |}.

Definition e1 : Endpoint := {| ID := "e1"; Addr := "10.0.0.1:80"; Weight := 100 |}.
Definition n1 : Endpoint := {| ID := "n1"; Addr := "127.0.0.1:9001"; Weight := 50 |}.

(** A watcher whose directory holds only [e1]. *)
Definition w1 : discoveryWatcher :=
  {| c := 0; options := "{}"; endpoints := {[ "e1" := e1 ]} |}.

Definition broker0 : Broker :=
  {| env := {[ "options" := "{}" ]}; members := []; watcher := None |}.

Definition cluster0 : Cluster := {| NewBroker := fun _ => inr broker0 |}.

Definition static (rt : Client) : client :=
  {| client_rt := rt; client_options := StaticOptions "ip"; client_description := "ip" |}.
Definition discovered (rt : Client) : client :=
  {| client_rt := rt; client_options := DiscoveryOptions "ip"; client_description := "ip" |}.

Definition okService : Service := {| sv_Name := "example"; sv_Init := fun _ => None |}.
Definition failingService : Service :=
  {| sv_Name := "broken"; sv_Init := fun _ => Some (Err "service init failed") |}.

Definition plain (rt : Service) : service :=
  {| service_rt := rt; service_description := "example service";
     addr := ""; weight := 0; ttl := 0 |}.
Definition reporting (rt : Service) : service :=
  WithAutoReport "addr" 100 10 (plain rt).

(** One static client, one discovery-bound client, one reporting service. *)
Definition manifest2 : list client := [static okClient; discovered okClient].
Definition vol1 : Voltron :=
  {| services := [reporting okService]; cluster := Some cluster0 |}.

(** The first client fails to initialise, the second is never reached. *)
Definition manifestAB : list client := [static failingClient; static okClient].

(** The first client is initialised, the second fails. *)
Definition manifestBA : list client := [static okClient; static failingClient].

(** [Join] was never called. *)
Definition volNoJoin : Voltron := {| services := [plain okService]; cluster := None |}.

(** A reporting service followed by one whose [Init] fails. *)
Definition volFail : Voltron :=
  {| services := [reporting okService; plain failingService]; cluster := Some cluster0 |}.

(** [Run] to completion with every service started. *)
Definition schedAll : list Action :=
  [AMain; AMain; AMain; AMain; AMain; AMain; AMain;
   ATaskGo 0; ATask 0; ATask 0; ATask 0; ATask 0;
   AMain; AMain; AMain; AMain].

(** The caller cancels the context after [Prepare] and before the barrier
    opens; the service goroutine takes the [ctx.Done()] branch. *)
Definition schedCancelled : list Action :=
  [AMain; AMain; AMain; AMain; AMain;
   ACancel; ATaskDone 0;
   AMain; AMain; AMain; AMain; AMain; AMain].

End Sample.

(** ** The steps, case by case, and the invariant of [Run] *)

(** Events that no ordering or counting property of the orchestrator looks at:
    what the broker and the watcher do around a client's [Init]. *)
Definition is_noise (e : Event) : bool :=
  match e with
  | EvNewBroker _ _ | EvNewOptions _ _ _ | EvClientReInit _ _ | EvWatch _ => true
  | _ => false
  end.

Definition noise (l : list Event) : Prop := Forall (fun e => is_noise e = true) l.

(** [p] does not hold of noise. *)
Definition quiet (p : Event -> bool) : Prop := forall e, is_noise e = true -> p e = false.

(** The trace without them. *)
Fixpoint denoise (t : Trace) : Trace :=
  match t with
  | [] => []
  | e :: t' => if is_noise e then denoise t' else e :: denoise t'
  end.

(** The barrier has been released by the time the caller stands at [p]. *)
Definition released (p : MainPc) : bool :=
  match p with
  | PcWait | PcShutdown _ None | PcReturned None => true
  | _ => false
  end.

(** [Run] has not got past [Voltron.init]: the caller is in it, or returned
    from [Run] without having entered [Voltron.run] (whose deferred [cancel]
    is what sets [ctx_run]). *)
Definition in_phase1 (s : State) : bool :=
  match pc s with
  | PcEntry | PcInit _ => true
  | PcReturned _ => negb (ctx_run s)
  | _ => false
  end.

(** Without a cluster: nothing has happened, and nothing but the caller can
    move. *)
Definition idle (s : State) : Prop :=
  trace s = [] /\ tasks s = ∅ /\ brokers s = ∅ /\
  (pc s = PcEntry \/ pc s = PcReturned (Some ErrInvalidCluster)).

Section Invariant.

Variable manifest : list client.
Variable vol : Voltron.

(** The service at index [j] reports: [s.addr != ""]. *)
Definition reports (j : nat) : bool :=
  match services vol !! j with
  | Some sv => bool_decide (addr sv <> "")
  | None => false
  end.

(** What [main_step] does after the loop body of [Voltron.init]. *)
Definition init_next (k : nat) (err : option error) (s : State) : State :=
  match err with
  | Some e => set_pc (PcReturned (Some e)) (cancel_Run s)
  | None => set_pc (PcInit (S k)) (set_vol_clients (vol_clients s ++ [k]) s)
  end.

Definition with_broker (k : nat) (ob : option Broker) (s : State) : State :=
  match ob with
  | Some b => set_brokers (<[k := b]> (brokers s)) s
  | None => s
  end.

Definition acquire_reporter (j : nat) (sv : service) (s : State) : State :=
  if decide (addr sv = "") then s
  else log (EvNewReporter j) (set_reporters ({[j]} ∪ reporters s) s).

Inductive Step (s : State) : State -> Prop :=
| St_entry_nil :
    pc s = PcEntry -> cluster vol = None ->
    Step s (set_pc (PcReturned (Some ErrInvalidCluster)) s)
| St_entry cl :
    pc s = PcEntry -> cluster vol = Some cl ->
    Step s (set_pc (PcInit 0) s)
| St_init_end k :
    pc s = PcInit k -> manifest !! k = None ->
    Step s (set_pc (PcPrepare 0) s)
| St_init_broker k cl e new :
    pc s = PcInit k -> manifest !! k = Some cl -> noise new ->
    Step s (set_pc (PcReturned (Some e)) (cancel_Run (set_trace (new ++ trace s) s)))
| St_init k cl err ob pre post :
    pc s = PcInit k -> manifest !! k = Some cl -> noise pre -> noise post ->
    Step s (init_next k err
              (with_broker k ob
                 (set_trace (pre ++ EvClientInit k err :: post ++ trace s) s)))
| St_prepare_end j :
    pc s = PcPrepare j -> services vol !! j = None ->
    Step s (set_pc PcGogo s)
| St_prepare_fail j sv e :
    pc s = PcPrepare j -> services vol !! j = Some sv ->
    Step s (set_pc (PcShutdown 0 (Some e))
              (cancel_run (log (EvSvcInit j (Some e)) (acquire_reporter j sv s))))
| St_prepare j sv :
    pc s = PcPrepare j -> services vol !! j = Some sv ->
    Step s (let s1 := log (EvSvcInit j None) (acquire_reporter j sv s) in
            set_pc (PcPrepare (S j))
              (log (EvPrepared j) (set_task j TWait (set_wg (S (wg s1)) s1))))
| St_gogo :
    pc s = PcGogo ->
    Step s (set_pc PcWait (log EvRelease (close_signal s)))
| St_wait :
    pc s = PcWait -> wg s = 0 ->
    Step s (set_pc (PcShutdown 0 None) (cancel_run s))
| St_shutdown k r i :
    pc s = PcShutdown k r -> vol_clients s !! k = Some i ->
    Step s (set_pc (PcShutdown (S k) r) (log (EvClientShutdown i) s))
| St_return k r :
    pc s = PcShutdown k r -> vol_clients s !! k = None ->
    Step s (set_pc (PcReturned r) (cancel_Run s))
| St_cancel :
    Step s (cancel_caller s)
| St_deliver k b' new :
    noise new ->
    Step s (set_brokers (<[k := b']> (brokers s)) (set_trace (new ++ trace s) s))
| St_task_done j :
    tasks s !! j = Some TWait -> ctx_done s = true ->
    Step s (set_task j TExited (set_wg (wg s - 1) s))
| St_task_go j :
    tasks s !! j = Some TWait -> signal s = true ->
    Step s (set_task j TStarted s)
| St_task_keepalive j sv :
    tasks s !! j = Some TStarted -> services vol !! j = Some sv -> j ∈ reporters s ->
    Step s (set_task j (TCall true)
              (log (EvKeepalive j (addr sv) (weight sv) (ttl sv)) s))
| St_task_quiet j sv :
    tasks s !! j = Some TStarted -> services vol !! j = Some sv -> j ∉ reporters s ->
    Step s (set_task j (TCall false) s)
| St_task_call j d :
    tasks s !! j = Some (TCall d) ->
    Step s (set_task j (TRunning d) (log (EvSvcRun j) s))
| St_task_return j d :
    tasks s !! j = Some (TRunning d) ->
    Step s (set_task j (TReturning d) (log (EvSvcRunReturn j) s))
| St_task_exit j d :
    tasks s !! j = Some (TReturning d) ->
    Step s (let s1 := if d then log (EvReporterClose j) s else s in
            set_task j TExited (set_wg (wg s1 - 1) s1)).

(** How many services are known to have been prepared, judging from where
    the caller stands. *)
Definition prepared_upto (s : State) : nat :=
  match pc s with
  | PcPrepare j => j
  | PcGogo => length (services vol)
  | _ => if signal s then length (services vol) else 0
  end.

(** What the goroutine of service [j] has done so far, by where it stands:
    [sig] is whether the start channel is closed, [t] the trace. *)
Definition task_ok (sig : bool) (t : Trace) (j : nat) (o : option TaskPc) : Prop :=
  let ka := count (is_keepalive j) t in
  let ru := count (is_svc_run j) t in
  let rr := count (is_svc_run_return j) t in
  let cl := count (is_reporter_close j) t in
  match o with
  | None | Some TWait => ka = 0 /\ ru = 0 /\ rr = 0 /\ cl = 0
  | Some TStarted => sig = true /\ ka = 0 /\ ru = 0 /\ rr = 0 /\ cl = 0
  | Some (TCall d) =>
      sig = true /\ d = reports j /\ ka = Nat.b2n d /\ ru = 0 /\ rr = 0 /\ cl = 0
  | Some (TRunning d) => d = reports j /\ ka = Nat.b2n d /\ ru = 1 /\ rr = 0 /\ cl = 0
  | Some (TReturning d) => d = reports j /\ ka = Nat.b2n d /\ ru = 1 /\ rr = 1 /\ cl = 0
  | Some TExited =>
      (ka = 0 /\ ru = 0 /\ rr = 0 /\ cl = 0) \/
      (ka = Nat.b2n (reports j) /\ ru = 1 /\ rr = 1 /\ cl = Nat.b2n (reports j))
  end.

Record Inv (s : State) : Prop := {
  inv_clients : vol_clients s = seq 0 (length (vol_clients s));
  inv_clients_le : length (vol_clients s) <= length manifest;
  inv_init_lt : forall k, k < length (vol_clients s) ->
    count (is_client_init k) (denoise (trace s)) = 1;
  inv_init_ok : forall k, EvClientInit k None ∈ denoise (trace s) -> k < length (vol_clients s);
  inv_init_gt : forall k, length (vol_clients s) < k ->
    count (is_client_init k) (denoise (trace s)) = 0;
  inv_init_eq : count (is_client_init (length (vol_clients s))) (denoise (trace s)) <= 1;
  inv_init_pc : forall k, pc s = PcInit k ->
    k = length (vol_clients s) /\ count (is_client_init k) (denoise (trace s)) = 0;
  inv_entry : pc s = PcEntry ->
    vol_clients s = [] /\ count (is_client_init 0) (denoise (trace s)) = 0;
  inv_fail : forall k e, EvClientInit k (Some e) ∈ denoise (trace s) ->
    pc s = PcReturned (Some e) /\ in_phase1 s = true /\ k = length (vol_clients s);
  inv_phase1 : in_phase1 s = true ->
    tasks s = ∅ /\ count is_service_event (denoise (trace s)) = 0 /\
    shutdown_ids (denoise (trace s)) = [] /\ signal s = false /\ reporters s = ∅ /\
    ctx_run s = false;
  inv_phase2 : in_phase1 s = false -> length (vol_clients s) = length manifest;
  inv_ret1 : forall r, pc s = PcReturned r -> in_phase1 s = true ->
    length (vol_clients s) = 0 \/ length (vol_clients s) < length manifest;
  inv_shutdown :
    match pc s with
    | PcShutdown k r =>
        shutdown_ids (denoise (trace s)) = rev (seq 0 k) /\ k <= length (vol_clients s) /\
        ctx_run s = true
    | PcReturned _ =>
        in_phase1 s = false -> shutdown_ids (denoise (trace s)) = rev (seq 0 (length manifest))
    | _ => shutdown_ids (denoise (trace s)) = []
    end;
  inv_signal : signal s = released (pc s);
  inv_release : count is_release (denoise (trace s)) = Nat.b2n (signal s);
  inv_prepared : forall j, j < prepared_upto s -> EvPrepared j ∈ denoise (trace s);
  inv_fresh : forall j0 j, pc s = PcPrepare j0 -> j0 <= j ->
    tasks s !! j = None /\ (j ∉ reporters s) /\
    count (is_new_reporter j) (denoise (trace s)) = 0 /\ count (is_svc_init j) (denoise (trace s)) = 0;
  inv_newrep : forall j, count (is_new_reporter j) (denoise (trace s)) <= 1;
  inv_task : forall j p, tasks s !! j = Some p ->
    (j ∈ reporters s <-> reports j = true) /\
    count (is_new_reporter j) (denoise (trace s)) = Nat.b2n (reports j);
  inv_task_counts : forall j,
    task_ok (signal s) (denoise (trace s)) j (tasks s !! j);
  inv_keepalive_args : forall j a w l, EvKeepalive j a w l ∈ denoise (trace s) ->
    exists sv, services vol !! j = Some sv /\ a = addr sv /\ w = weight sv /\ l = ttl sv;
  inv_h_release :
    hist_all is_release
      (fun h => forall j, j < length (services vol) -> EvPrepared j ∈ h) (denoise (trace s));
  inv_h_run :
    hist_all is_any_svc_run
      (fun h => EvRelease ∈ h /\
                (forall j, j < length (services vol) -> EvPrepared j ∈ h) /\
                (forall k, k < length manifest -> count (is_client_init k) h = 1))
      (denoise (trace s));
  inv_h_init :
    hist_all is_any_client_init (fun h => count is_service_event h = 0) (denoise (trace s));
  inv_h_newrep : forall j,
    hist_all (is_new_reporter j)
      (fun h => count is_release h = 0 /\ count (is_svc_init j) h = 0) (denoise (trace s));
  inv_h_run_j : forall j,
    hist_all (is_svc_run j)
      (fun h => count (is_keepalive j) h = Nat.b2n (reports j) /\
                count (is_new_reporter j) h = Nat.b2n (reports j)) (denoise (trace s));
  inv_h_keepalive : forall j,
    hist_all (is_keepalive j)
      (fun h => EvRelease ∈ h /\ count (is_svc_run j) h = 0) (denoise (trace s));
  inv_h_close : forall j,
    hist_all (is_reporter_close j)
      (fun h => count (is_svc_run_return j) h = 1 /\ count (is_keepalive j) h = 1)
      (denoise (trace s));
}.

End Invariant.

(** ** Progress of the caller when nothing fails *)

(** Every implementation answers nil, and the cluster hands out brokers. *)
Definition all_succeed (manifest : list client) (vol : Voltron) : Prop :=
  (exists cl, cluster vol = Some cl /\
     forall c srv, c ∈ manifest -> client_options c = DiscoveryOptions srv ->
       exists b, NewBroker cl srv = inr b) /\
  (forall c h, c ∈ manifest -> cl_Init (client_rt c) h = None) /\
  (forall sv h, sv ∈ services vol -> sv_Init (service_rt sv) h = None).

(** How many times the caller is scheduled. *)
Fixpoint main_steps (sched : list Action) : nat :=
  match sched with
  | [] => 0
  | AMain :: rest => S (main_steps rest)
  | _ :: rest => main_steps rest
  end.

(** How many steps the caller takes to get to [p] when nothing fails, with
    [n] clients and [m] services; everything from [wg.Wait()] on counts alike. *)
Definition main_pos (n m : nat) (p : MainPc) : nat :=
  match p with
  | PcEntry => 0
  | PcInit k => 1 + k
  | PcPrepare j => 2 + n + j
  | PcGogo => 3 + n + m
  | PcWait | PcShutdown _ _ | PcReturned _ => 4 + n + m
  end.

(** With nothing failing the caller stays on the path to a nil result. *)
Definition on_track (n m : nat) (p : MainPc) : Prop :=
  match p with
  | PcInit k => k <= n
  | PcPrepare j => j <= m
  | PcShutdown _ r | PcReturned r => r = None
  | _ => True
  end.

(** ** More of the orchestrator: order, failure of a service, the wait group *)

#[global] Instance TaskPc_eq_dec : EqDecision TaskPc.
Proof. solve_decision. Defined.

(** The client records whose [Init] was invoked, newest first. *)
Fixpoint init_ids (t : Trace) : list nat :=
  match t with
  | [] => []
  | EvClientInit k _ :: t' => k :: init_ids t'
  | _ :: t' => init_ids t'
  end.

(** The services whose [Init] was invoked, newest first. *)
Fixpoint svc_init_ids (t : Trace) : list nat :=
  match t with
  | [] => []
  | EvSvcInit j _ :: t' => j :: svc_init_ids t'
  | _ :: t' => svc_init_ids t'
  end.

(** What a service goroutine does once it is past its [select]. *)
Definition is_task_event (e : Event) : bool :=
  match e with
  | EvKeepalive _ _ _ _ | EvSvcRun _ | EvSvcRunReturn _ | EvReporterClose _ => true
  | _ => false
  end.

(** The goroutine is past its [select] and has not exited. *)
Definition running (p : TaskPc) : bool :=
  match p with
  | TWait | TExited => false
  | _ => true
  end.

(** The goroutines that have not yet called [wg.Done]. *)
Definition live_tasks (m : gmap nat TaskPc) : nat :=
  size (filter (fun kv => kv.2 <> TExited) m).

(** The caller is leaving [Run] with the error [e]: it is shutting the
    clients down before returning it, or has returned it. *)
Definition failed_with (e : error) (p : MainPc) : Prop :=
  match p with
  | PcShutdown _ r | PcReturned r => r = Some e
  | _ => False
  end.

Section Invariant2.

Variable manifest : list client.
Variable vol : Voltron.

(** More of what holds in every state of [Run]: the order of the [Init]
    calls, what a failed service [Init] leaves, the wait group, and that the
    goroutines are done before the clients are shut down. *)
Record Inv2 (s : State) : Prop := {
  inv2_init_order :
    init_ids (denoise (trace s)) =
    rev (seq 0 (length (vol_clients s) +
                count (is_client_init (length (vol_clients s))) (denoise (trace s))));
  inv2_svc_order : exists P,
    P <= length (services vol) /\ svc_init_ids (denoise (trace s)) = rev (seq 0 P) /\
    forall j, pc s = PcPrepare j -> j = P;
  inv2_svc_fail : forall j e, EvSvcInit j (Some e) ∈ denoise (trace s) ->
    failed_with e (pc s) /\ in_phase1 s = false /\
    forall j', j <= j' ->
      tasks s !! j' = None /\
      (j < j' -> count (is_svc_init j') (denoise (trace s)) = 0 /\
                 count (is_new_reporter j') (denoise (trace s)) = 0);
  inv2_wg : wg s = live_tasks (tasks s);
  inv2_running : forall j p, tasks s !! j = Some p -> running p = true -> signal s = true;
  inv2_waited :
    match pc s with
    | PcShutdown _ None | PcReturned None => wg s = 0
    | _ => True
    end;
  inv2_launched : forall j, EvPrepared j ∈ denoise (trace s) -> is_Some (tasks s !! j);
  inv2_noreport : forall j, reports vol j = false ->
    count (is_new_reporter j) (denoise (trace s)) = 0 /\ j ∉ reporters s;
  inv2_init_known : forall k r, EvClientInit k r ∈ denoise (trace s) -> k < length manifest;
  inv2_boot : forall j, is_Some (tasks s !! j) <-> EvSvcInit j None ∈ denoise (trace s);
  inv2_quiet_before : signal s = false -> count is_task_event (denoise (trace s)) = 0;
  inv2_h_task :
    hist_all is_task_event (fun h => count is_shutdown h = 0) (denoise (trace s));
  inv2_h_shutdown :
    hist_all is_shutdown
      (fun h => forall j, count (is_svc_run j) h = count (is_svc_run_return j) h /\
                          count (is_keepalive j) h = count (is_reporter_close j) h)
      (denoise (trace s));
}.

End Invariant2.

(** ** Letting everything run to its end *)

(** The goroutine of service [j] is let through its [select] and run to its
    end: the implementation's [Run] is invoked and returns. *)
Definition finish_task (j : nat) : list Action :=
  [ATaskGo j; ATask j; ATask j; ATask j; ATask j; ATaskDone j].

(** A schedule that lets the caller run as far as it can, then every
    goroutine, then the caller again: [n] clients, [m] services. *)
Definition drain (n m : nat) : list Action :=
  repeat AMain (n + m + 4) ++ flat_map finish_task (seq 0 m) ++ repeat AMain (n + 2).

(** The caller is past [gogo()], or on its way out. *)
Definition late (p : MainPc) : bool :=
  match p with
  | PcWait | PcShutdown _ _ | PcReturned _ => true
  | _ => false
  end.

(** How many steps the caller needs at most to get there. *)
Definition to_wait (n m : nat) (p : MainPc) : nat :=
  match p with
  | PcEntry => n + m + 4
  | PcInit k => (n - k) + m + 3
  | PcPrepare j => (m - j) + 2
  | PcGogo => 1
  | _ => 0
  end.

(** How many steps it needs at most from [wg.Wait] to the return, with [c]
    clients to shut down. *)
Definition to_ret (c : nat) (p : MainPc) : nat :=
  match p with
  | PcWait => c + 2
  | PcShutdown k _ => (c - k) + 1
  | PcReturned _ => 0
  | _ => 0
  end.

(** How far a service goroutine has got. *)
Definition stage (o : option TaskPc) : nat :=
  match o with
  | Some TWait => 0
  | Some TStarted => 1
  | Some (TCall _) => 2
  | Some (TRunning _) => 3
  | Some (TReturning _) => 4
  | Some TExited | None => 5
  end.

(** What a step of the goroutine of service [j] leaves alone. *)
Definition frame (j : nat) (s s' : State) : Prop :=
  pc s' = pc s /\ signal s' = signal s /\ ctx_done s' = ctx_done s /\
  vol_clients s' = vol_clients s /\
  (is_Some (tasks s' !! j) <-> is_Some (tasks s !! j)) /\
  forall j', j' <> j -> tasks s' !! j' = tasks s !! j'.

(** ** The watcher over a sequence of events *)

(** The broker hands its watcher one event after the other. *)
Fixpoint notify_all (rt : Client) (evs : list BrokerEvent) (w : discoveryWatcher)
  : M discoveryWatcher :=
  match evs with
  | [] => mret w
  | ev :: rest => w' ← Watcher.notify rt ev w; notify_all rt rest w'
  end.

(** Whether the handler of [ev] gets as far as its [reinit]. *)
Definition effective (ev : BrokerEvent) (w : discoveryWatcher) : bool :=
  match ev with
  | ConfigSet key _ | ConfigDelete key => bool_decide (key = "options")
  | EndpointUpdate endpoint => negb (Watcher.unchanged endpoint w)
  | EndpointDelete id => bool_decide (is_Some (endpoints w !! id))
  end.

(** Every endpoint of the directory is filed under its own ID. *)
Definition keyed (m : gmap string Endpoint) : Prop :=
  forall id ep, m !! id = Some ep -> ID ep = id.

(** What the events say when they are replayed without looking at any
    cache: the options value and the endpoints by ID. *)
Definition replay (st : string * gmap string Endpoint) (ev : BrokerEvent)
  : string * gmap string Endpoint :=
  match ev with
  | ConfigSet key value => if decide (key = "options") then (value, st.2) else st
  | ConfigDelete key => if decide (key = "options") then ("", st.2) else st
  | EndpointUpdate endpoint => (st.1, <[ID endpoint := endpoint]> st.2)
  | EndpointDelete id => (st.1, delete id st.2)
  end.

(** ** The brokers of [Run] and their watchers *)

(** What only a watcher does: its registration, and the calls to [ReInit]. *)
Definition is_watcher_event (e : Event) : bool :=
  match e with
  | EvWatch _ | EvClientReInit _ _ => true
  | _ => false
  end.

Section Brokers.

Variable manifest : list client.

(** The client at index [k] is bound by discovery. *)
Definition discovery_bound (k : nat) : Prop :=
  exists cl srvname, manifest !! k = Some cl /\ client_options cl = DiscoveryOptions srvname.

(** What holds of the brokers in every state of [Run]: a broker is there
    only for a client bound by discovery whose [Init] has been called, and
    holds that client's watcher; only such a client's [ReInit] is called. *)
Record BInv (s : State) : Prop := {
  b_known : forall k b, brokers s !! k = Some b ->
    0 < count (is_client_init k) (trace s) /\ discovery_bound k /\
    exists w, watcher b = Some w /\ c w = k;
  b_watch : forall k, EvWatch k ∈ trace s -> is_Some (brokers s !! k);
  b_reinit : forall k, 0 < count (is_reinit k) (trace s) -> is_Some (brokers s !! k);
  b_h_reinit : forall k,
    hist_all (is_reinit k) (fun h => 0 < count (is_client_init k) h) (trace s);
}.

End Brokers.

(** ** What [Run] returns, and what it has done when it returns nil *)

(** The error [e] was returned by a client's [Init], by [NewBroker], or by a
    service's [Init]. *)
Definition caused (e : error) (t : Trace) : Prop :=
  (exists k, EvClientInit k (Some e) ∈ t) \/
  (exists k, EvNewBroker k (Some e) ∈ t) \/
  (exists j, EvSvcInit j (Some e) ∈ t).

(** The caller is in the deferred part of [Run], or has returned. *)
Definition leaving (p : MainPc) : bool :=
  match p with
  | PcShutdown _ _ | PcReturned _ => true
  | _ => false
  end.

(** The contexts are cancelled by the caller on its way out only, and a
    goroutine that exited without running its service found its context
    cancelled. *)
Record Inv3 (s : State) : Prop := {
  inv3_ctx_run : ctx_run s = true -> leaving (pc s) = true;
  inv3_ctx_Run : ctx_Run s = true -> exists r, pc s = PcReturned r;
  inv3_done : forall j, tasks s !! j = Some TExited ->
    count (is_svc_run j) (denoise (trace s)) = 0 ->
    ctx_caller s = true \/ exists e, failed_with e (pc s);
}.

(** With a cluster joined: an error [Run] is leaving with has a cause, and a
    failed [NewBroker] makes [Run] return. *)
Record CInv (s : State) : Prop := {
  c_cause : forall e, failed_with e (pc s) -> caused e (trace s);
  c_broker : forall k e, EvNewBroker k (Some e) ∈ trace s -> pc s = PcReturned (Some e);
}.

(** ** builtin/client/http/client.go *)

(** The HTTP client shipped with voltron.  Its methods are taken one at a
    time.  A call that panics leaves the client as the panicking call left
    it.  [int] is taken to be 64 bits wide. *)
Module HTTP.

Definition ErrClientNotReady : error := Err "http client is not ready".

(** What a call yields: it returns, or it panics. *)
Inductive Outcome (A : Type) :=
| Return (a : A)
| Panic (msg : string).
Arguments Return {A} a.
Arguments Panic {A} msg.

(** [ClientOptions].  The first three fields are tagged [json:"-"]. *)
Record ClientOptions := {
  SevName : string;
  Raw : string;
  Endpoints : list string;
  Scheme : string;
  Host : string;
  Timeout : Z;
  RetryCount : Z;
}.

(** What [Init] is handed as a [voltron.ClientOptions]: the nil interface, a
    [*ClientOptions] (which may be a nil pointer), or a value of another
    type. *)
Inductive Options :=
| NilOptions
| OwnOptions (co : option ClientOptions)
| OtherOptions (srvname : string).

(** Modelled from the spec: the options of heimdall's [httpclient.NewClient]
    that the code builds; a duration is a number of nanoseconds. *)
Inductive HcOption :=
| WithRetryCount (n : Z)
| WithHTTPTimeout (d : Z).

(** Arithmetic of [int64]: a product wraps around. *)
Definition int64 (z : Z) : Z := (z + 2 ^ 63) mod 2 ^ 64 - 2 ^ 63.

Definition Millisecond : Z := 1000000.

(** [Client]: [balance] is the [atomic.Uint32], [client] the heimdall client
    ([None] is nil) given by the options it was built from. *)
Record Client := {
  scheme : string;
  host : string;
  balance : Z;
  endpoints : list string;
  client : option (list HcOption);
  ready : bool;
}.

(** The zero value, [var ip http.Client]. *)
Definition zero : Client :=
  {| scheme := ""; host := ""; balance := 0; endpoints := []; client := None;
     ready := false |}.

Definition set_ready (r : bool) (c : Client) : Client :=
  {| scheme := scheme c; host := host c; balance := balance c;
     endpoints := endpoints c; client := client c; ready := r |}.
Definition set_balance (b : Z) (c : Client) : Client :=
  {| scheme := scheme c; host := host c; balance := b;
     endpoints := endpoints c; client := client c; ready := ready c |}.

Definition hcopts (co : ClientOptions) : list HcOption :=
  (if decide (0 < RetryCount co)%Z then [WithRetryCount (RetryCount co)] else []) ++
  (if decide (0 < Timeout co)%Z
   then [WithHTTPTimeout (int64 (Timeout co * Millisecond))] else []).

(** [Client.Init].  The deferred function stores [ready] when [err] is nil,
    which it also is when [co.RetryCount] dereferences a nil [co]. *)
Definition Init (opts : Options) (c : Client) : Outcome (option error) * Client :=
  if ready c then (Return None, c)
  else
    match opts with
    | OwnOptions (Some co) =>
        (Return None,
         {| scheme := Scheme co; host := Host co; balance := balance c;
            endpoints := Endpoints co; client := Some (hcopts co); ready := true |})
    | OwnOptions None =>
        (Panic "invalid memory address or nil pointer dereference", set_ready true c)
    | _ => (Return (Some (Err "invalid options for http client")), c)
    end.

(** [Client.ReInit]. *)
Definition ReInit (opts : Options) (c : Client) : option error * Client := (None, c).

(** [Client.Shutdown]. *)
Definition Shutdown (c : Client) : Client :=
  if negb (ready c) then c else set_ready false c.

Section Decode.

(** Modelled from the spec: [json.Unmarshal(options, opts)], whose error
    the code drops. *)
Variable Unmarshal : string -> ClientOptions -> ClientOptions.

(** [Client.NewOptions]. *)
Definition NewOptions (options : string) (eps : list Endpoint) : ClientOptions :=
  let opts := {| SevName := ""; Raw := options; Endpoints := []; Scheme := "";
                 Host := ""; Timeout := 0; RetryCount := 0 |} in
  let opts := Unmarshal options opts in
  {| SevName := SevName opts; Raw := Raw opts;
     Endpoints := Endpoints opts ++ (Addr <$> eps);
     Scheme := Scheme opts; Host := Host opts; Timeout := Timeout opts;
     RetryCount := RetryCount opts |}.

End Decode.

(** Decoding leaves the fields tagged [json:"-"] alone. *)
Definition skips_untagged (Unmarshal : string -> ClientOptions -> ClientOptions) : Prop :=
  forall data o, SevName (Unmarshal data o) = SevName o /\
                 Raw (Unmarshal data o) = Raw o /\
                 Endpoints (Unmarshal data o) = Endpoints o.

Inductive Method := GET | POST | PUT | PATCH | DELETE.

(** [http.Header]. *)
Definition Header := gmap string (list string).

(** What a request method answers: [ErrClientNotReady], or whatever the
    heimdall client answers to the call it was handed. *)
Inductive Reply :=
| Refused (err : error)
| Sent (m : Method) (url : string) (headers : Header) (hc : list HcOption).

(** [c.balance.Inc()]: the new value, modulo 2^32. *)
Definition Inc (c : Client) : Z * Client :=
  let b := ((balance c + 1) mod 2 ^ 32)%Z in (b, set_balance b c).

(** The path [buildUrl] appends to the address. *)
Definition path (uri : string) : string :=
  if decide (uri = "/") then ""
  else if String.prefix "/" uri then uri else String.append "/" uri.

(** The URL for endpoint [ep]: [addr + uri] after the adjustments. *)
Definition url_of (c : Client) (ep : string) (uri : string) : string :=
  String.append (String.append (scheme c) (String.append "://" ep)) (path uri).

(** [Client.buildUrl]. *)
Definition buildUrl (uri : string) (c : Client) : Outcome string * Client :=
  let '(b, c') := Inc c in
  match endpoints c with
  | [] => (Panic "integer divide by zero", c')
  | _ =>
      let i := Z.to_nat (Z.rem b (Z.of_nat (length (endpoints c)))) in
      (Return (url_of c (default "" (endpoints c !! i)) uri), c')
  end.

(** [Client.buildHeaders]: a nil map is replaced by an empty one. *)
Definition buildHeaders (headers : option Header) (c : Client) : Header :=
  let headers := default ∅ headers in
  if decide (host c = "") then headers else <["Host" := [host c]]> headers.

(** [Get], [Post], [Put], [Patch] and [Delete] differ in the method of the
    heimdall client they call (and in passing a body through). *)
Definition request (m : Method) (uri : string) (headers : option Header) (c : Client)
  : Outcome Reply * Client :=
  if negb (ready c) then (Return (Refused ErrClientNotReady), c)
  else
    match buildUrl uri c with
    | (Panic msg, c') => (Panic msg, c')
    | (Return url, c') =>
        match client c' with
        | None => (Panic "invalid memory address or nil pointer dereference", c')
        | Some hc => (Return (Sent m url (buildHeaders headers c') hc), c')
        end
    end.

Definition Get := request GET.
Definition Post := request POST.
Definition Put := request PUT.
Definition Patch := request PATCH.
Definition Delete := request DELETE.

(** The calls a program makes on one client. *)
Inductive Op :=
| OpInit (opts : Options)
| OpReInit (opts : Options)
| OpShutdown
| OpRequest (m : Method) (uri : string) (headers : option Header).

Definition apply (c : Client) (op : Op) : Client :=
  match op with
  | OpInit opts => (Init opts c).2
  | OpReInit opts => (ReInit opts c).2
  | OpShutdown => Shutdown c
  | OpRequest m uri headers => (request m uri headers c).2
  end.

Definition run (ops : list Op) (c : Client) : Client := foldl apply c ops.

(** What [k] requests in a row answer. *)
Fixpoint requests (m : Method) (uri : string) (headers : option Header) (k : nat)
    (c : Client) : list (Outcome Reply) :=
  match k with
  | 0 => []
  | S k' => (request m uri headers c).1 :: requests m uri headers k' (request m uri headers c).2
  end.

(** Everything but [balance] and [ready]. *)
Definition same_configuration (c c' : Client) : Prop :=
  scheme c' = scheme c /\ host c' = host c /\ endpoints c' = endpoints c /\
  client c' = client c.

End HTTP.

(** ** Building the orchestrator: [New], [Setup], [Join] *)

Module Registration.

(** [RunOption] and [VoltronOption] are functions on the value they
    configure. *)
Definition RunOption := service -> service.
Definition VoltronOption := Voltron -> Voltron.

(** [New]. *)
Definition New (opts : list VoltronOption) : Voltron :=
  foldl (fun vol setOpt => setOpt vol) {| services := []; cluster := None |} opts.

(** [Voltron.Setup]. *)
Definition Setup (srv : Service) (description : string) (opts : list RunOption)
    (vol : Voltron) : Voltron :=
  let s := foldl (fun s setOpt => setOpt s)
             {| service_rt := srv; service_description := description;
                addr := ""; weight := 0; ttl := 0 |} opts in
  {| services := services vol ++ [s]; cluster := cluster vol |}.

(** [Voltron.Join]; [None] is the panic on a nil cluster. *)
Definition Join (cl : option Cluster) (vol : Voltron) : option Voltron :=
  match cl with
  | None => None
  | Some _ => Some {| services := services vol; cluster := cl |}
  end.

(** A program that sets up services one after the other, then joins. *)
Definition build (regs : list (Service * string * list RunOption)) (cl : option Cluster)
  : option Voltron :=
  Join cl (foldl (fun vol '(srv, description, opts) => Setup srv description opts vol)
             (New []) regs).

End Registration.

(** * Properties *)

(** ** The discovery watcher *)

Lemma unchanged_true endpoint w :
  Watcher.unchanged endpoint w = true <->
  exists cached, endpoints w !! ID endpoint = Some cached /\
                 Addr cached = Addr endpoint /\ Weight cached = Weight endpoint.
Proof.
  unfold Watcher.unchanged. destruct (endpoints w !! ID endpoint) as [ep|]; split.
  - intros [H1 H2]%andb_prop. apply bool_decide_eq_true in H1, H2. eauto.
  - intros (? & [= <-] & H1 & H2). rewrite !bool_decide_eq_true_2; done.
  - done.
  - intros (? & ? & _); done.
Qed.

Lemma unchanged_after_upsert endpoint w :
  Watcher.unchanged endpoint
    (Watcher.set_endpoints (<[ID endpoint := endpoint]> (endpoints w)) w) = true.
Proof.
  apply unchanged_true. exists endpoint. simpl. by rewrite lookup_insert_eq.
Qed.

Lemma reinit_trace_eq rt w t :
  Watcher.reinit_trace rt w t =
  EvClientReInit (c w) (cl_ReInit rt (EvNewOptions (c w) (options w) (Watcher.directory w) :: t))
    :: EvNewOptions (c w) (options w) (Watcher.directory w) :: t.
Proof. reflexivity. Qed.

Lemma count_reinit_trace rt w' t :
  count (is_reinit (c w')) (Watcher.reinit_trace rt w' t) = S (count (is_reinit (c w')) t).
Proof. simpl. by rewrite bool_decide_eq_true_2. Qed.

Lemma OnUpdateEndpoint_changed rt endpoint w t :
  Watcher.unchanged endpoint w = false ->
  let w' := Watcher.set_endpoints (<[ID endpoint := endpoint]> (endpoints w)) w in
  Watcher.OnUpdateEndpoint rt endpoint w t = (w', Watcher.reinit_trace rt w' t).
Proof. intros Hu. unfold Watcher.OnUpdateEndpoint. rewrite Hu. reflexivity. Qed.

Lemma OnUpdateEndpoint_same rt endpoint w t :
  Watcher.unchanged endpoint w = true ->
  Watcher.OnUpdateEndpoint rt endpoint w t = (w, t).
Proof. intros Hu. unfold Watcher.OnUpdateEndpoint. rewrite Hu. reflexivity. Qed.

Lemma OnDeleteEndpoint_present rt id ep w t :
  endpoints w !! id = Some ep ->
  let w' := Watcher.set_endpoints (delete id (endpoints w)) w in
  Watcher.OnDeleteEndpoint rt id w t = (w', Watcher.reinit_trace rt w' t).
Proof. intros H. unfold Watcher.OnDeleteEndpoint. rewrite H. reflexivity. Qed.

Lemma OnSetenv_options rt value w t :
  let w' := Watcher.set_options value w in
  Watcher.OnSetenv rt "options" value w t = (w', Watcher.reinit_trace rt w' t).
Proof. reflexivity. Qed.

Lemma OnDelenv_options rt w t :
  let w' := Watcher.set_options "" w in
  Watcher.OnDelenv rt "options" w t = (w', Watcher.reinit_trace rt w' t).
Proof. reflexivity. Qed.

Lemma deliver_trace rt ev b w t :
  watcher b = Some w ->
  snd (Watcher.deliver rt ev b t) = snd (Watcher.notify rt ev w t).
Proof.
  intros H. unfold Watcher.deliver. rewrite H. unfold mbind, M_bind.
  by destruct (Watcher.notify rt ev w t).
Qed.

(** C6.  An [EndpointUpdate] whose address and weight equal the cached entry
    of the same ID changes neither the watcher (so not the directory) nor the
    trace (so [ReInit] is not called).  Delivering one endpoint twice: after
    the first delivery the endpoint is cached, the second delivery is such a
    no-op, and both together call [ReInit] once, unless the entry was cached
    before the first delivery, in which case not at all. *)
Theorem OnUpdateEndpoint_idempotent (rt : Client) (endpoint : Endpoint)
    (w : discoveryWatcher) (t : Trace) :
  (forall cached, endpoints w !! ID endpoint = Some cached ->
     Addr cached = Addr endpoint -> Weight cached = Weight endpoint ->
     Watcher.OnUpdateEndpoint rt endpoint w t = (w, t)) /\
  (let '(w1, t1) := Watcher.OnUpdateEndpoint rt endpoint w t in
   Watcher.unchanged endpoint w1 = true /\
   Watcher.OnUpdateEndpoint rt endpoint w1 t1 = (w1, t1) /\
   count (is_reinit (c w)) t1 =
     count (is_reinit (c w)) t + (if Watcher.unchanged endpoint w then 0 else 1)).
Proof.
  split.
  - intros cached Hc Ha Hw. apply OnUpdateEndpoint_same, unchanged_true. eauto.
  - destruct (Watcher.unchanged endpoint w) eqn:Hu.
    + rewrite (OnUpdateEndpoint_same _ _ _ _ Hu).
      split; [done|]. split; [by apply OnUpdateEndpoint_same | lia].
    + rewrite (OnUpdateEndpoint_changed _ _ _ _ Hu).
      split; [apply unchanged_after_upsert|].
      split; [apply OnUpdateEndpoint_same, unchanged_after_upsert|].
      rewrite (count_reinit_trace rt (Watcher.set_endpoints _ w)). simpl. lia.
Qed.

Lemma OnUpdateEndpoint_idempotent_witness :
  Watcher.OnUpdateEndpoint Sample.okClient Sample.e1 Sample.w1 [] = (Sample.w1, []).
Proof.
  apply (proj1 (OnUpdateEndpoint_idempotent Sample.okClient Sample.e1 Sample.w1 [])
           Sample.e1); reflexivity.
Defined.

(** The scenario of the specification: after the initial bind against a broker
    with no members, the same endpoint is fed twice; [ReInit] is called once. *)
Example same_endpoint_twice :
  let '((_, b1), t1) := Watcher.Init 0 Sample.okClient Sample.broker0 [] in
  let '(b2, t2) := Watcher.deliver Sample.okClient (EndpointUpdate Sample.e1) b1 t1 in
  let '(b3, t3) := Watcher.deliver Sample.okClient (EndpointUpdate Sample.e1) b2 t2 in
  count (is_reinit 0) t1 = 0 /\ count (is_reinit 0) t2 = 1 /\ t3 = t2 /\
  (endpoints <$> watcher b3) = Some {[ "e1" := Sample.e1 ]}.
Proof. vm_compute. repeat split. Qed.

(** C7.  An [EndpointDelete] for an ID that is not in the directory changes
    neither the watcher nor the trace.  For an ID that is in the directory the
    entry is removed, and [ReInit] is called once, with the directory that no
    longer holds the ID. *)
Theorem OnDeleteEndpoint_absent_noop (rt : Client) (id : string)
    (w : discoveryWatcher) (t : Trace) :
  (endpoints w !! id = None -> Watcher.OnDeleteEndpoint rt id w t = (w, t)) /\
  (forall ep, endpoints w !! id = Some ep ->
     let '(w', t') := Watcher.OnDeleteEndpoint rt id w t in
     endpoints w' = delete id (endpoints w) /\ endpoints w' !! id = None /\
     options w' = options w /\
     t' = Watcher.reinit_trace rt w' t /\
     count (is_reinit (c w)) t' = S (count (is_reinit (c w)) t)).
Proof.
  split.
  - intros H. unfold Watcher.OnDeleteEndpoint. by rewrite H.
  - intros ep H. rewrite (OnDeleteEndpoint_present _ _ _ _ _ H). simpl.
    split; [done|]. split; [apply lookup_delete_eq|]. split; [done|].
    split; [done|]. by rewrite bool_decide_eq_true_2.
Qed.

Lemma OnDeleteEndpoint_absent_noop_witness :
  Watcher.OnDeleteEndpoint Sample.okClient "missing" Sample.w1 [] = (Sample.w1, []) /\
  count (is_reinit 0) (snd (Watcher.OnDeleteEndpoint Sample.okClient "e1" Sample.w1 [])) = 1.
Proof.
  split.
  - apply (proj1 (OnDeleteEndpoint_absent_noop Sample.okClient "missing" Sample.w1 [])).
    reflexivity.
  - pose proof (proj2 (OnDeleteEndpoint_absent_noop Sample.okClient "e1" Sample.w1 [])
                  Sample.e1 eq_refl) as H.
    destruct (Watcher.OnDeleteEndpoint Sample.okClient "e1" Sample.w1 []) as [w' t'].
    exact (proj2 (proj2 (proj2 (proj2 H)))).
Defined.

(** C8.  A client whose [ReInit] returns an error [e]: each of the four
    handlers still leaves the new raw configuration or directory in the
    watcher, calls [ReInit] once (the call that failed, never a second one),
    and returns a watcher and nothing else.  Feeding the same endpoint again
    after the failure is a no-op: the watcher holds it as cached. *)
Theorem ReInit_error_keeps_commit (rt : Client) (e : error)
    (w : discoveryWatcher) (t : Trace)
    (Hfail : forall h, cl_ReInit rt h = Some e) :
  (forall value,
     let w' := Watcher.set_options value w in
     Watcher.OnSetenv rt "options" value w t =
       (w', EvClientReInit (c w) (Some e)
              :: EvNewOptions (c w) value (Watcher.directory w) :: t)) /\
  (let w' := Watcher.set_options "" w in
   Watcher.OnDelenv rt "options" w t =
     (w', EvClientReInit (c w) (Some e)
            :: EvNewOptions (c w) "" (Watcher.directory w) :: t)) /\
  (forall endpoint, Watcher.unchanged endpoint w = false ->
     let w' := Watcher.set_endpoints (<[ID endpoint := endpoint]> (endpoints w)) w in
     let t' := EvClientReInit (c w) (Some e)
                 :: EvNewOptions (c w) (options w) (Watcher.directory w') :: t in
     Watcher.OnUpdateEndpoint rt endpoint w t = (w', t') /\
     Watcher.OnUpdateEndpoint rt endpoint w' t' = (w', t')) /\
  (forall id ep, endpoints w !! id = Some ep ->
     let w' := Watcher.set_endpoints (delete id (endpoints w)) w in
     Watcher.OnDeleteEndpoint rt id w t =
       (w', EvClientReInit (c w) (Some e)
              :: EvNewOptions (c w) (options w) (Watcher.directory w') :: t)).
Proof.
  split; [|split; [|split]].
  - intros value w'. rewrite OnSetenv_options, reinit_trace_eq, Hfail. reflexivity.
  - intros w'. rewrite OnDelenv_options, reinit_trace_eq, Hfail. reflexivity.
  - intros endpoint Hu w' t'. split.
    + rewrite (OnUpdateEndpoint_changed _ _ _ _ Hu), reinit_trace_eq, Hfail. reflexivity.
    + apply OnUpdateEndpoint_same, unchanged_after_upsert.
  - intros id ep H w'.
    rewrite (OnDeleteEndpoint_present _ _ _ _ _ H), reinit_trace_eq, Hfail. reflexivity.
Qed.

Lemma ReInit_error_keeps_commit_witness :
  Watcher.OnUpdateEndpoint Sample.failingClient Sample.n1 Sample.w1 [] =
    (Watcher.set_endpoints (<[ "n1" := Sample.n1 ]> (endpoints Sample.w1)) Sample.w1,
     [EvClientReInit 0 (Some (Err "reinit failed"));
      EvNewOptions 0 "{}"
        (Watcher.directory
           (Watcher.set_endpoints (<[ "n1" := Sample.n1 ]> (endpoints Sample.w1)) Sample.w1))]).
Proof.
  apply (proj1 (proj1 (proj2 (proj2
    (ReInit_error_keeps_commit Sample.failingClient (Err "reinit failed") Sample.w1 []
       (fun _ => eq_refl)))) Sample.n1 eq_refl)).
Defined.

(** C10.  [discoveryWatcher.Init] registers the watcher with the broker
    whatever the implementation's [Init] returned ([err] below is that answer,
    an error included), and after that [Init] returned.  The broker then hands
    events to the watcher: a change of the [options] key, and any endpoint
    event that changes the directory, calls the implementation's [ReInit]. *)
Theorem Init_always_watches (k : nat) (rt : Client) (b : Broker) (t : Trace) :
  let w0 := {| c := k; options := Getenv b "options";
               endpoints := foldl (fun m ep => <[ID ep := ep]> m) ∅ (Endpoints b) |} in
  let h := EvNewOptions k (Getenv b "options") (Endpoints b) :: t in
  let err := cl_Init rt h in
  Watcher.Init k rt b t = ((err, Watch w0 b), EvWatch k :: EvClientInit k err :: h) /\
  watcher (Watch w0 b) = Some w0 /\
  (forall ev t1,
     match ev with
     | ConfigSet key _ | ConfigDelete key => key = "options"
     | EndpointUpdate endpoint => Watcher.unchanged endpoint w0 = false
     | EndpointDelete id => is_Some (endpoints w0 !! id)
     end ->
     count (is_reinit k) (snd (Watcher.deliver rt ev (Watch w0 b) t1)) =
       S (count (is_reinit k) t1)).
Proof.
  intros w0 h err. split; [reflexivity|]. split; [reflexivity|].
  intros ev t1 Hev. rewrite (deliver_trace rt ev (Watch w0 b) w0 t1 eq_refl).
  destruct ev as [key value|key|endpoint|id]; simpl Watcher.notify.
  - subst key. rewrite OnSetenv_options.
    apply (count_reinit_trace rt (Watcher.set_options value w0)).
  - subst key. rewrite OnDelenv_options.
    apply (count_reinit_trace rt (Watcher.set_options "" w0)).
  - rewrite (OnUpdateEndpoint_changed _ _ _ _ Hev).
    apply (count_reinit_trace rt (Watcher.set_endpoints _ w0)).
  - destruct Hev as [ep Hep]. rewrite (OnDeleteEndpoint_present _ _ _ _ _ Hep).
    apply (count_reinit_trace rt (Watcher.set_endpoints _ w0)).
Qed.

(** ** Every step of [Run] is one of the cases of [Step] *)

Lemma noise_nil : noise [].
Proof. constructor. Qed.

Lemma noise_cons e l : is_noise e = true -> noise l -> noise (e :: l).
Proof. by constructor. Qed.

#[local] Hint Resolve noise_nil noise_cons : core.

Lemma reinit_noise rt w t : exists new, noise new /\ Watcher.reinit_trace rt w t = new ++ t.
Proof.
  exists [EvClientReInit (c w) (cl_ReInit rt (EvNewOptions (c w) (options w) (Watcher.directory w) :: t));
          EvNewOptions (c w) (options w) (Watcher.directory w)].
  split; [auto | reflexivity].
Qed.

Lemma notify_noise rt ev w t :
  exists new, noise new /\ snd (Watcher.notify rt ev w t) = new ++ t.
Proof.
  assert (Hnil : exists new, noise new /\ t = new ++ t) by (exists []; auto).
  destruct ev as [key value|key|endpoint|id]; simpl.
  - unfold Watcher.OnSetenv. case_decide; [|done].
    apply (reinit_noise rt (Watcher.set_options value w)).
  - unfold Watcher.OnDelenv. case_decide; [|done].
    apply (reinit_noise rt (Watcher.set_options "" w)).
  - unfold Watcher.OnUpdateEndpoint. destruct (Watcher.unchanged endpoint w); [done|].
    apply (reinit_noise rt (Watcher.set_endpoints _ w)).
  - unfold Watcher.OnDeleteEndpoint. destruct (endpoints w !! id); [|done].
    apply (reinit_noise rt (Watcher.set_endpoints _ w)).
Qed.

Lemma deliver_noise rt ev b t :
  exists new, noise new /\ snd (Watcher.deliver rt ev b t) = new ++ t.
Proof.
  destruct (watcher b) as [w|] eqn:Hw.
  - rewrite (deliver_trace _ _ _ _ _ Hw). apply notify_noise.
  - unfold Watcher.deliver. rewrite Hw. exists []. auto.
Qed.

Lemma init_client_cases vol k cl t err ob t' :
  init_client vol k cl t = ((err, ob), t') ->
  (exists pre post, noise pre /\ noise post /\
     t' = pre ++ EvClientInit k err :: post ++ t) \/
  (exists e new, err = Some e /\ ob = None /\ noise new /\ t' = new ++ t).
Proof.
  unfold init_client, initBroker.
  destruct (client_options cl) as [srv|srv].
  - intros [= <- <- <-]. left. exists [], []. auto.
  - destruct (cluster vol) as [cl0|].
    + destruct (NewBroker cl0 srv) as [e|b].
      * intros [= <- <- <-]. right. exists e, [EvNewBroker k (Some e)]. auto.
      * intros [= <- <- <-]. left.
        exists [EvWatch k], [EvNewOptions k (Getenv b "options") (Endpoints b); EvNewBroker k None].
        auto.
    + intros [= <- <- <-]. right. exists (Err "invalid cluster"), []. auto.
Qed.

Lemma step_Step manifest vol s a s' :
  step manifest vol s a = Some s' -> Step manifest vol s s'.
Proof.
  destruct a as [| |k ev|j|j|j]; simpl.
  - unfold main_step. destruct (pc s) as [|k|j| | |k r|r] eqn:Hpc.
    + destruct (cluster vol) as [c0|] eqn:Hc; intros [= <-].
      * by apply (St_entry _ _ _ c0).
      * by apply St_entry_nil.
    + destruct (manifest !! k) as [cl|] eqn:Hk.
      * destruct (init_client vol k cl (trace s)) as [[err ob] t] eqn:Hi.
        destruct (init_client_cases _ _ _ _ _ _ _ Hi)
          as [(pre & post & Hpre & Hpost & ->)|(e & new & -> & -> & Hnew & ->)].
        -- intros Hs.
           assert (s' = init_next k err (with_broker k ob
                     (set_trace (pre ++ EvClientInit k err :: post ++ trace s) s))) as ->.
           { destruct err, ob; simpl in *; by inversion Hs. }
           by apply (St_init _ _ _ k cl).
        -- intros [= <-]. by apply (St_init_broker _ _ _ k cl).
      * intros [= <-]. by apply (St_init_end _ _ _ k).
    + destruct (services vol !! j) as [sv|] eqn:Hj.
      * unfold call.
        change (if decide (addr sv = "") then s
                else log (EvNewReporter j) (set_reporters ({[j]} ∪ reporters s) s))
          with (acquire_reporter j sv s).
        destruct (sv_Init (service_rt sv) (trace (acquire_reporter j sv s))) as [e|] eqn:He;
          intros [= <-].
        -- by apply St_prepare_fail.
        -- by apply (St_prepare manifest vol s j sv).
      * intros [= <-]. by apply (St_prepare_end _ _ _ j).
    + intros [= <-]. by apply St_gogo.
    + case_decide; [|done]. intros [= <-]. by apply St_wait.
    + destruct (vol_clients s !! k) as [i|] eqn:Hk; intros [= <-].
      * by apply St_shutdown.
      * by apply (St_return _ _ _ k).
    + done.
  - intros [= <-]. apply St_cancel.
  - unfold deliver_step. destruct (brokers s !! k) as [b|]; [|done].
    destruct (manifest !! k) as [cl|]; [|done].
    destruct (deliver_noise (client_rt cl) ev b (trace s)) as (new & Hnew & Heq).
    destruct (Watcher.deliver (client_rt cl) ev b (trace s)) as [b' t]. simpl in Heq. subst t.
    intros [= <-]. by apply St_deliver.
  - unfold task_done. destruct (tasks s !! j) as [[]|] eqn:Hj; try done.
    destruct (ctx_done s) eqn:Hd; [|done]. intros [= <-]. by apply St_task_done.
  - unfold task_go. destruct (tasks s !! j) as [[]|] eqn:Hj; try done.
    destruct (signal s) eqn:Hd; [|done]. intros [= <-]. by apply St_task_go.
  - unfold task_step. destruct (tasks s !! j) as [[| |d|d|d|]|] eqn:Hj; try done.
    + destruct (services vol !! j) as [sv|] eqn:Hsv; [|done].
      case_decide; intros [= <-].
      * by apply St_task_keepalive.
      * by apply (St_task_quiet _ _ _ j sv).
    + intros [= <-]. by apply St_task_call.
    + intros [= <-]. by apply St_task_return.
    + intros [= <-]. by apply (St_task_exit manifest vol s j d).
Qed.

(** ** The invariant holds in every reachable state *)

Lemma denoise_noise l t : noise l -> denoise (l ++ t) = denoise t.
Proof.
  induction 1 as [|e l He _ IH]; simpl; [done|]. by rewrite He.
Qed.

Lemma denoise_around pre post e t :
  noise pre -> noise post -> is_noise e = false ->
  denoise (pre ++ e :: post ++ t) = e :: denoise t.
Proof.
  intros Hpre Hpost He. rewrite (denoise_noise _ _ Hpre). simpl. rewrite He.
  by rewrite (denoise_noise _ _ Hpost).
Qed.

Lemma seq_snoc k : seq 0 (S k) = seq 0 k ++ [k].
Proof. by rewrite seq_S. Qed.

Lemma lookup_seq_0 c k i : seq 0 c !! k = Some i -> i = k /\ k < c.
Proof. intros H. apply lookup_seq in H. lia. Qed.

Lemma count_implies (p q : Event -> bool) (t : Trace) :
  (forall e, p e = true -> q e = true) -> count q t = 0 -> count p t = 0.
Proof.
  intros Hpq. induction t as [|e t IH]; simpl; [done|].
  destruct (p e) eqn:Hp; [rewrite (Hpq _ Hp); lia | destruct (q e); lia].
Qed.

#[local] Arguments seq : simpl never.
#[local] Arguments rev : simpl never.
#[local] Arguments task_ok : simpl never.

Ltac expose :=
  repeat match goal with
  | |- context [init_next _ ?err _] => destruct err; unfold init_next
  | |- context [with_broker _ ?ob _] => destruct ob; unfold with_broker
  | |- context [acquire_reporter _ _ _] => unfold acquire_reporter; case_decide
  | |- context [if ?d then log _ _ else _] => destruct d
  end.

Ltac step_cases HS :=
  destruct HS as
    [ Hpc Hcl | cl Hpc Hcl | k Hpc Hk | k cl e new Hpc Hk Hnew
    | k cl err ob pre post Hpc Hk Hpre Hpost
    | j Hpc Hj | j sv e Hpc Hj | j sv Hpc Hj | Hpc | Hpc Hwg
    | k r i Hpc Hk | k r Hpc Hk | | k b' new Hnew
    | j Hj Hdone | j Hj Hsig | j sv Hj Hsv Hrep | j sv Hj Hsv Hrep
    | j d Hj | j d Hj | j d Hj ];
  expose; simpl;
  rewrite ?denoise_around, ?denoise_noise by done; simpl.

Ltac peel Hin :=
  repeat (apply elem_of_cons in Hin; destruct Hin as [Hin|Hin]; [simplify_eq|]).

(** Membership in the set of services that hold a reporter. *)
Ltac rep_solver :=
  unfold not in *;
  rewrite ?elem_of_union, ?elem_of_singleton in *;
  intuition (try lia; try congruence).

Ltac cnt := simpl; repeat case_bool_decide; subst; simpl; try lia; try done.

Section Preserve.
Variable manifest : list client.
Variable vol : Voltron.
#[local] Abbreviation Inv := (Inv manifest vol).
#[local] Abbreviation Step := (Step manifest vol).
#[local] Abbreviation prepared_upto := (prepared_upto vol).
#[local] Abbreviation reports := (reports vol).
#[local] Abbreviation task_ok := (task_ok vol).

Lemma pres_clients s s' : Inv s -> Step s s' ->
  vol_clients s' = seq 0 (length (vol_clients s')) /\
  length (vol_clients s') <= length manifest.
Proof.
  intros HI HS. pose proof (inv_clients _ _ _ HI) as H1.
  pose proof (inv_clients_le _ _ _ HI) as H2.
  pose proof (inv_init_pc _ _ _ HI) as H3.
  step_cases HS; try done.
  all: destruct (H3 _ Hpc) as [-> _];
    rewrite length_app; simpl; rewrite Nat.add_1_r, seq_snoc, <- H1; split; [done|];
    apply lookup_lt_Some in Hk; lia.
Qed.

Lemma pres_init_counts s s' : Inv s -> Step s s' ->
  (forall k, k < length (vol_clients s') -> count (is_client_init k) (denoise (trace s')) = 1) /\
  (forall k, length (vol_clients s') < k -> count (is_client_init k) (denoise (trace s')) = 0) /\
  count (is_client_init (length (vol_clients s'))) (denoise (trace s')) <= 1 /\
  (forall k, pc s' = PcInit k ->
     k = length (vol_clients s') /\ count (is_client_init k) (denoise (trace s')) = 0) /\
  (pc s' = PcEntry -> vol_clients s' = [] /\ count (is_client_init 0) (denoise (trace s')) = 0).
Proof.
  intros HI HS.
  pose proof (inv_init_lt _ _ _ HI) as H1.
  pose proof (inv_init_gt _ _ _ HI) as H2.
  pose proof (inv_init_eq _ _ _ HI) as H3.
  pose proof (inv_init_pc _ _ _ HI) as H4.
  pose proof (inv_entry _ _ _ HI) as H5.
  step_cases HS.
  all: try (destruct (H4 _ Hpc) as [-> H6]).
  all: try (destruct (H5 Hpc) as [H7 H8]; rewrite ?H7 in *; simpl in * ).
  all: try rewrite length_app; simpl.
  all: repeat split; try done; try intros k'; try intros.
  all: try (rewrite Hpc in *; simplify_eq).
  all: try solve [cnt; eauto with lia].
  all: try solve [cnt; rewrite ?H1, ?H2 by lia; lia].
  all: try solve [apply H4; done].
  all: try solve [cnt; apply H5; done].
Qed.

Lemma pres_phase1 s s' : Inv s -> Step s s' ->
  (in_phase1 s' = true ->
    tasks s' = ∅ /\ count is_service_event (denoise (trace s')) = 0 /\
    shutdown_ids (denoise (trace s')) = [] /\ signal s' = false /\ reporters s' = ∅ /\
    ctx_run s' = false) /\
  (in_phase1 s' = false -> length (vol_clients s') = length manifest) /\
  (forall r, pc s' = PcReturned r -> in_phase1 s' = true ->
    length (vol_clients s') = 0 \/ length (vol_clients s') < length manifest).
Proof.
  intros HI HS.
  pose proof (inv_phase1 _ _ _ HI) as H1.
  pose proof (inv_phase2 _ _ _ HI) as H2.
  pose proof (inv_ret1 _ _ _ HI) as H3.
  pose proof (inv_init_pc _ _ _ HI) as H4.
  pose proof (inv_entry _ _ _ HI) as H5.
  pose proof (inv_clients_le _ _ _ HI) as H6.
  pose proof (inv_shutdown _ _ _ HI) as H7.
  step_cases HS.
  all: unfold in_phase1 in *; simpl.
  all: try (rewrite Hpc in *; simpl in * ).
  all: try (destruct (H1 eq_refl) as (T1 & T2 & T3 & T4 & T5 & T6)).
  all: try (destruct (H4 _ eq_refl) as [-> H8]).
  all: try (destruct (H5 eq_refl) as [H9 H10]; rewrite ?H9 in * ).
  all: repeat split; try done; try intros.
  all: try solve [rewrite ?T6 in *; done].
  all: try solve [ match goal with Hj : tasks _ !! _ = Some _, H : _ = true |- _ =>
                     destruct (H1 H) as (T1 & _); rewrite T1 in Hj; done end ].
  all: try solve [ first [apply H1 | apply H2 | eapply H3]; eauto ].
  all: try solve [ apply lookup_lt_Some in Hk; lia ].
  all: try solve [ apply lookup_ge_None in Hk; lia ].
  all: try solve [ destruct H7 as (_ & _ & Hrun); rewrite Hrun in *; done ].
  all: try solve [ left; done ].
Qed.

Lemma pres_init_ok s s' : Inv s -> Step s s' ->
  (forall k, EvClientInit k None ∈ denoise (trace s') -> k < length (vol_clients s')) /\
  (forall k e, EvClientInit k (Some e) ∈ denoise (trace s') ->
    pc s' = PcReturned (Some e) /\ in_phase1 s' = true /\ k = length (vol_clients s')).
Proof.
  intros HI HS.
  pose proof (inv_init_ok _ _ _ HI) as H1.
  pose proof (inv_fail _ _ _ HI) as H2.
  pose proof (inv_phase1 _ _ _ HI) as H3.
  pose proof (inv_init_pc _ _ _ HI) as H4.
  step_cases HS.
  all: unfold in_phase1 in *; simpl.
  all: try (rewrite Hpc in *; simpl in * ).
  all: try (destruct (H3 eq_refl) as (T1 & T2 & T3 & T4 & T5 & T6)).
  all: try (destruct (H4 _ eq_refl) as [-> H8]).
  all: split; [intros k0 Hin | intros k0 e0 Hin].
  all: peel Hin.
  all: try solve [ eauto ].
  all: try solve [ apply H1 in Hin; rewrite ?length_app; simpl; lia ].
  all: try solve [ destruct (H2 _ _ Hin) as (? & ? & ?); done ].
  all: try solve [ rewrite length_app; simpl; lia ].
  all: try solve [ rewrite T6; done ].
Qed.

Lemma pres_shutdown s s' : Inv s -> Step s s' ->
  match pc s' with
  | PcShutdown k r =>
      shutdown_ids (denoise (trace s')) = rev (seq 0 k) /\ k <= length (vol_clients s') /\
      ctx_run s' = true
  | PcReturned _ =>
      in_phase1 s' = false ->
      shutdown_ids (denoise (trace s')) = rev (seq 0 (length manifest))
  | _ => shutdown_ids (denoise (trace s')) = []
  end.
Proof.
  intros HI HS.
  pose proof (inv_shutdown _ _ _ HI) as H1.
  pose proof (inv_clients _ _ _ HI) as H2.
  pose proof (inv_phase2 _ _ _ HI) as H3.
  pose proof (inv_phase1 _ _ _ HI) as H4.
  step_cases HS.
  all: unfold in_phase1 in *; simpl.
  all: try (rewrite Hpc in *; simpl in * ).
  all: try solve [ destruct (pc s); tauto ].
  all: try solve [ destruct (H4 eq_refl) as (T1 & T2 & T3 & T4 & T5 & T6);
                   rewrite ?T6; done ].
  all: try solve [ repeat split; (done || lia) ].
  - rewrite H2 in Hk. apply lookup_seq_0 in Hk as [-> Hlt].
    destruct H1 as (-> & ? & ?). rewrite seq_snoc, rev_app_distr. simpl.
    repeat split; (done || lia).
  - destruct H1 as (-> & ? & ?). intros _. apply lookup_ge_None in Hk.
    rewrite <- (H3 eq_refl). f_equal. f_equal. lia.
Qed.

Lemma pres_signal s s' : Inv s -> Step s s' ->
  signal s' = released (pc s') /\
  count is_release (denoise (trace s')) = Nat.b2n (signal s') /\
  (forall j, j < prepared_upto s' -> EvPrepared j ∈ denoise (trace s')).
Proof.
  intros HI HS.
  pose proof (inv_signal _ _ _ HI) as H1.
  pose proof (inv_release _ _ _ HI) as H2.
  pose proof (inv_prepared _ _ _ HI) as H3.
  step_cases HS.
  all: unfold prepared_upto in *; simpl.
  all: try (rewrite Hpc in *; simpl in * ).
  all: try (rewrite H1 in *; simpl in * ).
  all: repeat split; try done; try lia; try intros j0 Hlt.
  all: rewrite ?elem_of_cons.
  all: try solve [ eauto 6 ].
  all: try solve [ destruct r as [|]; simpl in *; eauto; lia ].
  all: try solve [ apply H3; apply lookup_ge_None in Hj; lia ].
  all: try solve [ destruct (decide (j0 = j)) as [->|]; [by left | right; eauto with lia] ].
Qed.

Lemma reports_Some j sv : services vol !! j = Some sv ->
  reports j = bool_decide (addr sv <> "").
Proof. unfold reports. by intros ->. Qed.

Lemma phase1_fresh s j : Inv s -> in_phase1 s = true ->
  tasks s !! j = None /\ (j ∉ reporters s) /\
  count (is_new_reporter j) (denoise (trace s)) = 0 /\
  count (is_svc_init j) (denoise (trace s)) = 0.
Proof.
  intros HI Hp. destruct (inv_phase1 _ _ _ HI Hp) as (T1 & T2 & T3 & T4 & T5 & T6).
  rewrite T1, T5. split; [apply lookup_empty|]. split; [apply not_elem_of_empty|].
  split; (eapply count_implies; [|exact T2]); by intros [].
Qed.

Lemma pres_fresh s s' : Inv s -> Step s s' ->
  (forall j0 j, pc s' = PcPrepare j0 -> j0 <= j ->
    tasks s' !! j = None /\ (j ∉ reporters s') /\
    count (is_new_reporter j) (denoise (trace s')) = 0 /\
    count (is_svc_init j) (denoise (trace s')) = 0) /\
  (forall j, count (is_new_reporter j) (denoise (trace s')) <= 1).
Proof.
  intros HI HS.
  pose proof (inv_fresh _ _ _ HI) as H1.
  pose proof (inv_newrep _ _ _ HI) as H2.
  pose proof (phase1_fresh s) as H3.
  step_cases HS.
  all: split; [intros j0 j1 Hpc' Hle | intros j1].
  all: try (rewrite Hpc in *; simplify_eq).
  all: try solve [ apply H2 ].
  all: try solve [ apply H3; [done | unfold in_phase1; by rewrite Hpc ] ].
  all: try solve [ destruct (H1 _ j1 Hpc' Hle) as (F1 & F2 & F3 & F4);
                   rewrite ?lookup_insert_ne by congruence; done ].
  all: try solve [ destruct (H1 _ j1 eq_refl ltac:(lia)) as (F1 & F2 & F3 & F4);
                   rewrite ?lookup_insert_ne by lia;
                   repeat split; [done | rep_solver | cnt..] ].
  all: try solve [ destruct (H1 _ j eq_refl ltac:(lia)) as (F1 & F2 & F3 & F4);
                   pose proof (H2 j1); cnt ].
Qed.

Lemma pres_task s s' : Inv s -> Step s s' ->
  forall j p, tasks s' !! j = Some p ->
    (j ∈ reporters s' <-> reports j = true) /\
    count (is_new_reporter j) (denoise (trace s')) = Nat.b2n (reports j).
Proof.
  intros HI HS.
  pose proof (inv_task _ _ _ HI) as H1.
  pose proof (inv_fresh _ _ _ HI) as H2.
  step_cases HS.
  all: intros j1 p1 Hp1.
  all: try solve [ eapply H1; eauto ].
  all: try solve [ cnt; eapply H1; eauto ].
  all: try (destruct (decide (j1 = j)) as [->|Hne];
            [| rewrite lookup_insert_ne in Hp1 by done ]).
  all: try solve [ cnt; eapply H1; eauto ].
  all: try solve [ destruct (H1 _ _ Hp1) as [F1 F2]; cnt; split; [rep_solver | done] ].
  all: try (destruct (H2 _ j Hpc ltac:(lia)) as (F1 & F2 & F3 & F4);
            rewrite (reports_Some _ _ Hj)).
  all: try solve [ destruct (H2 _ j Hpc ltac:(lia)) as (F1 & _);
                   assert (j1 <> j) by congruence;
                   destruct (H1 _ _ Hp1) as [G1 G2]; cnt; split; [rep_solver | done] ].
  all: try solve [ cnt; split; [rep_solver|done] ].
  all: try solve [ rewrite bool_decide_eq_false_2 by (by intros ?); simpl;
                   split; [split; [done|done] | done] ].
  all: try solve [ rewrite bool_decide_eq_true_2 by done; cnt;
                   split; [split; [done|rep_solver] | lia] ].
Qed.

Lemma task_ok_mono sig sig' t t' j o :
  count (is_keepalive j) t' = count (is_keepalive j) t ->
  count (is_svc_run j) t' = count (is_svc_run j) t ->
  count (is_svc_run_return j) t' = count (is_svc_run_return j) t ->
  count (is_reporter_close j) t' = count (is_reporter_close j) t ->
  (sig = true -> sig' = true) ->
  task_ok sig t j o -> task_ok sig' t' j o.
Proof.
  unfold task_ok. intros -> -> -> -> Hs.
  destruct o as [[]|]; intuition.
Qed.

Lemma pres_task_counts s s' : Inv s -> Step s s' ->
  forall j, task_ok (signal s') (denoise (trace s')) j (tasks s' !! j).
Proof.
  intros HI HS.
  pose proof (inv_task_counts _ _ _ HI) as H1.
  pose proof (inv_task _ _ _ HI) as H2.
  pose proof (inv_fresh _ _ _ HI) as H3.
  step_cases HS.
  all: intros j1.
  all: try solve [ eapply task_ok_mono; [cnt..| idtac | apply H1]; done ].
  all: try (destruct (decide (j1 = j)) as [->|Hne];
            [ rewrite lookup_insert_eq | rewrite lookup_insert_ne by done ]).
  all: try solve [ eapply task_ok_mono; [cnt..| idtac | apply H1]; done ].
  all: try (specialize (H1 j); rewrite ?Hj in H1).
  all: try (destruct (H3 _ j Hpc ltac:(lia)) as (F1 & _); rewrite F1 in H1).
  all: try (destruct (H2 _ _ Hj) as [G1 G2]).
  all: unfold task_ok in *; simpl in *.
  all: rewrite ?bool_decide_eq_true_2 by done.
  all: try solve [ intuition (subst; simpl in *; try lia; try congruence) ].
  all: try solve [ destruct (reports j) eqn:Hr; simpl in *;
                   intuition (subst; simpl in *; try lia; try congruence) ].
Qed.

Lemma pres_keepalive_args s s' : Inv s -> Step s s' ->
  forall j a w l, EvKeepalive j a w l ∈ denoise (trace s') ->
    exists sv, services vol !! j = Some sv /\ a = addr sv /\ w = weight sv /\ l = ttl sv.
Proof.
  intros HI HS.
  pose proof (inv_keepalive_args _ _ _ HI) as H1.
  step_cases HS.
  all: intros j1 a w l Hin; peel Hin; eauto.
Qed.

Lemma release_in t : 0 < count is_release t -> EvRelease ∈ t.
Proof.
  induction t as [|e t IH]; simpl; [lia|].
  destruct e; simpl; intros; rewrite elem_of_cons; auto.
Qed.

Lemma signal_prepared s : Inv s -> signal s = true ->
  EvRelease ∈ denoise (trace s) /\
  forall j, j < length (services vol) -> EvPrepared j ∈ denoise (trace s).
Proof.
  intros HI Hs. split.
  - apply release_in. rewrite (inv_release _ _ _ HI), Hs. simpl. lia.
  - intros j Hj. apply (inv_prepared _ _ _ HI). unfold prepared_upto.
    pose proof (inv_signal _ _ _ HI) as H. rewrite Hs in H.
    destruct (pc s); simpl in *; try done; by rewrite Hs.
Qed.

Lemma task_phase2 s j p : Inv s -> tasks s !! j = Some p ->
  forall k, k < length manifest -> count (is_client_init k) (denoise (trace s)) = 1.
Proof.
  intros HI Hj k Hk. apply (inv_init_lt _ _ _ HI).
  rewrite (inv_phase2 _ _ _ HI); [done|].
  destruct (in_phase1 s) eqn:Hp; [|done].
  destruct (inv_phase1 _ _ _ HI Hp) as (T1 & _). by rewrite T1 in Hj.
Qed.

Lemma pres_h_main s s' : Inv s -> Step s s' ->
  hist_all is_release
    (fun h => forall j, j < length (services vol) -> EvPrepared j ∈ h)
    (denoise (trace s')) /\
  hist_all is_any_svc_run
    (fun h => EvRelease ∈ h /\
              (forall j, j < length (services vol) -> EvPrepared j ∈ h) /\
              (forall k, k < length manifest -> count (is_client_init k) h = 1))
    (denoise (trace s')) /\
  hist_all is_any_client_init (fun h => count is_service_event h = 0)
    (denoise (trace s')).
Proof.
  intros HI HS.
  pose proof (inv_h_release _ _ _ HI) as H1.
  pose proof (inv_h_run _ _ _ HI) as H2.
  pose proof (inv_h_init _ _ _ HI) as H3.
  pose proof (inv_prepared _ _ _ HI) as H4.
  pose proof (inv_phase1 _ _ _ HI) as H5.
  pose proof (inv_task_counts _ _ _ HI) as H6.
  pose proof (signal_prepared s HI) as H7.
  pose proof (task_phase2 s) as H8.
  step_cases HS.
  all: repeat split; try done.
  all: try solve [ apply H5; unfold in_phase1; by rewrite Hpc ].
  all: try solve [ intros j0 Hj0; apply H4; unfold prepared_upto;
                   by rewrite Hpc ].
  all: try solve [ eapply H8; eauto ].
  all: try solve [ specialize (H6 j); rewrite Hj in H6; destruct H6 as (Hs & _);
                   apply (H7 Hs) ].
Qed.

Lemma pres_h_tasks s s' : Inv s -> Step s s' ->
  forall j,
  hist_all (is_new_reporter j)
    (fun h => count is_release h = 0 /\ count (is_svc_init j) h = 0)
    (denoise (trace s')) /\
  hist_all (is_svc_run j)
    (fun h => count (is_keepalive j) h = Nat.b2n (reports j) /\
              count (is_new_reporter j) h = Nat.b2n (reports j))
    (denoise (trace s')) /\
  hist_all (is_keepalive j)
    (fun h => EvRelease ∈ h /\ count (is_svc_run j) h = 0) (denoise (trace s')) /\
  hist_all (is_reporter_close j)
    (fun h => count (is_svc_run_return j) h = 1 /\ count (is_keepalive j) h = 1)
    (denoise (trace s')).
Proof.
  intros HI HS j1.
  pose proof (inv_h_newrep _ _ _ HI j1) as H1.
  pose proof (inv_h_run_j _ _ _ HI j1) as H2.
  pose proof (inv_h_keepalive _ _ _ HI j1) as H3.
  pose proof (inv_h_close _ _ _ HI j1) as H4.
  pose proof (inv_fresh _ _ _ HI) as H5.
  pose proof (inv_task_counts _ _ _ HI) as H6.
  pose proof (inv_task _ _ _ HI) as H7.
  pose proof (signal_prepared s HI) as H8.
  pose proof (inv_signal _ _ _ HI) as H9.
  pose proof (inv_release _ _ _ HI) as H10.
  step_cases HS.
  all: repeat split; try done.
  all: try (case_bool_decide; [subst|done]).
  all: try (specialize (H6 j1); rewrite Hj in H6; unfold task_ok in H6).
  all: try (destruct (H7 _ _ Hj) as [G1 G2]).
  all: try solve [ rewrite H10, H9, Hpc; done ].
  all: try solve [ apply (H5 _ j1 Hpc); lia ].
  all: try solve [ intuition (subst; simpl in *; try lia; try congruence) ].
  all: try solve [ split; [rewrite H10, H9, Hpc; done | apply (H5 _ j1 Hpc); lia] ].
Qed.

Lemma Inv_New : Inv New.
Proof.
  constructor; simpl; try done; try lia.
  - intros k Hk. by apply elem_of_nil in Hk.
  - intros k e Hk. by apply elem_of_nil in Hk.
  - intros j. unfold prepared_upto. simpl. lia.
  - intros j a w l Hk. by apply elem_of_nil in Hk.
Qed.

Lemma Inv_Step s s' : Inv s -> Step s s' -> Inv s'.
Proof.
  intros HI HS.
  destruct (pres_clients _ _ HI HS) as [A1 A2].
  destruct (pres_init_counts _ _ HI HS) as (B1 & B2 & B3 & B4 & B5).
  destruct (pres_phase1 _ _ HI HS) as (C1 & C2 & C3).
  destruct (pres_init_ok _ _ HI HS) as [D1 D2].
  pose proof (pres_shutdown _ _ HI HS) as E1.
  destruct (pres_signal _ _ HI HS) as (F1 & F2 & F3).
  destruct (pres_fresh _ _ HI HS) as [G1 G2].
  pose proof (pres_task _ _ HI HS) as I1.
  pose proof (pres_task_counts _ _ HI HS) as J1.
  pose proof (pres_keepalive_args _ _ HI HS) as K1.
  destruct (pres_h_main _ _ HI HS) as (L1 & L2 & L3).
  pose proof (pres_h_tasks _ _ HI HS) as M1.
  constructor; try done; intros j; apply M1.
Qed.

Lemma Inv_exec sched s : Inv s -> Inv (exec manifest vol sched s).
Proof.
  revert s. induction sched as [|a sched IH]; intros s HI; simpl; [done|].
  apply IH. destruct (step manifest vol s a) as [s'|] eqn:Hs; simpl; [|done].
  eapply Inv_Step; [done|]. by eapply step_Step.
Qed.

Lemma Inv_reachable sched : Inv (exec manifest vol sched New).
Proof. apply Inv_exec, Inv_New. Qed.
End Preserve.

(** ** When nothing fails the caller reaches the barrier *)

Section Progress.
Variable manifest : list client.
Variable vol : Voltron.
Hypothesis Hok : all_succeed manifest vol.

#[local] Abbreviation n := (length manifest).
#[local] Abbreviation m := (length (services vol)).

Lemma init_client_ok k cl t :
  manifest !! k = Some cl -> exists ob t', init_client vol k cl t = ((None, ob), t').
Proof.
  intros Hk. destruct Hok as ((c0 & Hc & Hb) & Hi & _).
  assert (Hin : cl ∈ manifest) by (apply list_elem_of_lookup; eauto).
  unfold init_client, initBroker, call.
  destruct (client_options cl) as [srv|srv] eqn:Ho.
  - simpl. unfold mbind, M_bind, mret, M_ret. rewrite (Hi cl t Hin). eauto.
  - rewrite Hc. destruct (Hb cl srv Hin Ho) as [b ->].
    unfold Watcher.Init, call, emit, mbind, M_bind, mret, M_ret. simpl.
    rewrite (Hi cl _ Hin). eauto.
Qed.

Lemma main_step_progress s :
  on_track n m (pc s) -> main_pos n m (pc s) < 4 + n + m ->
  exists s', main_step manifest vol s = Some s' /\
             on_track n m (pc s') /\ main_pos n m (pc s') = S (main_pos n m (pc s)).
Proof.
  intros Ht Hp. unfold main_step.
  destruct (pc s) as [|k|j| | |k r|r] eqn:Hpc; simpl in *; try lia.
  - destruct Hok as ((c0 & -> & _) & _). eexists; split; [done|]. simpl. split; lia.
  - destruct (manifest !! k) as [cl|] eqn:Hk.
    + destruct (init_client_ok k cl (trace s) Hk) as (ob & t' & ->).
      apply lookup_lt_Some in Hk. eexists; split; [done|]. simpl. split; lia.
    + apply lookup_ge_None in Hk. eexists; split; [done|]. simpl. split; lia.
  - destruct (services vol !! j) as [sv|] eqn:Hj.
    + destruct Hok as (_ & _ & Hs).
      assert (Hin : sv ∈ services vol) by (apply list_elem_of_lookup; eauto).
      unfold call. rewrite (Hs sv _ Hin).
      apply lookup_lt_Some in Hj. eexists; split; [done|]. simpl. split; lia.
    + apply lookup_ge_None in Hj. eexists; split; [done|]. simpl. split; lia.
  - eexists; split; [done|]. simpl. split; [done|lia].
Qed.

Lemma main_step_on_track s s' :
  on_track n m (pc s) -> main_step manifest vol s = Some s' ->
  on_track n m (pc s') /\ main_pos n m (pc s) <= main_pos n m (pc s').
Proof.
  intros Ht Hs.
  destruct (decide (main_pos n m (pc s) < 4 + n + m)) as [Hp|Hp].
  - destruct (main_step_progress s Ht Hp) as (s'' & Hs'' & H1 & H2).
    rewrite Hs in Hs''. simplify_eq. split; [done|lia].
  - unfold main_step in Hs.
    destruct (pc s) as [|k|j| | |k r|r] eqn:Hpc; simpl in *; try lia.
    + case_decide; [|done]. simplify_eq. simpl. split; [done|lia].
    + destruct (vol_clients s !! k); simplify_eq; simpl; split; (done || lia).
    + done.
Qed.

Lemma other_step_pc s a s' :
  a <> AMain -> step manifest vol s a = Some s' -> pc s' = pc s.
Proof.
  destruct a as [| |k ev|j|j|j]; simpl; try done; intros _.
  - by intros [= <-].
  - unfold deliver_step. destruct (brokers s !! k); [|done].
    destruct (manifest !! k); [|done].
    destruct (Watcher.deliver _ _ _ _). by intros [= <-].
  - unfold task_done. destruct (tasks s !! j) as [[]|]; try done.
    destruct (ctx_done s); [|done]. by intros [= <-].
  - unfold task_go. destruct (tasks s !! j) as [[]|]; try done.
    destruct (signal s); [|done]. by intros [= <-].
  - unfold task_step. destruct (tasks s !! j) as [[| |d|d|d|]|]; try done.
    + destruct (services vol !! j); [|done]. case_decide; by intros [= <-].
    + by intros [= <-].
    + by intros [= <-].
    + destruct d; by intros [= <-].
Qed.

(** A watcher's handler, whatever [ReInit] answered, leaves the orchestrator
    as it was. *)
Lemma deliver_step_frame s k ev s' :
  deliver_step manifest k ev s = Some s' ->
  pc s' = pc s /\ tasks s' = tasks s /\ vol_clients s' = vol_clients s /\
  signal s' = signal s /\ wg s' = wg s /\ ctx_done s' = ctx_done s.
Proof.
  unfold deliver_step. destruct (brokers s !! k); [|done].
  destruct (manifest !! k); [|done].
  destruct (Watcher.deliver _ _ _ _). by intros [= <-].
Qed.

Lemma exec_progress sched s :
  on_track n m (pc s) ->
  let s' := exec manifest vol sched s in
  on_track n m (pc s') /\
  Nat.min (main_pos n m (pc s) + main_steps sched) (4 + n + m) <= main_pos n m (pc s').
Proof.
  revert s. induction sched as [|a sched IH]; intros s Ht; cbv zeta.
  - simpl. split; [done|]. destruct (pc s); simpl; lia.
  - change (exec manifest vol (a :: sched) s)
      with (exec manifest vol sched (default s (step manifest vol s a))).
    assert (Hcase : a = AMain \/ a <> AMain) by (destruct a; auto).
    destruct Hcase as [->|Ha].
    + change (main_steps (AMain :: sched)) with (S (main_steps sched)).
      change (step manifest vol s AMain) with (main_step manifest vol s).
      destruct (main_step manifest vol s) as [s1|] eqn:Hs; simpl default.
      * destruct (main_step_on_track _ _ Ht Hs) as [Ht1 Hle].
        destruct (IH s1 Ht1) as [H1 H2]. split; [done|].
        destruct (decide (main_pos n m (pc s) < 4 + n + m)) as [Hp|Hp].
        -- destruct (main_step_progress s Ht Hp) as (s'' & Hs'' & _ & H3).
           rewrite Hs in Hs''. simplify_eq. lia.
        -- lia.
      * destruct (IH s Ht) as [H1 H2]. split; [done|].
        destruct (decide (main_pos n m (pc s) < 4 + n + m)) as [Hp|Hp]; [|lia].
        destruct (main_step_progress s Ht Hp) as (s'' & Hs'' & _). congruence.
    + replace (main_steps (a :: sched)) with (main_steps sched) by (by destruct a).
      destruct (step manifest vol s a) as [s1|] eqn:Hs; simpl default.
      * pose proof (other_step_pc _ _ _ Ha Hs) as Hpc.
        destruct (IH s1) as [H1 H2]; [by rewrite Hpc|]. rewrite Hpc in H2. done.
      * by apply IH.
Qed.

Lemma exec_past_gogo sched :
  4 + n + m <= main_steps sched ->
  released (pc (exec manifest vol sched New)) = true.
Proof.
  intros Hq. destruct (exec_progress sched New I) as [Ht Hp].
  change (main_pos n m (pc New)) with 0 in Hp.
  destruct (pc (exec manifest vol sched New)) as [|k|j| | |k r|r];
    unfold main_pos, on_track in *; try lia; try (subst r); reflexivity.
Qed.
End Progress.

(** ** From the trace without noise back to the trace *)


Lemma count_denoise p t : quiet p -> count p (denoise t) = count p t.
Proof.
  intros Hq. induction t as [|e t IH]; simpl; [done|].
  destruct (is_noise e) eqn:He; simpl; [by rewrite (Hq _ He) | by rewrite IH].
Qed.

Lemma elem_of_denoise e t : is_noise e = false -> e ∈ denoise t <-> e ∈ t.
Proof.
  intros He. induction t as [|e' t IH]; simpl; [done|].
  destruct (is_noise e') eqn:He'; rewrite ?elem_of_cons, IH; [|done].
  split; [auto|]. intros [->|]; [congruence | done].
Qed.

Lemma shutdown_ids_denoise t : shutdown_ids (denoise t) = shutdown_ids t.
Proof.
  induction t as [|e t IH]; simpl; [done|].
  destruct e; simpl; by rewrite ?IH.
Qed.

Lemma hist_all_denoise q (R R' : Trace -> Prop) t :
  quiet q -> (forall h, R (denoise h) -> R' h) ->
  hist_all q R (denoise t) -> hist_all q R' t.
Proof.
  intros Hq HR. induction t as [|e t IH]; simpl; [done|].
  destruct (is_noise e) eqn:He; simpl.
  - rewrite (Hq _ He). auto.
  - intros [H1 H2]. split; [destruct (q e); auto | auto].
Qed.

Lemma hist_all_suffix q (R R' : Trace -> Prop) t :
  (forall newer h, t = newer ++ h -> R h -> R' h) ->
  hist_all q R t -> hist_all q R' t.
Proof.
  induction t as [|e t IH]; simpl; [done|].
  intros HR [H1 H2]. split.
  - destruct (q e); [|done]. by apply (HR [e]).
  - apply IH; [|done]. intros newer h -> Hh. by apply (HR (e :: newer)).
Qed.

Lemma quiet_client_init k : quiet (is_client_init k).
Proof. by intros []. Qed.
Lemma quiet_any_client_init : quiet is_any_client_init.
Proof. by intros []. Qed.
Lemma quiet_service_event : quiet is_service_event.
Proof. by intros []. Qed.
Lemma quiet_release : quiet is_release.
Proof. by intros []. Qed.
Lemma quiet_any_svc_run : quiet is_any_svc_run.
Proof. by intros []. Qed.
Lemma quiet_svc_run j : quiet (is_svc_run j).
Proof. by intros []. Qed.
Lemma quiet_svc_run_return j : quiet (is_svc_run_return j).
Proof. by intros []. Qed.
Lemma quiet_svc_init j : quiet (is_svc_init j).
Proof. by intros []. Qed.
Lemma quiet_new_reporter j : quiet (is_new_reporter j).
Proof. by intros []. Qed.
Lemma quiet_keepalive j : quiet (is_keepalive j).
Proof. by intros []. Qed.
Lemma quiet_reporter_close j : quiet (is_reporter_close j).
Proof. by intros []. Qed.

#[local] Hint Resolve quiet_client_init quiet_any_client_init quiet_service_event
  quiet_release quiet_any_svc_run quiet_svc_run quiet_svc_run_return quiet_svc_init
  quiet_new_reporter quiet_keepalive quiet_reporter_close : core.

Lemma count_init_le_1 manifest vol sched k :
  count (is_client_init k) (trace (exec manifest vol sched New)) <= 1.
Proof.
  pose proof (Inv_reachable manifest vol sched) as HI.
  rewrite <- count_denoise by auto. set (s := exec manifest vol sched New) in *.
  destruct (lt_eq_lt_dec k (length (vol_clients s))) as [[Hlt | ->] | Hgt].
  - rewrite (inv_init_lt _ _ _ HI) by done. lia.
  - apply (inv_init_eq _ _ _ HI).
  - rewrite (inv_init_gt _ _ _ HI) by done. lia.
Qed.

(** C1.  In every state that [Run] can reach, whatever the schedule:
    the start channel has been closed at most once, and exactly once as soon
    as the caller has got past [gogo()] (in particular when [Run] has returned
    nil); when every [Init] returns nil the caller does get there, within as
    many of its own steps as there are clients and services plus four; when
    the channel was closed, [Prepare] had returned nil for every registered
    service; and when any service implementation's [Run] was invoked, the
    channel had been closed and [Prepare] had returned nil for every service. *)
Theorem barrier_before_run (manifest : list client) (vol : Voltron) (sched : list Action) :
  let s := exec manifest vol sched New in
  let all_prepared (h : Trace) :=
    forall j, j < length (services vol) -> EvPrepared j ∈ h in
  count is_release (trace s) = (if released (pc s) then 1 else 0) /\
  (pc s = PcReturned None -> count is_release (trace s) = 1) /\
  (all_succeed manifest vol ->
   4 + length manifest + length (services vol) <= main_steps sched ->
   count is_release (trace s) = 1) /\
  hist_all is_release all_prepared (trace s) /\
  hist_all is_any_svc_run (fun h => EvRelease ∈ h /\ all_prepared h) (trace s).
Proof.
  intros s all_prepared. pose proof (Inv_reachable manifest vol sched) as HI.
  fold s in HI.
  assert (Hc : count is_release (trace s) = (if released (pc s) then 1 else 0)).
  { rewrite <- count_denoise by auto.
    rewrite (inv_release _ _ _ HI), (inv_signal _ _ _ HI). by destruct (released (pc s)). }
  split; [done|]. split; [intros Hpc; rewrite Hc, Hpc; reflexivity|]. split; [|split].
  - intros Hok Hq. rewrite Hc. unfold s.
    by rewrite (exec_past_gogo manifest vol Hok sched Hq).
  - eapply hist_all_denoise; [auto| |apply (inv_h_release _ _ _ HI)].
    intros h Hh j Hj. apply elem_of_denoise; auto.
  - eapply hist_all_denoise; [auto| |apply (inv_h_run _ _ _ HI)].
    intros h (H1 & H2 & _). split; [exact (proj1 (elem_of_denoise EvRelease h eq_refl) H1)|].
    intros j Hj. apply elem_of_denoise; auto.
Qed.

Lemma exec_past_init manifest vol sched :
  all_succeed manifest vol -> 2 + length manifest <= main_steps sched ->
  in_phase1 (exec manifest vol sched New) = false.
Proof.
  intros Hok Hq. pose proof (Inv_reachable manifest vol sched) as HI.
  destruct (exec_progress manifest vol Hok sched New I) as [Ht Hp].
  change (main_pos (length manifest) (length (services vol)) (pc New)) with 0 in Hp.
  destruct (in_phase1 (exec manifest vol sched New)) eqn:Hph; [|done].
  destruct (inv_phase1 _ _ _ HI Hph) as (_ & _ & _ & Hsig & _).
  rewrite (inv_signal _ _ _ HI) in Hsig. unfold in_phase1 in Hph.
  destruct (pc (exec manifest vol sched New)) as [|k|j| | |k r|r];
    unfold main_pos, on_track in *; try lia; try done.
  by subst r.
Qed.

(** C2 (as amended).  In every state that [Run] can reach: the [Init] of a
    registered client record has been invoked at most once; exactly once for
    every record as soon as [Run] has got past [Voltron.init], which, when no
    [Init] fails, it has after as many steps of the caller as there are
    clients plus two; when any service implementation's [Run] was invoked,
    every record's [Init] had been invoked exactly once; and no client [Init]
    is ever invoked after a service's [Run]. *)
Theorem client_init_once_before_run (manifest : list client) (vol : Voltron)
    (sched : list Action) :
  let s := exec manifest vol sched New in
  (forall k, count (is_client_init k) (trace s) <= 1) /\
  (in_phase1 s = false ->
     forall k, k < length manifest -> count (is_client_init k) (trace s) = 1) /\
  (all_succeed manifest vol -> 2 + length manifest <= main_steps sched ->
     forall k, k < length manifest -> count (is_client_init k) (trace s) = 1) /\
  hist_all is_any_svc_run
    (fun h => forall k, k < length manifest -> count (is_client_init k) h = 1) (trace s) /\
  hist_all is_any_client_init (fun h => count is_any_svc_run h = 0) (trace s).
Proof.
  intros s. pose proof (Inv_reachable manifest vol sched) as HI. fold s in HI.
  assert (Hdone : in_phase1 s = false ->
            forall k, k < length manifest -> count (is_client_init k) (trace s) = 1).
  { intros Hp k Hk. rewrite <- count_denoise by auto.
    apply (inv_init_lt _ _ _ HI). by rewrite (inv_phase2 _ _ _ HI Hp). }
  split; [intros k; apply count_init_le_1|]. split; [done|]. split; [|split].
  - intros Hok Hq. apply Hdone. by apply exec_past_init.
  - eapply hist_all_denoise; [auto| |apply (inv_h_run _ _ _ HI)].
    intros h (_ & _ & H3) k Hk. rewrite <- count_denoise by auto. auto.
  - eapply hist_all_denoise; [auto| |apply (inv_h_init _ _ _ HI)].
    intros h Hh. cbv beta in Hh. rewrite count_denoise in Hh by auto.
    eapply count_implies; [|exact Hh]. by intros [].
Qed.

(** C2 fails as stated: the first registered client fails to initialise, [Run]
    returns its error, and the [Init] of the second registered client has not
    been invoked at all. *)
Lemma client_init_once_counterexample :
  let s := exec Sample.manifestAB Sample.vol1 [AMain; AMain] New in
  length Sample.manifestAB = 2 /\
  pc s = PcReturned (Some (Err "init failed")) /\
  count (is_client_init 1) (trace s) = 0 /\
  ~ (forall k, k < length Sample.manifestAB -> count (is_client_init k) (trace s) = 1).
Proof.
  cbv zeta. split; [reflexivity|]. split; [reflexivity|]. split; [reflexivity|].
  intros H. specialize (H 1 ltac:(simpl; lia)). vm_compute in H. discriminate.
Qed.

(** C3 (as amended).  When [Run] has returned and every registered client
    record's [Init] had returned nil, [Shutdown] has been called on every
    registered client record, once each, in registration order. *)
Theorem shutdown_in_registration_order (manifest : list client) (vol : Voltron)
    (sched : list Action) (r : option error) :
  let s := exec manifest vol sched New in
  pc s = PcReturned r ->
  (forall k, k < length manifest -> EvClientInit k None ∈ trace s) ->
  rev (shutdown_ids (trace s)) = seq 0 (length manifest).
Proof.
  intros s Hpc Hall. pose proof (Inv_reachable manifest vol sched) as HI. fold s in HI.
  assert (Hc : length (vol_clients s) = length manifest).
  { pose proof (inv_clients_le _ _ _ HI) as Hle.
    destruct (length manifest) as [|n] eqn:Hn; [lia|].
    assert (n < length (vol_clients s)); [|lia].
    apply (inv_init_ok _ _ _ HI), elem_of_denoise; [done|]. apply Hall. lia. }
  rewrite <- shutdown_ids_denoise.
  pose proof (inv_shutdown _ _ _ HI) as Hs. rewrite Hpc in Hs.
  destruct (in_phase1 s) eqn:Hp.
  - destruct (inv_phase1 _ _ _ HI Hp) as (_ & _ & -> & _).
    destruct (inv_ret1 _ _ _ HI _ Hpc Hp) as [H0|Hlt]; [|lia].
    rewrite <- Hc, H0. reflexivity.
  - rewrite (Hs eq_refl). apply rev_involutive.
Qed.

Lemma shutdown_in_registration_order_witness :
  rev (shutdown_ids (trace (exec Sample.manifest2 Sample.vol1 Sample.schedAll New))) = [0; 1].
Proof.
  apply (shutdown_in_registration_order Sample.manifest2 Sample.vol1 Sample.schedAll None).
  - reflexivity.
  - intros k Hk. simpl in Hk.
    destruct k as [|[|k]]; [vm_compute; repeat constructor..|lia].
Defined.

(** C3 fails as stated.  Without [Join], [Run] returns the invalid-cluster
    error and shuts no client down; when the second of two clients fails to
    initialise, [Run] returns its error and shuts no client down, the first,
    initialised one included. *)
Lemma shutdown_on_every_exit_counterexample :
  (let s := exec Sample.manifest2 Sample.volNoJoin [AMain] New in
   pc s = PcReturned (Some ErrInvalidCluster) /\ count is_shutdown (trace s) = 0) /\
  (let s := exec Sample.manifestBA Sample.vol1 [AMain; AMain; AMain] New in
   pc s = PcReturned (Some (Err "init failed")) /\
   EvClientInit 0 None ∈ trace s /\ count is_shutdown (trace s) = 0).
Proof.
  split; cbv zeta; repeat split; try reflexivity.
  vm_compute. repeat constructor.
Qed.

(** ** [Run] without [Join] *)

Section NoJoin.
Variable manifest : list client.
Variable vol : Voltron.
Hypothesis Hnil : cluster vol = None.

Lemma idle_step s a :
  idle s ->
  let s' := default s (step manifest vol s a) in
  idle s' /\
  (a = AMain \/ pc s = PcReturned (Some ErrInvalidCluster) ->
   pc s' = PcReturned (Some ErrInvalidCluster)).
Proof.
  intros (Ht & Hk & Hb & Hpc). unfold idle.
  destruct a as [| |k ev|j|j|j]; simpl;
    unfold main_step, deliver_step, task_done, task_go, task_step;
    rewrite ?Hk, ?Hb, ?lookup_empty; simpl.
  1: destruct Hpc as [Hpc|Hpc]; rewrite Hpc, ?Hnil; simpl.
  all: repeat split; auto.
  all: intros [H|H]; (done || congruence).
Qed.

Lemma idle_exec sched s :
  idle s ->
  let s' := exec manifest vol sched s in
  idle s' /\
  (AMain ∈ sched \/ pc s = PcReturned (Some ErrInvalidCluster) ->
   pc s' = PcReturned (Some ErrInvalidCluster)).
Proof.
  revert s. induction sched as [|a sched IH]; intros s Hs; simpl.
  - split; [done|]. intros [H|H]; [by apply elem_of_nil in H | done].
  - destruct (idle_step s a Hs) as [Hs' Hpc'].
    destruct (IH _ Hs') as [H1 H2]. split; [done|].
    intros [H|H].
    + apply elem_of_cons in H as [<-|H]; [|by apply H2; left].
      apply H2. right. apply Hpc'. by left.
    + apply H2. right. apply Hpc'. by right.
Qed.
End NoJoin.

(** C4.  Without [Join] the cluster is nil.  Then, whatever the schedule,
    nothing is ever recorded on the trace: no lifecycle method of a client
    ([Init], [ReInit], [Shutdown]) or of a service ([Init], [Run], [Shutdown])
    is invoked, and the caller, as soon as it has moved, has returned
    [ErrInvalidCluster]. *)
Theorem Run_without_Join (manifest : list client) (vol : Voltron) (sched : list Action) :
  cluster vol = None ->
  let s := exec manifest vol sched New in
  trace s = [] /\ count is_lifecycle (trace s) = 0 /\ tasks s = ∅ /\
  (pc s = PcEntry \/ pc s = PcReturned (Some ErrInvalidCluster)) /\
  (AMain ∈ sched -> pc s = PcReturned (Some ErrInvalidCluster)).
Proof.
  intros Hnil s.
  assert (H0 : idle New) by (unfold idle; simpl; auto).
  destruct (idle_exec manifest vol Hnil sched New H0) as [(Ht & Hk & Hb & Hpc) H].
  fold s in Ht, Hk, Hb, Hpc, H. rewrite Ht. repeat split; auto.
Qed.

Lemma Run_without_Join_witness :
  let s := exec Sample.manifest2 Sample.volNoJoin [ACancel; AMain; ATask 0; AMain] New in
  trace s = [] /\ pc s = PcReturned (Some ErrInvalidCluster).
Proof.
  destruct (Run_without_Join Sample.manifest2 Sample.volNoJoin
              [ACancel; AMain; ATask 0; AMain] eq_refl) as (H1 & _ & _ & _ & H2).
  split; [exact H1|]. apply H2. vm_compute. repeat constructor.
Defined.

(** C5.  Whenever the [Init] of the client record at index [k] has returned an
    error [e]: [Run] has returned [e]; no record after [k] has had its [Init]
    invoked; nothing of the service side has happened (no reporter acquired,
    no service [Init], no [Prepare] returned, no release, no service [Run]);
    and no service goroutine exists. *)
Theorem client_init_error_aborts (manifest : list client) (vol : Voltron)
    (sched : list Action) (k : nat) (e : error) :
  let s := exec manifest vol sched New in
  EvClientInit k (Some e) ∈ trace s ->
  pc s = PcReturned (Some e) /\
  (forall k', k < k' -> count (is_client_init k') (trace s) = 0) /\
  count is_service_event (trace s) = 0 /\
  tasks s = ∅.
Proof.
  intros s Hin. pose proof (Inv_reachable manifest vol sched) as HI. fold s in HI.
  apply (elem_of_denoise (EvClientInit k (Some e)) _ eq_refl) in Hin.
  destruct (inv_fail _ _ _ HI _ _ Hin) as (Hpc & Hp & ->).
  destruct (inv_phase1 _ _ _ HI Hp) as (T1 & T2 & _).
  split; [done|]. split; [|split; [|done]].
  - intros k' Hk'. rewrite <- count_denoise by auto. by apply (inv_init_gt _ _ _ HI).
  - by rewrite <- count_denoise by auto.
Qed.

Lemma client_init_error_aborts_witness :
  let s := exec Sample.manifestAB Sample.vol1 [AMain; AMain; AMain; ATask 0] New in
  pc s = PcReturned (Some (Err "init failed")) /\
  count (is_client_init 1) (trace s) = 0 /\
  count is_service_event (trace s) = 0.
Proof.
  destruct (client_init_error_aborts Sample.manifestAB Sample.vol1
              [AMain; AMain; AMain; ATask 0] 0 (Err "init failed"))
    as (H1 & H2 & H3 & _).
  - vm_compute. repeat constructor.
  - split; [exact H1|]. split; [apply H2; lia | exact H3].
Defined.

Lemma keepalive_in j t :
  0 < count (is_keepalive j) t -> exists a w l, EvKeepalive j a w l ∈ t.
Proof.
  induction t as [|e t IH]; simpl; [lia|].
  destruct (is_keepalive j e) eqn:He.
  - destruct e; try done. simpl in He. apply bool_decide_eq_true in He as ->.
    intros _. do 3 eexists. apply elem_of_cons. by left.
  - intros H. destruct (IH H) as (a & w & l & Hin).
    exists a, w, l. apply elem_of_cons. by right.
Qed.

(** C9 (as amended).  For a service with a reporting configuration (a
    non-empty address): the reporter is acquired at most once, while the start
    channel is still open and before the service's own [Init]; a [Keepalive]
    is issued only after the release and before the implementation's [Run];
    when the implementation's [Run] is invoked the reporter has been acquired
    and exactly one [Keepalive], with the configured address, weight and ttl,
    has been issued; [Close] is called only after [Run] has returned; and a
    goroutine that has exited has closed the reporter exactly once if it
    invoked [Run], and has neither issued a [Keepalive] nor closed the
    reporter if it left through the cancelled context. *)
Theorem reporter_lifecycle (manifest : list client) (vol : Voltron)
    (sched : list Action) (j : nat) (sv : service) :
  let s := exec manifest vol sched New in
  services vol !! j = Some sv -> addr sv <> "" ->
  count (is_new_reporter j) (trace s) <= 1 /\
  (is_Some (tasks s !! j) -> count (is_new_reporter j) (trace s) = 1) /\
  hist_all (is_new_reporter j)
    (fun h => count is_release h = 0 /\ count (is_svc_init j) h = 0) (trace s) /\
  hist_all (is_keepalive j)
    (fun h => EvRelease ∈ h /\ count (is_svc_run j) h = 0) (trace s) /\
  hist_all (is_svc_run j)
    (fun h => count (is_new_reporter j) h = 1 /\ count (is_keepalive j) h = 1 /\
              EvKeepalive j (addr sv) (weight sv) (ttl sv) ∈ h) (trace s) /\
  hist_all (is_reporter_close j)
    (fun h => count (is_svc_run_return j) h = 1 /\ count (is_keepalive j) h = 1)
    (trace s) /\
  (tasks s !! j = Some TExited ->
     count (is_svc_run j) (trace s) <= 1 /\
     count (is_svc_run_return j) (trace s) = count (is_svc_run j) (trace s) /\
     count (is_keepalive j) (trace s) = count (is_svc_run j) (trace s) /\
     count (is_reporter_close j) (trace s) = count (is_svc_run j) (trace s)).
Proof.
  intros s Hsv Haddr. pose proof (Inv_reachable manifest vol sched) as HI. fold s in HI.
  assert (Hr : reports vol j = true).
  { unfold reports. rewrite Hsv. by apply bool_decide_eq_true_2. }
  split; [|split; [|split; [|split; [|split; [|split]]]]].
  - rewrite <- count_denoise by auto. apply (inv_newrep _ _ _ HI).
  - intros [p Hp]. rewrite <- count_denoise by auto.
    destruct (inv_task _ _ _ HI _ _ Hp) as [_ ->]. by rewrite Hr.
  - eapply hist_all_denoise; [auto| |apply (inv_h_newrep _ _ _ HI)].
    intros h. cbv beta. by rewrite !count_denoise by auto.
  - eapply hist_all_denoise; [auto| |apply (inv_h_keepalive _ _ _ HI)].
    intros h. cbv beta. rewrite count_denoise by auto.
    intros [H1 H2]. split; [exact (proj1 (elem_of_denoise EvRelease h eq_refl) H1) | done].
  - eapply (hist_all_suffix _
      (fun h => count (is_new_reporter j) h = 1 /\ count (is_keepalive j) h = 1)).
    + intros newer h Ht [H1 H2]. split; [done|]. split; [done|].
      destruct (keepalive_in j h) as (a & w & l & Hin); [lia|].
      assert (Hin' : EvKeepalive j a w l ∈ denoise (trace s)).
      { apply elem_of_denoise; [done|]. rewrite Ht. apply elem_of_app. by right. }
      destruct (inv_keepalive_args _ _ _ HI _ _ _ _ Hin') as (sv' & Hsv' & -> & -> & ->).
      by simplify_eq.
    + eapply hist_all_denoise; [auto| |apply (inv_h_run_j _ _ _ HI j)].
      intros h. cbv beta. rewrite !count_denoise, Hr by auto. simpl. tauto.
  - eapply hist_all_denoise; [auto| |apply (inv_h_close _ _ _ HI)].
    intros h. cbv beta. by rewrite !count_denoise by auto.
  - intros Hp. pose proof (inv_task_counts _ _ _ HI j) as Ht.
    rewrite Hp in Ht. unfold task_ok in Ht. rewrite !count_denoise, Hr in Ht by auto.
    simpl in Ht. lia.
Qed.

Lemma reporter_lifecycle_witness :
  let s := exec Sample.manifest2 Sample.vol1 Sample.schedAll New in
  count (is_new_reporter 0) (trace s) <= 1 /\
  count (is_reporter_close 0) (trace s) = count (is_svc_run 0) (trace s).
Proof.
  destruct (reporter_lifecycle Sample.manifest2 Sample.vol1 Sample.schedAll 0
              (Sample.reporting Sample.okService) eq_refl ltac:(discriminate))
    as (H1 & _ & _ & _ & _ & _ & H2).
  split; [exact H1|]. apply H2. reflexivity.
Defined.

(** C9 fails as stated.  The reporter is acquired while the caller is still
    preparing the services, before the barrier is released; and when the run
    context is cancelled before the barrier opens, the service goroutine
    exits, [Run] returns nil, and the acquired reporter has not been closed. *)
Lemma reporter_closed_counterexample :
  (let s := exec Sample.manifest2 Sample.vol1 [AMain; AMain; AMain; AMain; AMain] New in
   count (is_new_reporter 0) (trace s) = 1 /\ count is_release (trace s) = 0 /\
   signal s = false) /\
  (let s := exec Sample.manifest2 Sample.vol1 Sample.schedCancelled New in
   pc s = PcReturned None /\ tasks s !! 0 = Some TExited /\
   count (is_new_reporter 0) (trace s) = 1 /\
   count (is_keepalive 0) (trace s) = 0 /\
   count (is_reporter_close 0) (trace s) = 0).
Proof. split; cbv zeta; repeat split; reflexivity. Qed.

(** ** The theorems at work on the concrete inputs *)

Lemma barrier_before_run_witness :
  count is_release (trace (exec Sample.manifest2 Sample.vol1 Sample.schedAll New)) = 1.
Proof.
  apply (proj1 (proj2 (proj2
    (barrier_before_run Sample.manifest2 Sample.vol1 Sample.schedAll)))).
  - split; [|split].
    + exists Sample.cluster0. split; [reflexivity|].
      intros c0 srv _ _. exists Sample.broker0. reflexivity.
    + intros c0 h Hin.
      repeat (apply elem_of_cons in Hin as [->|Hin]; [reflexivity|]).
      by apply elem_of_nil in Hin.
    + intros sv h Hin.
      repeat (apply elem_of_cons in Hin as [->|Hin]; [reflexivity|]).
      by apply elem_of_nil in Hin.
  - simpl. lia.
Defined.

Lemma client_init_once_before_run_witness :
  count (is_client_init 1)
    (trace (exec Sample.manifest2 Sample.vol1 Sample.schedAll New)) = 1.
Proof.
  apply (proj1 (proj2
    (client_init_once_before_run Sample.manifest2 Sample.vol1 Sample.schedAll))).
  - reflexivity.
  - simpl. lia.
Defined.

Lemma Init_always_watches_witness :
  fst (fst (Watcher.Init 0 Sample.failingClient Sample.broker0 [])) =
    Some (Err "init failed") /\
  count (is_reinit 0)
    (snd (Watcher.deliver Sample.failingClient (EndpointUpdate Sample.n1)
            (snd (fst (Watcher.Init 0 Sample.failingClient Sample.broker0 [])))
            (snd (Watcher.Init 0 Sample.failingClient Sample.broker0 [])))) = 1.
Proof.
  destruct (Init_always_watches 0 Sample.failingClient Sample.broker0 [])
    as (Heq & _ & Hev).
  rewrite Heq. split; [reflexivity|].
  apply (Hev (EndpointUpdate Sample.n1)). reflexivity.
Defined.

(** A discovery-bound client whose [Init] fails: [Run] returns the error, and
    an endpoint event delivered afterwards still reaches the watcher and calls
    [ReInit]. *)
Example failed_client_still_watches :
  let s := exec [Sample.discovered Sample.failingClient] Sample.vol1
             [AMain; AMain; ADeliver 0 (EndpointUpdate Sample.n1)] New in
  pc s = PcReturned (Some (Err "init failed")) /\
  rev (trace s) =
    [EvNewBroker 0 None; EvNewOptions 0 "{}" [];
     EvClientInit 0 (Some (Err "init failed")); EvWatch 0;
     EvNewOptions 0 "{}" [Sample.n1];
     EvClientReInit 0 (Some (Err "reinit failed"))].
Proof. split; reflexivity. Qed.

Lemma live_tasks_lookup (m : gmap nat TaskPc) j :
  filter (fun kv : nat * TaskPc => kv.2 <> TExited) m !! j =
  match m !! j with
  | Some q => if decide (q = TExited) then None else Some q
  | None => None
  end.
Proof.
  rewrite map_lookup_filter. destruct (m !! j) as [q|]; simpl; [|done].
  case_guard; destruct (decide (q = TExited)); simpl in *; done.
Qed.

Lemma live_tasks_insert (m : gmap nat TaskPc) j p :
  live_tasks (<[j := p]> m) +
  match m !! j with Some q => if decide (q = TExited) then 0 else 1 | None => 0 end =
  live_tasks m + (if decide (p = TExited) then 0 else 1).
Proof.
  unfold live_tasks. pose proof (live_tasks_lookup m j) as Hf.
  destruct (decide (p = TExited)) as [->|Hp].
  - rewrite map_filter_insert_False by (simpl; auto).
    rewrite map_filter_delete, map_size_delete, Hf.
    destruct (m !! j) as [q|]; simpl; [|lia].
    destruct (decide (q = TExited)); simpl; [lia|].
    assert (size (filter (fun kv : nat * TaskPc => kv.2 <> TExited) m) <> 0); [|lia].
    apply map_size_ne_0_lookup. exists j. rewrite Hf. eauto.
  - rewrite map_filter_insert_True by done.
    rewrite map_size_insert, Hf.
    destruct (m !! j) as [q|]; simpl; [|lia].
    destruct (decide (q = TExited)); simpl; lia.
Qed.

Lemma live_tasks_empty : live_tasks ∅ = 0.
Proof. unfold live_tasks. by rewrite map_filter_empty, map_size_empty. Qed.

Lemma live_tasks_0 (m : gmap nat TaskPc) j p :
  live_tasks m = 0 -> m !! j = Some p -> p = TExited.
Proof.
  unfold live_tasks. intros H0 Hj. apply map_size_empty_iff in H0.
  destruct (decide (p = TExited)) as [|Hne]; [done|].
  assert (filter (fun kv : nat * TaskPc => kv.2 <> TExited) m !! j = Some p) as Hf.
  { apply map_lookup_filter_Some. done. }
  rewrite H0 in Hf. done.
Qed.

Lemma svc_init_ids_none t : count is_service_event t = 0 -> svc_init_ids t = [].
Proof.
  induction t as [|e t IH]; simpl; [done|].
  destruct e; simpl; intros; try done; apply IH; lia.
Qed.

Lemma count_shutdown_ids t : count is_shutdown t = length (shutdown_ids t).
Proof. induction t as [|e t IH]; simpl; [done|]. destruct e; simpl; lia. Qed.

Lemma rev_seq_S k : rev (seq 0 (S k)) = k :: rev (seq 0 k).
Proof. by rewrite seq_snoc, rev_app_distr. Qed.

Section Preserve2.
Variable manifest : list client.
Variable vol : Voltron.
#[local] Abbreviation Inv := (Inv manifest vol).
#[local] Abbreviation Inv2 := (Inv2 manifest vol).
#[local] Abbreviation Step := (Step manifest vol).
#[local] Abbreviation reports := (reports vol).

Lemma pres2_init_order s s' : Inv s -> Inv2 s -> Step s s' ->
  init_ids (denoise (trace s')) =
  rev (seq 0 (length (vol_clients s') +
              count (is_client_init (length (vol_clients s'))) (denoise (trace s')))).
Proof.
  intros HI HI2 HS.
  pose proof (inv2_init_order _ _ _ HI2) as H1.
  pose proof (inv_init_pc _ _ _ HI) as H2.
  pose proof (inv_init_gt _ _ _ HI) as H3.
  step_cases HS; try done.
  all: destruct (H2 _ Hpc) as [-> H4]; rewrite H4, Nat.add_0_r in H1.
  all: rewrite ?length_app; simpl; rewrite H1.
  all: match goal with |- _ = rev (seq 0 ?n) =>
         replace n with (S (length (vol_clients s))); [by rewrite rev_seq_S|] end.
  all: rewrite ?H4, ?H3 by lia; cnt.
Qed.

Lemma pres2_svc_order s s' : Inv s -> Inv2 s -> Step s s' ->
  exists P, P <= length (services vol) /\
    svc_init_ids (denoise (trace s')) = rev (seq 0 P) /\
    forall j, pc s' = PcPrepare j -> j = P.
Proof.
  intros HI HI2 HS.
  destruct (inv2_svc_order _ _ _ HI2) as (P & HP & H1 & H1').
  pose proof (inv_phase1 _ _ _ HI) as H2.
  step_cases HS.
  all: try (rewrite Hpc in *; simpl in * ).
  all: try (apply lookup_lt_Some in Hj).
  all: try (rewrite <- (H1' _ eq_refl) in * ).
  all: try solve [ exists P; done ].
  all: try solve [ exists (S j); rewrite H1, <- rev_seq_S; repeat split; [lia|];
                   intros; simplify_eq; done ].
  all: try solve [ exists P; repeat split; try done; intros; rewrite Hpc in *; done ].
  all: try solve [ unfold in_phase1 in H2; rewrite Hpc in H2;
                   destruct (H2 eq_refl) as (_ & T2 & _);
                   exists 0; repeat split; [lia | by apply svc_init_ids_none
                                            | intros; simplify_eq; done ] ].
  all: try solve [ exists j; repeat split; try done ].
Qed.

Lemma pres2_svc_fail s s' : Inv s -> Inv2 s -> Step s s' ->
  forall j e, EvSvcInit j (Some e) ∈ denoise (trace s') ->
    failed_with e (pc s') /\ in_phase1 s' = false /\
    forall j', j <= j' ->
      tasks s' !! j' = None /\
      (j < j' -> count (is_svc_init j') (denoise (trace s')) = 0 /\
                 count (is_new_reporter j') (denoise (trace s')) = 0).
Proof.
  intros HI HI2 HS.
  pose proof (inv2_svc_fail _ _ _ HI2) as H1.
  pose proof (inv_fresh _ _ _ HI) as H2.
  pose proof (inv_shutdown _ _ _ HI) as H3.
  step_cases HS.
  all: intros j0 e0 Hin; peel Hin.
  all: try (destruct (H1 _ _ Hin) as (F1 & F2 & F3)).
  all: unfold in_phase1 in *; simpl in *.
  all: try (rewrite Hpc in *; simpl in * ).
  all: try done.
  all: try solve [ split; [done|]; split; [done|]; intros j' Hle;
                   destruct (H2 _ j' eq_refl Hle) as (T1 & T2 & T3 & T4);
                   split; [done|]; intros; split; cnt ].
  all: try solve [ destruct H3 as (_ & _ & ->); done ].
  all: try solve [ split; [done|]; split; [done|]; intros j' Hle;
                   destruct (F3 _ Hle) as [T1 T2]; split; [|done];
                   rewrite lookup_insert_ne; [done|]; intros ->; simplify_eq ].
Qed.

Lemma pres2_wg s s' : Inv s -> Inv2 s -> Step s s' ->
  wg s' = live_tasks (tasks s') /\
  (forall j p, tasks s' !! j = Some p -> running p = true -> signal s' = true) /\
  match pc s' with
  | PcShutdown _ None | PcReturned None => wg s' = 0
  | _ => True
  end /\
  (forall j, EvPrepared j ∈ denoise (trace s') -> is_Some (tasks s' !! j)).
Proof.
  intros HI HI2 HS.
  pose proof (inv2_wg _ _ _ HI2) as H1.
  pose proof (inv2_running _ _ _ HI2) as H2.
  pose proof (inv2_waited _ _ _ HI2) as H3.
  pose proof (inv2_launched _ _ _ HI2) as H4.
  pose proof (inv_fresh _ _ _ HI) as H5.
  step_cases HS.
  all: try (rewrite Hpc in *; simpl in * ).
  all: try (destruct (H5 _ j eq_refl (le_n _)) as (T1 & _)).
  all: try (pose proof (live_tasks_insert (tasks s) j TWait) as L1).
  all: try (pose proof (live_tasks_insert (tasks s) j TExited) as L2).
  all: try (pose proof (live_tasks_insert (tasks s) j TStarted) as L3).
  all: try (pose proof (live_tasks_insert (tasks s) j (TCall true)) as L4).
  all: try (pose proof (live_tasks_insert (tasks s) j (TCall false)) as L5).
  all: try (pose proof (live_tasks_insert (tasks s) j (TRunning d)) as L6).
  all: try (pose proof (live_tasks_insert (tasks s) j (TReturning d)) as L7).
  all: try rewrite Hj in *; try rewrite T1 in *; simpl in *.
  all: repeat split; try done.
  all: try lia.
  all: try solve [ destruct (pc s) as [| | | | |? []|[]]; lia ].
  all: try solve [ intros j0 Hin; peel Hin; rewrite ?lookup_insert_eq; eauto;
                   apply H4 in Hin; destruct (decide (j = j0)); subst;
                   rewrite ?lookup_insert_eq, ?lookup_insert_ne by done; eauto ].
  all: try solve [ intros j0 p Hp Hr; destruct (decide (j = j0)) as [->|];
                   [ rewrite lookup_insert_eq in Hp; simplify_eq; try done;
                     eapply H2; eauto
                   | rewrite lookup_insert_ne in Hp by done; eauto ] ].
Qed.

Lemma pres2_noreport s s' : Inv2 s -> Step s s' ->
  forall j, reports j = false ->
    count (is_new_reporter j) (denoise (trace s')) = 0 /\ j ∉ reporters s'.
Proof.
  intros HI2 HS.
  pose proof (inv2_noreport _ _ _ HI2) as H1.
  step_cases HS.
  all: intros j1 Hr; destruct (H1 _ Hr) as [T1 T2]; try done.
  all: try (destruct (decide (j1 = j)) as [->|Hne];
            [ rewrite (reports_Some _ _ _ Hj), bool_decide_eq_false in Hr; done |]).
  all: split; [cnt | rep_solver].
Qed.

(** A goroutine past its [select] finds the caller in [wg.Wait]. *)
Lemma running_waits s j p : Inv s -> Inv2 s ->
  tasks s !! j = Some p -> running p = true -> pc s = PcWait.
Proof.
  intros HI HI2 Hj Hr.
  pose proof (inv2_running _ _ _ HI2 _ _ Hj Hr) as Hs.
  pose proof (inv_signal _ _ _ HI) as H1. rewrite Hs in H1.
  pose proof (inv2_waited _ _ _ HI2) as H2.
  pose proof (inv2_wg _ _ _ HI2) as H3.
  destruct (pc s) as [| | | | |? []|[]]; simpl in *; try done.
  all: rewrite H2 in H3; symmetry in H3.
  all: rewrite (live_tasks_0 _ _ _ H3 Hj) in Hr; done.
Qed.

(** Every implementation [Run] that was invoked has returned, and every
    reporter that sent a Keepalive is closed, once no goroutine is past its
    [select]. *)
Lemma settled s : Inv s ->
  (forall j p, tasks s !! j = Some p -> running p = false) ->
  forall j, count (is_svc_run j) (denoise (trace s)) =
            count (is_svc_run_return j) (denoise (trace s)) /\
            count (is_keepalive j) (denoise (trace s)) =
            count (is_reporter_close j) (denoise (trace s)).
Proof.
  intros HI Hall j. pose proof (inv_task_counts _ _ _ HI j) as H1.
  unfold task_ok in H1.
  destruct (tasks s !! j) as [p|] eqn:Hj; [|lia].
  specialize (Hall _ _ Hj). destruct p; simpl in *; try done; lia.
Qed.

Lemma pres2_h s s' : Inv s -> Inv2 s -> Step s s' ->
  hist_all is_task_event (fun h => count is_shutdown h = 0) (denoise (trace s')) /\
  hist_all is_shutdown
    (fun h => forall j, count (is_svc_run j) h = count (is_svc_run_return j) h /\
                        count (is_keepalive j) h = count (is_reporter_close j) h)
    (denoise (trace s')).
Proof.
  intros HI HI2 HS.
  pose proof (inv2_h_task _ _ _ HI2) as H1.
  pose proof (inv2_h_shutdown _ _ _ HI2) as H2.
  pose proof (running_waits s) as H3.
  pose proof (inv_shutdown _ _ _ HI) as H4.
  pose proof (settled s HI) as H5.
  step_cases HS.
  all: try done.
  all: try (pose proof (H3 _ _ HI HI2 Hj eq_refl) as Hw; rewrite Hw in H4;
            rewrite count_shutdown_ids, H4; done).
  split; [done|]. split; [|done]. apply H5. intros j p Hj.
  destruct (running p) eqn:Hr; [|done].
  rewrite (H3 _ _ HI HI2 Hj Hr) in Hpc. done.
Qed.

Lemma pres2_known s s' : Inv s -> Inv2 s -> Step s s' ->
  (forall k r, EvClientInit k r ∈ denoise (trace s') -> k < length manifest) /\
  (forall j, is_Some (tasks s' !! j) <-> EvSvcInit j None ∈ denoise (trace s')) /\
  (signal s' = false -> count is_task_event (denoise (trace s')) = 0).
Proof.
  intros HI HI2 HS.
  pose proof (inv2_init_known _ _ _ HI2) as H1.
  pose proof (inv2_boot _ _ _ HI2) as H2.
  pose proof (inv2_quiet_before _ _ _ HI2) as H3.
  pose proof (inv2_running _ _ _ HI2) as H4.
  pose proof (inv_fresh _ _ _ HI) as H5.
  step_cases HS.
  all: try (apply lookup_lt_Some in Hk).
  all: try (pose proof (H4 _ _ Hj eq_refl) as Hs).
  all: split; [intros k0 r0 Hin; peel Hin; eauto|].
  all: split; [|try done; try (rewrite Hs; done)].
  all: intros j0; rewrite ?elem_of_cons, <- H2.
  all: try (destruct (decide (j0 = j)) as [->|Hne];
            [ rewrite ?lookup_insert_eq | rewrite ?lookup_insert_ne by done ]).
  all: try solve [ intuition (try congruence; eauto) ].
Qed.

Lemma Inv2_step s s' : Inv s -> Inv2 s -> Step s s' -> Inv2 s'.
Proof.
  intros HI HI2 HS.
  destruct (pres2_wg _ _ HI HI2 HS) as (W1 & W2 & W3 & W4).
  destruct (pres2_h _ _ HI HI2 HS) as [T1 T2].
  destruct (pres2_known _ _ HI HI2 HS) as (K1 & K2 & K3).
  constructor; try done.
  - eapply pres2_init_order; eauto.
  - eapply pres2_svc_order; eauto.
  - eapply pres2_svc_fail; eauto.
  - eapply pres2_noreport; eauto.
Qed.

Lemma Inv2_New : Inv2 New.
Proof.
  constructor; simpl; try done.
  all: try solve [ exists 0; repeat split; [lia|done] ].
  all: try solve [ intros j ? H; by apply elem_of_nil in H ].
  all: try solve [ intros j H; by apply elem_of_nil in H ].
  all: try solve [ intros j _; split; [done|]; apply not_elem_of_empty ].
  intros j. rewrite lookup_empty, elem_of_nil. split; [by intros []|done].
Qed.

Lemma Inv2_exec sched s : Inv s -> Inv2 s ->
  Inv2 (exec manifest vol sched s).
Proof.
  revert s. induction sched as [|a sched IH]; intros s HI HI2; simpl; [done|].
  destruct (step manifest vol s a) as [s'|] eqn:Hs; simpl; [|by apply IH].
  apply step_Step in Hs. apply IH; [by eapply Inv_Step | by eapply Inv2_step].
Qed.

Lemma Inv2_reachable sched : Inv2 (exec manifest vol sched New).
Proof. apply Inv2_exec; [apply Inv_New | apply Inv2_New]. Qed.



End Preserve2.

(** ** Order of initialisation, failure of a service, the wait group *)

Lemma init_ids_denoise t : init_ids (denoise t) = init_ids t.
Proof.
  induction t as [|e t IH]; simpl; [done|].
  destruct e; simpl; by rewrite ?IH.
Qed.

Lemma svc_init_ids_denoise t : svc_init_ids (denoise t) = svc_init_ids t.
Proof.
  induction t as [|e t IH]; simpl; [done|].
  destruct e; simpl; by rewrite ?IH.
Qed.

Lemma quiet_shutdown : quiet is_shutdown.
Proof. by intros []. Qed.
Lemma quiet_task_event : quiet is_task_event.
Proof. by intros []. Qed.

#[local] Hint Resolve quiet_shutdown quiet_task_event : core.

Lemma init_ids_length t k :
  count (is_client_init k) t <= length (init_ids t).
Proof.
  induction t as [|e t IH]; simpl; [lia|].
  destruct e; simpl; try done. case_bool_decide; simpl; lia.
Qed.

Lemma client_init_in k t :
  0 < count (is_client_init k) t -> exists r, EvClientInit k r ∈ t.
Proof.
  induction t as [|e t IH]; simpl; [lia|]. intros H.
  destruct (is_client_init k e) eqn:He.
  - destruct e; simpl in He; try done. case_bool_decide; [subst|done].
    eexists. apply elem_of_cons. by left.
  - destruct (IH ltac:(lia)) as [r Hr]. exists r. apply elem_of_cons. by right.
Qed.

Lemma svc_init_ids_in j r t : EvSvcInit j r ∈ t -> j ∈ svc_init_ids t.
Proof.
  induction t as [|e t IH]; [by intros ?%elem_of_nil|].
  intros [Heq|Hin]%elem_of_cons; subst; simpl; [apply elem_of_cons; by left|].
  destruct e; simpl; auto. apply elem_of_cons. right. auto.
Qed.

Lemma elem_of_rev_seq j P : j ∈ rev (seq 0 P) -> j < P.
Proof. rewrite list_elem_of_In, <- in_rev, in_seq. lia. Qed.

(** X1.  In every state that [Run] can reach: the client records whose
    [Init] has been invoked are a prefix of [manifest], invoked in the order
    of registration with no record skipped or repeated; [vol.clients] holds
    exactly the records whose [Init] returned nil, in the same order; and at
    most one more record than those has been tried, namely one whose [Init]
    returned an error, which [Run] has then returned. *)
Theorem clients_initialised_in_order (manifest : list client) (vol : Voltron)
    (sched : list Action) :
  let s := exec manifest vol sched New in
  let n := length (init_ids (trace s)) in
  init_ids (trace s) = rev (seq 0 n) /\ n <= length manifest /\
  vol_clients s = seq 0 (length (vol_clients s)) /\
  (forall k, k ∈ vol_clients s <-> EvClientInit k None ∈ trace s) /\
  (n = length (vol_clients s) \/
   n = S (length (vol_clients s)) /\
   exists e, EvClientInit (length (vol_clients s)) (Some e) ∈ trace s /\
             pc s = PcReturned (Some e)).
Proof.
  intros s n. pose proof (Inv_reachable manifest vol sched) as HI.
  pose proof (Inv2_reachable manifest vol sched) as HI2. fold s in HI, HI2.
  pose proof (inv2_init_order _ _ _ HI2) as H1. rewrite init_ids_denoise in H1.
  pose proof (inv_clients _ _ _ HI) as H2.
  pose proof (inv_clients_le _ _ _ HI) as H3.
  pose proof (inv_init_eq _ _ _ HI) as H4.
  set (c := length (vol_clients s)) in *.
  set (x := count (is_client_init c) (denoise (trace s))) in *.
  assert (Hn : n = c + x).
  { unfold n. rewrite H1, length_rev, length_seq. done. }
  assert (Hx : x = 0 \/ x = 1 /\ exists e, EvClientInit c (Some e) ∈ trace s /\
                                   pc s = PcReturned (Some e) /\ c < length manifest).
  { destruct (decide (x = 0)) as [|Hne]; [by left|]. right. split; [lia|].
    destruct (client_init_in c (denoise (trace s)) ltac:(fold x; lia)) as [r Hr].
    pose proof (inv2_init_known _ _ _ HI2 _ _ Hr) as Hlt.
    destruct r as [e|].
    - exists e. destruct (inv_fail _ _ _ HI _ _ Hr) as (T1 & _).
      split; [|done].
      exact (proj1 (elem_of_denoise (EvClientInit c (Some e)) (trace s) eq_refl) Hr).
    - apply (inv_init_ok _ _ _ HI) in Hr. fold c in Hr. lia. }
  split; [by rewrite Hn|]. split; [|split; [done|split]].
  - destruct Hx as [->|(-> & e & _ & _ & Hlt)]; lia.
  - intros k. rewrite <- (elem_of_denoise (EvClientInit k None)) by done. split.
    + rewrite H2. intros Hin%elem_of_seq. 
      destruct (client_init_in k (denoise (trace s))) as [r Hr].
      { rewrite (inv_init_lt _ _ _ HI); [lia|]. fold c. lia. }
      destruct r as [e|]; [|done].
      destruct (inv_fail _ _ _ HI _ _ Hr) as (_ & _ & T3). fold c in Hin, T3. lia.
    + intros Hin. apply (inv_init_ok _ _ _ HI) in Hin. rewrite H2.
      apply elem_of_seq. lia.
  - destruct Hx as [->|(-> & e & He1 & He2 & _)]; [left; lia|right].
    split; [lia|]. eauto.
Qed.

(** X2.  In every state that [Run] can reach: the services whose [Init] has
    been invoked are a prefix of the services registered with [Setup],
    invoked in the order of registration, none skipped or repeated; a
    goroutine has been started for exactly the services whose [Init] returned
    nil; and once the start channel is closed that prefix is the whole list. *)
Theorem services_prepared_in_order (manifest : list client) (vol : Voltron)
    (sched : list Action) :
  let s := exec manifest vol sched New in
  let P := length (svc_init_ids (trace s)) in
  svc_init_ids (trace s) = rev (seq 0 P) /\ P <= length (services vol) /\
  (forall j, pc s = PcPrepare j -> P = j) /\
  (forall j, is_Some (tasks s !! j) <-> EvSvcInit j None ∈ trace s) /\
  (signal s = true -> P = length (services vol)).
Proof.
  intros s P. pose proof (Inv_reachable manifest vol sched) as HI.
  pose proof (Inv2_reachable manifest vol sched) as HI2. fold s in HI, HI2.
  destruct (inv2_svc_order _ _ _ HI2) as (P' & H1 & H2 & H3).
  rewrite svc_init_ids_denoise in H2.
  assert (HP : P = P'). { unfold P. by rewrite H2, length_rev, length_seq. }
  rewrite HP. repeat split; try done.
  - intros j Hj. symmetry. auto.
  - intros Hj. apply (inv2_boot _ _ _ HI2) in Hj.
    exact (proj1 (elem_of_denoise (EvSvcInit j None) (trace s) eq_refl) Hj).
  - intros Hj. apply (inv2_boot _ _ _ HI2).
    exact (proj2 (elem_of_denoise (EvSvcInit j None) (trace s) eq_refl) Hj).
  - intros Hs. destruct (length (services vol)) as [|m] eqn:Hm; [lia|].
    destruct (signal_prepared _ _ _ HI Hs) as [_ Hall].
    specialize (Hall m ltac:(lia)). apply (inv2_launched _ _ _ HI2) in Hall.
    apply (inv2_boot _ _ _ HI2) in Hall. apply svc_init_ids_in in Hall.
    rewrite svc_init_ids_denoise, H2 in Hall. apply elem_of_rev_seq in Hall. lia.
Qed.

(** X3.  When the [Init] of a service returns an error, in every state that
    [Run] can reach from then on: [Run] is on its way out with that error (it
    is shutting the clients down, or has returned it); the start channel is
    never closed, so no service goroutine gets past its [select]: there is no
    Keepalive, no call of an implementation's [Run], no reporter closed; the
    failing service and those registered after it have no goroutine, and
    those after it were neither initialised nor given a reporter; the context
    of the goroutines already started is cancelled, and each of them is
    waiting or has exited; and once [Run] has returned every client has been
    shut down, in registration order. *)
Theorem service_init_error_aborts (manifest : list client) (vol : Voltron)
    (sched : list Action) (j : nat) (e : error) :
  let s := exec manifest vol sched New in
  EvSvcInit j (Some e) ∈ trace s ->
  failed_with e (pc s) /\
  signal s = false /\ count is_release (trace s) = 0 /\
  count is_task_event (trace s) = 0 /\
  (forall j', j <= j' -> tasks s !! j' = None) /\
  (forall j', j < j' -> count (is_svc_init j') (trace s) = 0 /\
                         count (is_new_reporter j') (trace s) = 0) /\
  ctx_run s = true /\
  (forall j' p, tasks s !! j' = Some p -> j' < j /\ (p = TWait \/ p = TExited)) /\
  (forall r, pc s = PcReturned r ->
     shutdown_ids (trace s) = rev (seq 0 (length manifest))).
Proof.
  intros s Hin. pose proof (Inv_reachable manifest vol sched) as HI.
  pose proof (Inv2_reachable manifest vol sched) as HI2. fold s in HI, HI2.
  apply (elem_of_denoise (EvSvcInit j (Some e)) (trace s) eq_refl) in Hin.
  destruct (inv2_svc_fail _ _ _ HI2 _ _ Hin) as (F1 & F2 & F3).
  assert (Hsig : signal s = false).
  { rewrite (inv_signal _ _ _ HI). destruct (pc s) as [| | | | |? []|[]]; done. }
  pose proof (inv_shutdown _ _ _ HI) as Hsh.
  split; [done|]. split; [done|]. split; [|split; [|split; [|split; [|split; [|split]]]]].
  - rewrite <- count_denoise by auto. by rewrite (inv_release _ _ _ HI), Hsig.
  - rewrite <- count_denoise by auto. by apply (inv2_quiet_before _ _ _ HI2).
  - intros j' Hle. by apply F3.
  - intros j' Hlt. rewrite <- !(count_denoise _ (trace s)) by auto. apply F3; lia.
  - unfold in_phase1 in F2. destruct (pc s); try done.
    + by destruct Hsh as (_ & _ & ->).
    + by destruct (ctx_run s).
  - intros j' p Hj'. split.
    + destruct (decide (j' < j)); [done|]. rewrite (proj1 (F3 j' ltac:(lia))) in Hj'. done.
    + pose proof (inv2_running _ _ _ HI2 _ _ Hj') as Hr. rewrite Hsig in Hr.
      destruct p; simpl in Hr; auto; by specialize (Hr eq_refl).
  - intros r Hpc. rewrite Hpc in Hsh. rewrite <- shutdown_ids_denoise. auto.
Qed.

Lemma service_init_error_aborts_witness :
  let s := exec Sample.manifest2 Sample.volFail [AMain; AMain; AMain; AMain; AMain; AMain] New in
  EvSvcInit 1 (Some (Err "service init failed")) ∈ trace s /\
  failed_with (Err "service init failed") (pc s) /\
  tasks s !! 0 = Some TWait /\ count is_task_event (trace s) = 0.
Proof.
  cbv zeta.
  assert (Hin : EvSvcInit 1 (Some (Err "service init failed")) ∈
                trace (exec Sample.manifest2 Sample.volFail
                         [AMain; AMain; AMain; AMain; AMain; AMain] New)).
  { vm_compute. apply elem_of_cons. by left. }
  split; [exact Hin|].
  pose proof (service_init_error_aborts Sample.manifest2 Sample.volFail
                [AMain; AMain; AMain; AMain; AMain; AMain] 1 _ Hin) as (H1 & _ & _ & H4 & _).
  split; [exact H1|]. split; [reflexivity | exact H4].
Defined.

(** X4.  In every state that [Run] can reach: the wait group counts the
    goroutines of [service.boot] that were started and have not exited;
    whenever [Run] has returned, with whatever result, every implementation
    [Run] that was invoked has returned and every reporter that sent a
    Keepalive has been closed; and when [Run] has returned nil, a goroutine
    was started for every registered service and every one of them has
    exited. *)
Theorem Run_waits_for_services (manifest : list client) (vol : Voltron)
    (sched : list Action) :
  let s := exec manifest vol sched New in
  wg s = live_tasks (tasks s) /\
  (forall r, pc s = PcReturned r ->
     forall j, count (is_svc_run j) (trace s) = count (is_svc_run_return j) (trace s) /\
               count (is_keepalive j) (trace s) = count (is_reporter_close j) (trace s)) /\
  (pc s = PcReturned None ->
     forall j, j < length (services vol) -> tasks s !! j = Some TExited).
Proof.
  intros s. pose proof (Inv_reachable manifest vol sched) as HI.
  pose proof (Inv2_reachable manifest vol sched) as HI2. fold s in HI, HI2.
  split; [apply (inv2_wg _ _ _ HI2)|]. split.
  - intros r Hpc j. rewrite <- !(count_denoise _ (trace s)) by auto.
    apply (settled _ _ _ HI). intros j' p Hj'.
    destruct (running p) eqn:Hr; [|done].
    rewrite (running_waits _ _ _ _ _ HI HI2 Hj' Hr) in Hpc. done.
  - intros Hpc j Hj.
    assert (Hs : signal s = true) by (by rewrite (inv_signal _ _ _ HI), Hpc).
    destruct (signal_prepared _ _ _ HI Hs) as [_ Hall].
    destruct (inv2_launched _ _ _ HI2 _ (Hall _ Hj)) as [p Hp].
    pose proof (inv2_waited _ _ _ HI2) as Hw. rewrite Hpc in Hw.
    rewrite (inv2_wg _ _ _ HI2) in Hw. by rewrite Hp, (live_tasks_0 _ _ _ Hw Hp).
Qed.

(** X5.  Client shutdown and service activity never overlap, on any
    schedule: nothing a service goroutine does (Keepalive, the
    implementation's [Run] being invoked or returning, the reporter being
    closed) happens after a client's [Shutdown]; and whenever a client's
    [Shutdown] is called, every implementation [Run] that was invoked has
    returned and every reporter that sent a Keepalive has been closed. *)
Theorem clients_outlive_services (manifest : list client) (vol : Voltron)
    (sched : list Action) :
  let s := exec manifest vol sched New in
  hist_all is_task_event (fun h => count is_shutdown h = 0) (trace s) /\
  hist_all is_shutdown
    (fun h => forall j, count (is_svc_run j) h = count (is_svc_run_return j) h /\
                        count (is_keepalive j) h = count (is_reporter_close j) h)
    (trace s).
Proof.
  intros s. pose proof (Inv2_reachable manifest vol sched) as HI2. fold s in HI2.
  split.
  - eapply hist_all_denoise; [auto| |apply (inv2_h_task _ _ _ HI2)].
    intros h Hh. cbv beta in Hh. by rewrite count_denoise in Hh by auto.
  - eapply hist_all_denoise; [auto| |apply (inv2_h_shutdown _ _ _ HI2)].
    intros h Hh j. cbv beta in Hh. specialize (Hh j).
    by rewrite !count_denoise in Hh by auto.
Qed.

(** X6.  A service registered without an address ([WithAutoReport] not
    given, or given the empty string) never reports: on every schedule no
    reporter is acquired for it, it sends no Keepalive and closes no reporter;
    its [Run] is invoked like any other service's. *)
Theorem no_address_no_reporter (manifest : list client) (vol : Voltron)
    (sched : list Action) (j : nat) (sv : service) :
  let s := exec manifest vol sched New in
  services vol !! j = Some sv -> addr sv = "" ->
  (j ∉ reporters s) /\
  count (is_new_reporter j) (trace s) = 0 /\
  count (is_keepalive j) (trace s) = 0 /\
  count (is_reporter_close j) (trace s) = 0 /\
  (forall d, tasks s !! j = Some (TCall d) \/ tasks s !! j = Some (TRunning d) \/
             tasks s !! j = Some (TReturning d) -> d = false).
Proof.
  intros s Hj Ha. pose proof (Inv_reachable manifest vol sched) as HI.
  pose proof (Inv2_reachable manifest vol sched) as HI2. fold s in HI, HI2.
  assert (Hr : reports vol j = false).
  { rewrite (reports_Some _ _ _ Hj). by apply bool_decide_eq_false; intros ?. }
  destruct (inv2_noreport _ _ _ HI2 _ Hr) as [N1 N2].
  rewrite <- !(count_denoise _ (trace s)) by auto.
  pose proof (inv_task_counts _ _ _ HI j) as Ht. unfold task_ok in Ht.
  rewrite Hr in Ht. simpl in Ht.
  split; [done|]. split; [done|].
  destruct (tasks s !! j) as [[]|]; simpl in Ht.
  all: repeat split; try lia.
  all: try solve [ intros d [?|[?|?]]; simplify_eq; intuition ].
  all: intuition (subst; simpl in *; lia).
Qed.

Lemma no_address_no_reporter_witness :
  let s := exec Sample.manifest2
             {| services := [WithAutoReport "" 100 10 (Sample.plain Sample.okService)];
                cluster := Some Sample.cluster0 |} Sample.schedAll New in
  count (is_keepalive 0) (trace s) = 0 /\ count (is_svc_run 0) (trace s) = 1.
Proof.
  cbv zeta. split; [|reflexivity].
  eapply (no_address_no_reporter Sample.manifest2 _ Sample.schedAll 0); reflexivity.
Defined.

Section Drain.
Variable manifest : list client.
Variable vol : Voltron.
#[local] Abbreviation n := (length manifest).
#[local] Abbreviation m := (length (services vol)).
#[local] Abbreviation exec := (exec manifest vol).

Lemma exec_cons a rest s :
  exec (a :: rest) s = exec rest (default s (step manifest vol s a)).
Proof. reflexivity. Qed.

Lemma exec_app a b s : exec (a ++ b) s = exec b (exec a s).
Proof. revert s. induction a as [|x a IH]; intros s; simpl; [done|]. apply IH. Qed.

Lemma main_step_late s s' :
  late (pc s) = true -> main_step manifest vol s = Some s' ->
  late (pc s') = true /\ tasks s' = tasks s /\ vol_clients s' = vol_clients s /\
  wg s' = wg s /\ to_ret (length (vol_clients s')) (pc s') < to_ret (length (vol_clients s)) (pc s).
Proof.
  unfold main_step. destruct (pc s) eqn:Hpc; simpl; try done; intros _.
  - case_decide; [|done]. intros [= <-]. simpl. repeat split; lia.
  - destruct (vol_clients s !! k) eqn:Hk; intros [= <-]; simpl; repeat split; try lia.
    apply lookup_lt_Some in Hk. lia.
Qed.

Lemma main_step_early s :
  late (pc s) = false ->
  exists s', main_step manifest vol s = Some s' /\
    to_wait n m (pc s') < to_wait n m (pc s).
Proof.
  unfold main_step. destruct (pc s) eqn:Hpc; simpl; try done; intros _.
  - destruct (cluster vol); eexists; (split; [done|]); simpl; lia.
  - destruct (manifest !! k) as [cl|] eqn:Hk.
    + destruct (init_client vol k cl (trace s)) as [[err ob] t].
      apply lookup_lt_Some in Hk.
      destruct err; eexists; (split; [done|]); simpl; lia.
    + eexists; (split; [done|]); simpl; lia.
  - destruct (services vol !! j) eqn:Hj.
    + apply lookup_lt_Some in Hj.
      unfold call. case_decide; simpl.
      all: match goal with |- context [sv_Init ?a ?b] => destruct (sv_Init a b) end.
      all: eexists; (split; [done|]); simpl; lia.
    + eexists; (split; [done|]); simpl; lia.
  - eexists; (split; [done|]); simpl; lia.
Qed.

Lemma main_to_late K s :
  to_wait n m (pc s) <= K -> late (pc (exec (repeat AMain K) s)) = true.
Proof.
  revert s. induction K as [|K IH]; intros s HK; simpl.
  - destruct (pc s); simpl in *; try done; lia.
  - destruct (late (pc s)) eqn:Hl.
    + destruct (main_step manifest vol s) as [s'|] eqn:Hs; simpl.
      * destruct (main_step_late _ _ Hl Hs) as (Hl' & _). apply IH.
        destruct (pc s'); simpl in *; try done; lia.
      * apply IH. destruct (pc s); simpl in *; try done; lia.
    + destruct (main_step_early _ Hl) as (s' & -> & Hlt). simpl. apply IH. lia.
Qed.

Lemma frame_refl j s : frame j s s.
Proof. by repeat split. Qed.

Lemma frame_trans j s1 s2 s3 : frame j s1 s2 -> frame j s2 s3 -> frame j s1 s3.
Proof.
  intros (A1 & A2 & A3 & A4 & A5 & A6) (B1 & B2 & B3 & B4 & B5 & B6).
  repeat split; try congruence; try tauto.
  intros j' Hj'. rewrite B6, A6; done.
Qed.

Lemma frame_set_task j p s s0 :
  pc s0 = pc s -> signal s0 = signal s -> ctx_done s0 = ctx_done s ->
  vol_clients s0 = vol_clients s -> tasks s0 = tasks s ->
  is_Some (tasks s !! j) -> frame j s (set_task j p s0).
Proof.
  intros H1 H2 H3 H4 H5 H6. unfold frame. simpl. rewrite H5.
  repeat split; try done.
  - by rewrite lookup_insert_eq.
  - intros j' Hj'. by rewrite lookup_insert_ne.
Qed.

Lemma task_go_spec j s :
  let s' := default s (step manifest vol s (ATaskGo j)) in
  frame j s s' /\
  (stage (tasks s !! j) = 0 /\ signal s = true /\ stage (tasks s' !! j) = 1 \/
   (stage (tasks s !! j) <> 0 \/ signal s = false) /\
   stage (tasks s' !! j) = stage (tasks s !! j)).
Proof.
  simpl. unfold task_go.
  destruct (tasks s !! j) as [[]|] eqn:Hj; simpl;
    try (split; [apply frame_refl | right; rewrite Hj; simpl; split; [left; lia|done]]).
  destruct (signal s) eqn:Hs; simpl.
  - split; [by apply frame_set_task; rewrite ?Hj|].
    left. by rewrite lookup_insert_eq.
  - split; [apply frame_refl|]. right. rewrite Hj. auto.
Qed.

Lemma task_done_spec j s :
  let s' := default s (step manifest vol s (ATaskDone j)) in
  frame j s s' /\
  (stage (tasks s !! j) = 0 /\ ctx_done s = true /\ stage (tasks s' !! j) = 5 \/
   (stage (tasks s !! j) <> 0 \/ ctx_done s = false) /\
   stage (tasks s' !! j) = stage (tasks s !! j)).
Proof.
  simpl. unfold task_done.
  destruct (tasks s !! j) as [[]|] eqn:Hj; simpl;
    try (split; [apply frame_refl | right; rewrite Hj; simpl; split; [left; lia|done]]).
  destruct (ctx_done s) eqn:Hs; simpl.
  - split; [by apply frame_set_task; rewrite ?Hj|].
    left. by rewrite lookup_insert_eq.
  - split; [apply frame_refl|]. right. rewrite Hj. auto.
Qed.

Lemma task_step_spec j s :
  (is_Some (tasks s !! j) -> is_Some (services vol !! j)) ->
  let s' := default s (step manifest vol s (ATask j)) in
  frame j s s' /\
  (1 <= stage (tasks s !! j) <= 4 /\ stage (tasks s' !! j) = S (stage (tasks s !! j)) \/
   (stage (tasks s !! j) = 0 \/ stage (tasks s !! j) = 5) /\
   stage (tasks s' !! j) = stage (tasks s !! j)).
Proof.
  intros Hsv. simpl. unfold task_step.
  destruct (tasks s !! j) as [p|] eqn:Hj; simpl.
  - destruct (Hsv ltac:(eauto)) as [sv ->].
    destruct p; simpl; try case_decide; try destruct deferred; simpl.
    all: try (split; [apply frame_refl | right; rewrite Hj; simpl; split; [lia|done]]).
    all: split; [by apply frame_set_task; rewrite ?Hj|].
    all: left; rewrite lookup_insert_eq; simpl; lia.
  - destruct (services vol !! j); simpl.
    all: split; [apply frame_refl | right; rewrite Hj; simpl; split; [lia|done]].
Qed.

(** A goroutine that can leave its [select] is run to its end by
    [finish_task]. *)
Lemma finish_one j s :
  (is_Some (tasks s !! j) -> is_Some (services vol !! j)) ->
  (stage (tasks s !! j) = 0 -> signal s = true \/ ctx_done s = true) ->
  frame j s (exec (finish_task j) s) /\ stage (tasks (exec (finish_task j) s) !! j) = 5.
Proof.
  intros Hsv Hg. unfold finish_task. rewrite !exec_cons.
  change (exec [] ?x) with x.
  destruct (task_go_spec j s) as [F1 G1]. cbv zeta in F1, G1.
  set (s1 := default s (step manifest vol s (ATaskGo j))) in *.
  destruct (task_step_spec j s1) as [F2 G2].
  { destruct F1 as (_ & _ & _ & _ & -> & _). done. }
  cbv zeta in F2, G2. set (s2 := default s1 (step manifest vol s1 (ATask j))) in *.
  destruct (task_step_spec j s2) as [F3 G3].
  { destruct F1 as (_ & _ & _ & _ & E1 & _), F2 as (_ & _ & _ & _ & E2 & _). tauto. }
  cbv zeta in F3, G3. set (s3 := default s2 (step manifest vol s2 (ATask j))) in *.
  destruct (task_step_spec j s3) as [F4 G4].
  { destruct F1 as (_ & _ & _ & _ & E1 & _), F2 as (_ & _ & _ & _ & E2 & _),
      F3 as (_ & _ & _ & _ & E3 & _). tauto. }
  cbv zeta in F4, G4. set (s4 := default s3 (step manifest vol s3 (ATask j))) in *.
  destruct (task_step_spec j s4) as [F5 G5].
  { destruct F1 as (_ & _ & _ & _ & E1 & _), F2 as (_ & _ & _ & _ & E2 & _),
      F3 as (_ & _ & _ & _ & E3 & _), F4 as (_ & _ & _ & _ & E4 & _). tauto. }
  cbv zeta in F5, G5. set (s5 := default s4 (step manifest vol s4 (ATask j))) in *.
  destruct (task_done_spec j s5) as [F6 G6].
  cbv zeta in F6, G6. set (s6 := default s5 (step manifest vol s5 (ATaskDone j))) in *.
  pose proof (frame_trans _ _ _ _ F1 F2) as T2.
  pose proof (frame_trans _ _ _ _ T2 F3) as T3.
  pose proof (frame_trans _ _ _ _ T3 F4) as T4.
  pose proof (frame_trans _ _ _ _ T4 F5) as T5.
  pose proof (frame_trans _ _ _ _ T5 F6) as T6.
  split; [done|].
  destruct T5 as (_ & _ & C5 & _).
  destruct (signal s) eqn:Hsig, (ctx_done s) eqn:Hctx; rewrite ?C5 in *; lia.
Qed.

Lemma finish_all i s :
  (forall j, is_Some (tasks s !! j) -> is_Some (services vol !! j)) ->
  (forall j, stage (tasks s !! j) = 0 -> signal s = true \/ ctx_done s = true) ->
  let s' := exec (flat_map finish_task (seq 0 i)) s in
  pc s' = pc s /\ signal s' = signal s /\ ctx_done s' = ctx_done s /\
  vol_clients s' = vol_clients s /\
  (forall j, is_Some (tasks s' !! j) <-> is_Some (tasks s !! j)) /\
  (forall j, i <= j -> tasks s' !! j = tasks s !! j) /\
  (forall j, j < i -> stage (tasks s' !! j) = 5).
Proof.
  intros Hsv Hg. cbv zeta. induction i as [|i IH].
  { change (exec (flat_map finish_task (seq 0 0)) s) with s.
    repeat split; try done. intros; lia. }
  rewrite seq_snoc, flat_map_app, exec_app.
  destruct IH as (I1 & I2 & I3 & I4 & I5 & I6 & I7).
  set (s1 := exec (flat_map finish_task (seq 0 i)) s) in *.
  change (flat_map finish_task [i]) with (finish_task i ++ []). rewrite app_nil_r.
  destruct (finish_one i s1) as [(F1 & F2 & F3 & F4 & F5 & F6) F7].
  { rewrite I5. apply Hsv. }
  { rewrite I6 by lia. rewrite I2, I3. apply Hg. }
  repeat split; try congruence.
  - intros H. destruct (decide (j = i)) as [->|Hne]; [by apply I5, F5|].
    rewrite F6 in H by done. by apply I5.
  - intros H. destruct (decide (j = i)) as [->|Hne]; [apply F5; by apply I5|].
    rewrite F6 by done. by apply I5.
  - intros j Hj. rewrite F6 by lia. apply I6. lia.
  - intros j Hj. destruct (decide (j = i)) as [->|Hne]; [done|].
    rewrite F6 by done. apply I7. lia.
Qed.

Lemma main_to_ret K s :
  late (pc s) = true -> (pc s = PcWait -> wg s = 0) ->
  to_ret (length (vol_clients s)) (pc s) <= K ->
  let s' := exec (repeat AMain K) s in
  (exists r, pc s' = PcReturned r) /\ tasks s' = tasks s.
Proof.
  revert s. induction K as [|K IH]; intros s Hl Hw HK; simpl.
  - destruct (pc s); simpl in *; try done; try lia. eauto.
  - destruct (main_step manifest vol s) as [s1|] eqn:Hs; simpl.
    + destruct (main_step_late _ _ Hl Hs) as (L1 & L2 & L3 & L4 & L5).
      destruct (IH s1) as [R1 R2]; [done| |lia|].
      * intros Hpc. unfold main_step in Hs. destruct (pc s); try done.
        -- case_decide; simplify_eq. 
        -- destruct (vol_clients s !! k); simplify_eq.
      * split; [done|]. congruence.
    + unfold main_step in Hs. destruct (pc s) eqn:Hpc; simpl in *; try done.
      * rewrite Hw in Hs by done. done.
      * destruct (vol_clients s !! k); done.
      * destruct (IH s) as [R1 R2]; [by rewrite Hpc| by rewrite Hpc | rewrite Hpc; simpl; lia |].
        done.
Qed.

Lemma live_tasks_exited (t : gmap nat TaskPc) :
  (forall j p, t !! j = Some p -> p = TExited) -> live_tasks t = 0.
Proof.
  intros Hall. unfold live_tasks. apply map_size_empty_iff, map_empty.
  intros j. rewrite live_tasks_lookup. destruct (t !! j) as [p|] eqn:Hj; [|done].
  rewrite (Hall _ _ Hj). by rewrite decide_True.
Qed.

Lemma stage_5 o : stage o = 5 -> forall p, o = Some p -> p = TExited.
Proof. intros H p ->. by destruct p. Qed.

(** What [finish_task] needs holds of every goroutine once the caller is
    past [gogo()] or on its way out. *)
Lemma late_tasks s : Inv manifest vol s -> Inv2 manifest vol s -> late (pc s) = true ->
  (forall j, is_Some (tasks s !! j) -> is_Some (services vol !! j)) /\
  (forall j, stage (tasks s !! j) = 0 -> signal s = true \/ ctx_done s = true).
Proof.
  intros HI HI2 Hl. split.
  - intros j Hj. apply (inv2_boot _ _ _ HI2) in Hj. apply svc_init_ids_in in Hj.
    destruct (inv2_svc_order _ _ _ HI2) as (P & H1 & H2 & _).
    rewrite H2 in Hj. apply elem_of_rev_seq in Hj. apply lookup_lt_is_Some. lia.
  - intros j Hj.
    pose proof (inv_signal _ _ _ HI) as Hs.
    pose proof (inv_shutdown _ _ _ HI) as Hsh.
    pose proof (inv_phase1 _ _ _ HI) as Hp. unfold in_phase1, ctx_done in *.
    destruct (pc s) as [| | | | |k [e|]|[e|]]; simpl in *; try done; auto.
    + right. destruct Hsh as (_ & _ & ->). by rewrite !orb_true_r.
    + destruct (ctx_run s); simpl in *; [right; by rewrite !orb_true_r|].
      destruct (Hp eq_refl) as (T1 & _). by rewrite T1, lookup_empty in Hj.
Qed.

End Drain.

(** X7.  [Run] cannot get stuck, and leaves no goroutine behind: from every
    state it can reach, on whatever schedule, letting the caller run, then
    every service goroutine (with each implementation's [Run] returning),
    then the caller again, [Run] has returned and every goroutine that
    [service.boot] started has exited.  This covers the schedules on which a
    service's [Init] failed after earlier services' goroutines were started:
    the deferred [cancel] of [Voltron.run] lets them out of their [select]. *)
Theorem Run_never_deadlocks (manifest : list client) (vol : Voltron)
    (sched : list Action) :
  let s := exec manifest vol
             (sched ++ drain (length manifest) (length (services vol))) New in
  (exists r, pc s = PcReturned r) /\
  (forall j p, tasks s !! j = Some p -> p = TExited).
Proof.
  intros s. unfold drain in s.
  set (A := repeat AMain (length manifest + length (services vol) + 4)) in *.
  set (B := flat_map finish_task (seq 0 (length (services vol)))) in *.
  set (C := repeat AMain (length manifest + 2)) in *.
  set (s0 := exec manifest vol sched New).
  set (sA := exec manifest vol A s0).
  set (sB := exec manifest vol B sA).
  assert (Hs : s = exec manifest vol C sB).
  { unfold s, sB, sA, s0. by rewrite !exec_app. }
  assert (HIA : Inv manifest vol sA).
  { unfold sA, s0. rewrite <- exec_app. apply Inv_reachable. }
  assert (HIA2 : Inv2 manifest vol sA).
  { unfold sA, s0. rewrite <- exec_app. apply Inv2_reachable. }
  assert (HIB : Inv manifest vol sB).
  { unfold sB, sA, s0. rewrite <- !exec_app. apply Inv_reachable. }
  assert (HIB2 : Inv2 manifest vol sB).
  { unfold sB, sA, s0. rewrite <- !exec_app. apply Inv2_reachable. }
  assert (HlA : late (pc sA) = true).
  { apply main_to_late. destruct (pc s0); simpl; lia. }
  destruct (late_tasks _ _ _ HIA HIA2 HlA) as [Hsv Hg].
  destruct (finish_all manifest vol (length (services vol)) sA Hsv Hg)
    as (B1 & B2 & B3 & B4 & B5 & B6 & B7). fold B sB in B1, B2, B3, B4, B5, B6, B7.
  assert (Hex : forall j p, tasks sB !! j = Some p -> p = TExited).
  { intros j p Hj. destruct (decide (j < length (services vol))) as [Hlt|Hge].
    - by apply (stage_5 _ (B7 _ Hlt)).
    - assert (is_Some (tasks sA !! j)) as Hsome by (apply B5; eauto).
      apply Hsv, lookup_lt_is_Some in Hsome. lia. }
  destruct (main_to_ret manifest vol (length manifest + 2) sB) as [R1 R2].
  - by rewrite B1.
  - intros _. rewrite (inv2_wg _ _ _ HIB2). by apply live_tasks_exited.
  - pose proof (inv_clients_le _ _ _ HIB).
    destruct (pc sB); simpl; lia.
  - fold C in R1, R2. rewrite <- Hs in R1, R2. split; [done|]. by rewrite R2.
Qed.

Lemma notify_cases rt ev w t :
  let '(w', t') := Watcher.notify rt ev w t in
  c w' = c w /\
  (options w', endpoints w') = (if effective ev w then replay (options w, endpoints w) ev
                                else (options w, endpoints w)) /\
  t' = (if effective ev w then Watcher.reinit_trace rt w' t else t).
Proof.
  destruct ev as [key value|key|endpoint|id]; simpl.
  - unfold Watcher.OnSetenv. case_decide; [rewrite bool_decide_eq_true_2 by done
                                          |rewrite bool_decide_eq_false_2 by done]; done.
  - unfold Watcher.OnDelenv. case_decide; [rewrite bool_decide_eq_true_2 by done
                                          |rewrite bool_decide_eq_false_2 by done]; done.
  - unfold Watcher.OnUpdateEndpoint. destruct (Watcher.unchanged endpoint w); done.
  - unfold Watcher.OnDeleteEndpoint. destruct (endpoints w !! id) eqn:Hid.
    + rewrite bool_decide_eq_true_2 by eauto. done.
    + rewrite bool_decide_eq_false_2 by (by intros []). done.
Qed.

Lemma notify_same rt ev w t :
  effective ev w = false -> Watcher.notify rt ev w t = (w, t).
Proof.
  destruct ev as [key value|key|endpoint|id]; simpl.
  - intros H%bool_decide_eq_false. unfold Watcher.OnSetenv. by rewrite decide_False.
  - intros H%bool_decide_eq_false. unfold Watcher.OnDelenv. by rewrite decide_False.
  - intros H%negb_false_iff. by apply OnUpdateEndpoint_same.
  - intros H%bool_decide_eq_false. unfold Watcher.OnDeleteEndpoint.
    destruct (endpoints w !! id); [|done]. destruct H. eauto.
Qed.

Lemma keyed_replay ev o m : keyed m -> keyed (replay (o, m) ev).2.
Proof.
  intros Hk. destruct ev as [key value|key|endpoint|id]; simpl; try case_decide; try done.
  - intros id ep. destruct (decide (id = ID endpoint)) as [->|Hne].
    + rewrite lookup_insert_eq. by intros [= <-].
    + rewrite lookup_insert_ne by done. apply Hk.
  - intros id' ep. destruct (decide (id' = id)) as [->|Hne].
    + by rewrite lookup_delete_eq.
    + rewrite lookup_delete_ne by done. apply Hk.
Qed.

(** With every endpoint filed under its ID, an update that the handler skips
    would not have changed the directory. *)
Lemma replay_skipped ev w :
  keyed (endpoints w) -> effective ev w = false ->
  replay (options w, endpoints w) ev = (options w, endpoints w).
Proof.
  intros Hk. destruct ev as [key value|key|endpoint|id]; simpl.
  - intros H%bool_decide_eq_false. by rewrite decide_False.
  - intros H%bool_decide_eq_false. by rewrite decide_False.
  - intros H%negb_false_iff. apply unchanged_true in H as (cached & H1 & H2 & H3).
    f_equal. apply insert_id. rewrite H1. f_equal.
    pose proof (Hk _ _ H1) as H4. destruct cached, endpoint; simpl in *; congruence.
  - intros H%bool_decide_eq_false. f_equal. apply delete_id.
    destruct (endpoints w !! id) eqn:E; [|done]. destruct H. eauto.
Qed.

Lemma notify_all_cons rt ev evs w t :
  notify_all rt (ev :: evs) w t =
  notify_all rt evs (Watcher.notify rt ev w t).1 (Watcher.notify rt ev w t).2.
Proof. simpl. unfold mbind, M_bind. by destruct (Watcher.notify rt ev w t). Qed.

(** One event: the watcher afterwards holds what replaying the event gives. *)
Lemma notify_replay (rt : Client) (ev : BrokerEvent) (w : discoveryWatcher) (t : Trace) :
  keyed (endpoints w) ->
  let w1 := (Watcher.notify rt ev w t).1 in
  (options w1, endpoints w1) = replay (options w, endpoints w) ev /\
  keyed (endpoints w1) /\ c w1 = c w.
Proof.
  intros Hk. cbv zeta. pose proof (notify_cases rt ev w t) as Hc.
  destruct (Watcher.notify rt ev w t) as [w1 t1]. destruct Hc as (C1 & C2 & _).
  simpl.
  assert (Hst : (options w1, endpoints w1) = replay (options w, endpoints w) ev).
  { rewrite C2. destruct (effective ev w) eqn:He; [done|]. by rewrite replay_skipped. }
  split; [done|]. split; [|done].
  change (endpoints w1) with (options w1, endpoints w1).2. rewrite Hst.
  by apply keyed_replay.
Qed.

(** X8.  The cache follows the events: whatever sequence of events the broker
    delivers, the watcher ends up holding the options value and the
    directory that result from replaying the events one by one with no
    cache at all -- the test that lets [OnUpdateEndpoint] and the others
    return early never loses an update.  Every endpoint stays filed under
    its own ID. *)
Theorem watcher_tracks_events (rt : Client) (evs : list BrokerEvent)
    (w : discoveryWatcher) (t : Trace) :
  keyed (endpoints w) ->
  let w' := (notify_all rt evs w t).1 in
  (options w', endpoints w') = foldl replay (options w, endpoints w) evs /\
  keyed (endpoints w') /\ c w' = c w.
Proof.
  revert w t. induction evs as [|ev evs IH]; intros w t Hk; [done|].
  rewrite notify_all_cons. cbv zeta.
  destruct (notify_replay rt ev w t Hk) as (Hst & Hk1 & Hc1).
  destruct (IH _ (Watcher.notify rt ev w t).2 Hk1) as (I1 & I2 & I3).
  simpl. split; [by rewrite I1, Hst|]. split; [done|congruence].
Qed.

Lemma watcher_tracks_events_witness :
  let evs := [EndpointUpdate Sample.e1; EndpointUpdate Sample.n1; EndpointDelete "e1"] in
  let w' := (notify_all Sample.failingClient evs Sample.w1 []).1 in
  keyed (endpoints Sample.w1) /\
  (options w', endpoints w') = foldl replay ("{}", {[ "e1" := Sample.e1 ]}) evs /\
  keyed (endpoints w').
Proof.
  cbv zeta.
  assert (Hk : keyed (endpoints Sample.w1)).
  { intros id ep. simpl. intros [<- <-]%lookup_singleton_Some. done. }
  split; [exact Hk|].
  destruct (watcher_tracks_events Sample.failingClient
              [EndpointUpdate Sample.e1; EndpointUpdate Sample.n1; EndpointDelete "e1"]
              Sample.w1 [] Hk) as (H1 & H2 & _).
  split; [exact H1 | exact H2].
Defined.

(** X9.  The client is never left with an older view than the watcher's:
    after any sequence of events, either no handler got as far as [reinit]
    and watcher and trace are what they were, or the newest two events of the
    trace are a [NewOptions] built from exactly the options and the directory
    the watcher holds now, and the [ReInit] that was given it. *)
Theorem client_offered_newest (rt : Client) (evs : list BrokerEvent)
    (w : discoveryWatcher) (t : Trace) :
  let w' := (notify_all rt evs w t).1 in
  let t' := (notify_all rt evs w t).2 in
  (w' = w /\ t' = t /\ forallb (fun ev => negb (effective ev w)) evs = true) \/
  (exists h, t' = Watcher.reinit_trace rt w' h).
Proof.
  revert w t. induction evs as [|ev evs IH]; intros w t; [by left|].
  rewrite notify_all_cons. cbv zeta.
  destruct (effective ev w) eqn:He.
  - pose proof (notify_cases rt ev w t) as Hc.
    destruct (Watcher.notify rt ev w t) as [w1 t1]. destruct Hc as (C1 & C2 & C3).
    rewrite He in C3. simpl.
    destruct (IH w1 t1) as [(I1 & I2 & _)|(h & I)]; right.
    + exists t. cbv zeta in I1, I2. by rewrite I1, I2.
    + by exists h.
  - rewrite (notify_same _ _ _ _ He). simpl. rewrite He. simpl. apply IH.
Qed.

Lemma keyed_directory_ids (m : gmap string Endpoint) :
  keyed m -> ID <$> (map_to_list m).*2 = (map_to_list m).*1.
Proof.
  intros Hk.
  assert (Hall : Forall (fun kv : string * Endpoint => ID kv.2 = kv.1) (map_to_list m)).
  { apply Forall_forall. intros [id ep] Hin%elem_of_map_to_list. simpl. by apply Hk. }
  induction Hall as [|kv l Hkv _ IH]; [done|]. rewrite !fmap_cons. by rewrite Hkv, IH.
Qed.

Lemma keyed_directory_NoDup w :
  keyed (endpoints w) -> NoDup (ID <$> Watcher.directory w).
Proof.
  intros Hk. unfold Watcher.directory. rewrite keyed_directory_ids by done.
  apply NoDup_fst_map_to_list.
Qed.

(** X10.  Whatever sequence of events the broker delivers to a watcher whose
    endpoints are filed under their IDs, the handlers only add to the trace,
    and what they add are calls to the watcher's own client alone: a
    [NewOptions] with a list of endpoints in which no ID occurs twice, or a
    [ReInit]. *)
Theorem reinit_endpoints_distinct (rt : Client) (evs : list BrokerEvent)
    (w : discoveryWatcher) (t : Trace) :
  keyed (endpoints w) ->
  exists new, (notify_all rt evs w t).2 = new ++ t /\
    forall e, e ∈ new ->
      (exists o d, e = EvNewOptions (c w) o d /\ NoDup (ID <$> d)) \/
      (exists r, e = EvClientReInit (c w) r).
Proof.
  revert w t. induction evs as [|ev evs IH]; intros w t Hk.
  { exists []. split; [done|]. intros e Hin. by apply elem_of_nil in Hin. }
  rewrite notify_all_cons.
  destruct (notify_replay rt ev w t Hk) as (_ & Hk1 & Hc1).
  pose proof (notify_cases rt ev w t) as Hc.
  destruct (Watcher.notify rt ev w t) as [w1 t1]. destruct Hc as (_ & _ & C3).
  simpl in *. destruct (IH w1 t1 Hk1) as (new & I1 & I2). rewrite I1.
  rewrite Hc1 in I2.
  destruct (effective ev w).
  - rewrite C3, reinit_trace_eq.
    exists (new ++ [EvClientReInit (c w1)
                      (cl_ReInit rt (EvNewOptions (c w1) (options w1) (Watcher.directory w1) :: t));
                    EvNewOptions (c w1) (options w1) (Watcher.directory w1)]).
    split; [by rewrite <- app_assoc|].
    intros e [Hin|Hin]%elem_of_app; [by apply I2|].
    apply elem_of_cons in Hin as [->|Hin]; [right; rewrite Hc1; eauto|].
    apply elem_of_cons in Hin as [->|Hin]; [|by apply elem_of_nil in Hin].
    left. rewrite Hc1. eexists _, _. split; [done|]. by apply keyed_directory_NoDup.
  - subst t1. exists new. done.
Qed.

Lemma reinit_endpoints_distinct_witness :
  exists new,
    (notify_all Sample.okClient [EndpointUpdate Sample.n1; ConfigSet "options" "{}"]
       Sample.w1 []).2 = new ++ [] /\
    forall e, e ∈ new ->
      (exists o d, e = EvNewOptions 0 o d /\ NoDup (ID <$> d)) \/
      (exists r, e = EvClientReInit 0 r).
Proof.
  apply (reinit_endpoints_distinct Sample.okClient
           [EndpointUpdate Sample.n1; ConfigSet "options" "{}"] Sample.w1 []).
  intros id ep. simpl. intros [<- <-]%lookup_singleton_Some. done.
Defined.

Lemma foldl_insert_lookup (l : list Endpoint) (m0 : gmap string Endpoint) id :
  foldl (fun m ep => <[ID ep := ep]> m) m0 l !! id =
  match last (filter (fun ep => ID ep = id) l) with
  | Some ep => Some ep
  | None => m0 !! id
  end.
Proof.
  revert m0. induction l as [|ep l IH]; intros m0; simpl; [done|].
  rewrite IH, filter_cons. case_decide as Hid.
  - rewrite last_cons. destruct (last (filter _ l)); [done|].
    subst id. by rewrite lookup_insert_eq.
  - destruct (last (filter _ l)); [done|]. by rewrite lookup_insert_ne.
Qed.

Lemma foldl_insert_size (l : list Endpoint) (m0 : gmap string Endpoint) :
  size (foldl (fun m ep => <[ID ep := ep]> m) m0 l) <= size m0 + length l.
Proof.
  revert m0. induction l as [|ep l IH]; intros m0; simpl; [lia|].
  etransitivity; [apply IH|]. rewrite map_size_insert.
  destruct (m0 !! ID ep); simpl; lia.
Qed.

Lemma filter_ID_NoDup (l : list Endpoint) ep :
  NoDup (ID <$> l) -> ep ∈ l -> filter (fun e => ID e = ID ep) l = [ep].
Proof.
  induction l as [|e l IH]; [by intros _ ?%elem_of_nil|].
  rewrite fmap_cons, NoDup_cons. intros [Hnin Hnd] Hin.
  apply elem_of_cons in Hin as [Heq0|Hin]; [subst e|].
  - rewrite filter_cons, decide_True by done. f_equal.
    destruct (filter (fun e => ID e = ID ep) l) as [|x l'] eqn:E; [done|].
    assert (x ∈ filter (fun e => ID e = ID ep) l) as [Heq He]%list_elem_of_filter.
    { rewrite E. apply elem_of_cons. by left. }
    destruct Hnin. rewrite <- Heq. apply list_elem_of_fmap. eauto.
  - rewrite filter_cons, decide_False; [by apply IH|].
    intros Heq. apply Hnin. rewrite Heq. apply list_elem_of_fmap. eauto.
Qed.

(** X11.  What [discoveryWatcher.Init] caches and what it hands to the
    client: the cache holds, for every ID, the last endpoint of that ID in
    the broker's list, each filed under its own ID, so it never has more
    entries than the list; the implementation's [NewOptions] is given the
    broker's list as it is, repeated IDs included; the two agree up to order
    when no ID is repeated.  The watcher is registered with the broker
    whatever [Init] returned. *)
Theorem Init_directory (k : nat) (rt : Client) (b : Broker) (t : Trace) :
  let b' := (Watcher.Init k rt b t).1.2 in
  let t' := (Watcher.Init k rt b t).2 in
  exists w, watcher b' = Some w /\ c w = k /\ options w = Getenv b "options" /\
    keyed (endpoints w) /\
    (forall id, endpoints w !! id = last (filter (fun ep => ID ep = id) (Endpoints b))) /\
    EvNewOptions k (options w) (Endpoints b) ∈ t' /\
    length (Watcher.directory w) <= length (Endpoints b) /\
    (NoDup (ID <$> Endpoints b) -> Watcher.directory w ≡ₚ Endpoints b).
Proof.
  cbv zeta. unfold Watcher.Init. simpl.
  set (m := foldl (fun m ep => <[ID ep := ep]> m) ∅ (Endpoints b)).
  assert (Hl : forall id, m !! id = last (filter (fun ep => ID ep = id) (Endpoints b))).
  { intros id. unfold m. rewrite foldl_insert_lookup, lookup_empty.
    by destruct (last _). }
  assert (Hin : forall id ep, m !! id = Some ep -> ep ∈ Endpoints b /\ ID ep = id).
  { intros id ep. rewrite Hl. intros (l' & Hl')%last_Some.
    assert (ep ∈ filter (fun ep => ID ep = id) (Endpoints b)) as He.
    { rewrite Hl'. apply elem_of_app. right. apply elem_of_cons. by left. }
    by apply list_elem_of_filter in He as [? ?]. }
  assert (Hk : keyed m) by (intros id ep H; by apply Hin in H as [_ ?]).
  eexists. split; [done|]. simpl. repeat split; try done.
  - do 2 (apply elem_of_cons; right). apply elem_of_cons. by left.
  - unfold Watcher.directory. simpl. rewrite length_fmap, length_map_to_list.
    etransitivity; [apply foldl_insert_size|]. rewrite map_size_empty. lia.
  - intros Hnd. apply NoDup_Permutation.
    + apply (NoDup_fmap_1 ID). by apply (keyed_directory_NoDup {| c := k; options := ""; endpoints := m |}).
    + by apply (NoDup_fmap_1 ID).
    + intros ep. unfold Watcher.directory. simpl. rewrite list_elem_of_fmap. split.
      * intros ([id ep'] & -> & H%elem_of_map_to_list). simpl. by apply Hin in H as [? _].
      * intros He. exists (ID ep, ep). split; [done|]. apply elem_of_map_to_list.
        rewrite Hl, (filter_ID_NoDup _ _ Hnd He). done.
Qed.

(** ** The watchers in [Run] *)

Lemma count_app p (l t : Trace) : count p (l ++ t) = count p l + count p t.
Proof. induction l as [|e l IH]; simpl; [done|]. rewrite IH. lia. Qed.

Lemma count_plain p (l : Trace) :
  (forall e, p e = true -> is_watcher_event e = true) ->
  Forall (fun e => is_watcher_event e = false) l -> count p l = 0.
Proof.
  intros Hp. induction 1 as [|e l He _ IH]; simpl; [done|].
  destruct (p e) eqn:E; [|done]. apply Hp in E. congruence.
Qed.

Lemma hist_all_plain q R (l t : Trace) :
  (forall e, q e = true -> is_watcher_event e = true) ->
  Forall (fun e => is_watcher_event e = false) l ->
  hist_all q R t -> hist_all q R (l ++ t).
Proof.
  intros Hq. induction 1 as [|e l He _ IH]; simpl; [done|].
  intros Ht. split; [|auto]. destruct (q e) eqn:E; [|done]. apply Hq in E. congruence.
Qed.

(** A step that adds up to three events, none of them a watcher's. *)
Ltac plain_step :=
  left;
  first [ exists []; by repeat split
        | eexists [_]; by repeat split; simpl; repeat constructor
        | eexists [_; _]; by repeat split; simpl; repeat constructor
        | eexists [_; _; _]; by repeat split; simpl; repeat constructor ].

Section Brokers.
Variable manifest : list client.
Variable vol : Voltron.
#[local] Abbreviation BInv := (BInv manifest).

(** What a step does to the trace and to the brokers. *)
Lemma step_brokers s a s' :
  step manifest vol s a = Some s' ->
  (exists new, trace s' = new ++ trace s /\ brokers s' = brokers s /\
     Forall (fun e => is_watcher_event e = false) new) \/
  (exists k b w r o d,
     discovery_bound manifest k /\ brokers s' = <[k := b]> (brokers s) /\
     watcher b = Some w /\ c w = k /\
     trace s' = EvWatch k :: EvClientInit k r :: EvNewOptions k o d
                  :: EvNewBroker k None :: trace s) \/
  (exists k ev b cl,
     a = ADeliver k ev /\ brokers s !! k = Some b /\ manifest !! k = Some cl /\
     brokers s' = <[k := (Watcher.deliver (client_rt cl) ev b (trace s)).1]> (brokers s) /\
     trace s' = (Watcher.deliver (client_rt cl) ev b (trace s)).2).
Proof.
  destruct a as [| |k ev|j|j|j]; simpl.
  - unfold main_step. destruct (pc s) as [|k|j| | |k r|r] eqn:Hpc.
    + destruct (cluster vol); intros [= <-]; plain_step.
    + destruct (manifest !! k) as [cl|] eqn:Hk; [|intros [= <-]; plain_step].
      unfold init_client, initBroker.
      destruct (client_options cl) as [srv|srv] eqn:Ho.
      * simpl. unfold call. destruct (cl_Init _ _); intros [= <-]; plain_step.
      * destruct (cluster vol) as [cl0|].
        -- destruct (NewBroker cl0 srv) as [e|b]; simpl.
           ++ intros [= <-]. plain_step.
           ++ unfold call. destruct (cl_Init _ _); intros [= <-]; right; left.
              all: eexists k, _, _, _, _, _; split; [by exists cl, srv|].
              all: simpl; split; [reflexivity|]; split; [reflexivity|]; split; reflexivity.
        -- simpl. intros [= <-]. plain_step.
    + destruct (services vol !! j) as [sv|]; [|intros [= <-]; plain_step].
      unfold call. case_decide; simpl.
      all: match goal with |- context [sv_Init ?a ?b] => destruct (sv_Init a b) end.
      all: intros [= <-]; plain_step.
    + intros [= <-]. plain_step.
    + case_decide; [|done]. intros [= <-]. plain_step.
    + destruct (vol_clients s !! k); intros [= <-]; plain_step.
    + done.
  - intros [= <-]. plain_step.
  - unfold deliver_step. destruct (brokers s !! k) as [b|] eqn:Hb; [|done].
    destruct (manifest !! k) as [cl|] eqn:Hk; [|done].
    destruct (Watcher.deliver (client_rt cl) ev b (trace s)) as [b' t] eqn:Hd.
    intros [= <-]. right; right. exists k, ev, b, cl. rewrite Hd. by repeat split.
  - unfold task_done. destruct (tasks s !! j) as [[]|]; try done.
    destruct (ctx_done s); [|done]. intros [= <-]. plain_step.
  - unfold task_go. destruct (tasks s !! j) as [[]|]; try done.
    destruct (signal s); [|done]. intros [= <-]. plain_step.
  - unfold task_step. destruct (tasks s !! j) as [[| |d|d|d|]|]; try done.
    + destruct (services vol !! j) as [sv|]; [|done].
      case_decide; intros [= <-]; plain_step.
    + intros [= <-]. plain_step.
    + intros [= <-]. plain_step.
    + intros [= <-]. destruct d; plain_step.
Qed.

Lemma deliver_cases rt ev b w t :
  watcher b = Some w ->
  Watcher.deliver rt ev b t =
  (Watch (Watcher.notify rt ev w t).1 b, (Watcher.notify rt ev w t).2).
Proof.
  intros H. unfold Watcher.deliver. rewrite H. unfold mbind, M_bind.
  by destruct (Watcher.notify rt ev w t).
Qed.

Lemma BInv_step s a s' : BInv s -> step manifest vol s a = Some s' -> BInv s'.
Proof.
  intros [B1 B2 B3 B4] Hs.
  destruct (step_brokers _ _ _ Hs)
    as [(new & Ht & Hb & Hnew)
       |[(k & b & w & r & o & d & Hdb & Hb & Hw & Hc & Ht)
        |(k & ev & b & cl & _ & Hk & Hcl & Hb & Ht)]].
  - constructor; rewrite Ht, ?Hb.
    + intros k b Hk. destruct (B1 _ _ Hk) as (T1 & T2 & T3). rewrite count_app.
      split; [lia|done].
    + intros k [Hin|Hin]%elem_of_app; [|auto].
      rewrite Forall_forall in Hnew. by apply Hnew in Hin.
    + intros k. rewrite count_app, (count_plain _ new); [apply B3| |done].
      by intros [].
    + intros k. apply hist_all_plain; [by intros []|done|apply B4].
  - constructor; rewrite Ht, ?Hb.
    + intros k' b'. destruct (decide (k' = k)) as [->|Hne].
      * rewrite lookup_insert_eq. intros [= <-]. simpl.
        rewrite bool_decide_eq_true_2 by done. split; [lia|]. split; [done|eauto].
      * rewrite lookup_insert_ne by done. intros Hk'.
        destruct (B1 _ _ Hk') as (T1 & T2 & T3). simpl. split; [lia|done].
    + intros k' Hin. apply lookup_insert_is_Some.
      destruct (decide (k = k')) as [|Hne]; [by left|right]. split; [done|].
      apply B2. peel Hin. done.
    + intros k' Hk'. simpl in Hk'. apply lookup_insert_is_Some.
      destruct (decide (k = k')) as [|Hne]; [by left|right]. split; [done|]. by apply B3.
    + intros k'. simpl. by repeat split.
  - destruct (B1 _ _ Hk) as (T1 & T2 & w & Hw & Hc).
    rewrite (deliver_cases _ _ _ _ _ Hw) in Hb, Ht. simpl in Hb, Ht.
    pose proof (notify_cases (client_rt cl) ev w (trace s)) as Hn.
    destruct (Watcher.notify (client_rt cl) ev w (trace s)) as [w' t']. simpl in *.
    destruct Hn as (N1 & _ & N3). rewrite Hc in N1.
    assert (Hkeep : forall k', is_Some (brokers s !! k') -> is_Some (brokers s' !! k')).
    { intros k' H. rewrite Hb. apply lookup_insert_is_Some.
      destruct (decide (k = k')); [by left|by right]. }
    assert (Hold : forall k' b', brokers s' !! k' = Some b' ->
              0 < count (is_client_init k') (trace s) /\ discovery_bound manifest k' /\
              exists w, watcher b' = Some w /\ c w = k').
    { intros k' b'. rewrite Hb. destruct (decide (k' = k)) as [->|Hne].
      - rewrite lookup_insert_eq. intros [= <-]. simpl. eauto.
      - rewrite lookup_insert_ne by done. apply B1. }
    destruct (effective ev w).
    + constructor; rewrite Ht, N3, reinit_trace_eq, N1; simpl.
      * intros k' b' Hk'. by apply Hold.
      * intros k' Hin. apply Hkeep, B2. peel Hin. done.
      * intros k'. case_bool_decide; [subst k'; intros _; apply Hkeep; eauto|].
        intros Hpos. by apply Hkeep, B3.
      * intros k'. split; [|split; [done|apply B4]].
        case_bool_decide; [by subst k'|done].
    + rewrite N3 in Ht. constructor; rewrite Ht; auto.
Qed.

Lemma BInv_New : BInv New.
Proof.
  constructor; simpl; try done.
  - intros k H. by apply elem_of_nil in H.
  - intros k H. lia.
Qed.

Lemma BInv_reachable sched : BInv (exec manifest vol sched New).
Proof.
  assert (H : forall s, BInv s -> BInv (exec manifest vol sched s)).
  { induction sched as [|a sched IH]; intros s HB; simpl; [done|].
    destruct (step manifest vol s a) as [s'|] eqn:Hs; simpl; [|by apply IH].
    apply IH. by eapply BInv_step. }
  apply H, BInv_New.
Qed.

End Brokers.

(** X12.  A watcher is registered for good.  Once [Watch] has been called
    for a client, then in every state [Run] reaches afterwards -- also after
    that client's [Init] failed, after its [Shutdown], after [Run] returned
    -- the broker still holds the watcher, and an event delivered to it is
    handled as ever: it calls the client's [ReInit] once if the handler gets
    as far as [reinit], and leaves the caller where it is. *)
Theorem watcher_never_unregistered (manifest : list client) (vol : Voltron)
    (sched : list Action) (k : nat) (ev : BrokerEvent) :
  let s := exec manifest vol sched New in
  EvWatch k ∈ trace s ->
  exists b w cl,
    brokers s !! k = Some b /\ watcher b = Some w /\ c w = k /\ manifest !! k = Some cl /\
    let s' := exec manifest vol [ADeliver k ev] s in
    pc s' = pc s /\
    count (is_reinit k) (trace s') =
    count (is_reinit k) (trace s) + (if effective ev w then 1 else 0).
Proof.
  intros s Hin. pose proof (BInv_reachable manifest vol sched) as HB. fold s in HB.
  destruct (b_watch _ _ HB _ Hin) as [b Hb].
  destruct (b_known _ _ HB _ _ Hb) as (_ & (cl & srv & Hcl & _) & w & Hw & Hc).
  exists b, w, cl. do 4 (split; [done|]). cbv zeta.
  simpl; unfold deliver_step; rewrite Hb, Hcl, (deliver_cases _ _ _ _ _ Hw).
  pose proof (notify_cases (client_rt cl) ev w (trace s)) as Hn.
  destruct (Watcher.notify (client_rt cl) ev w (trace s)) as [w' t']; simpl.
  split; [done|].
  destruct Hn as (N1 & _ & ->). destruct (effective ev w); [|lia].
  rewrite <- Hc, <- N1, count_reinit_trace. lia.
Qed.

Lemma watcher_never_unregistered_witness :
  let s := exec Sample.manifest2 Sample.vol1 Sample.schedAll New in
  let s' := exec Sample.manifest2 Sample.vol1 [ADeliver 1 (ConfigSet "options" "{}")] s in
  pc s = PcReturned None /\ EvClientShutdown 1 ∈ trace s /\
  count (is_reinit 1) (trace s') = count (is_reinit 1) (trace s) + 1.
Proof.
  cbv zeta. split; [reflexivity|]. split.
  { vm_compute. apply elem_of_cons. by left. }
  assert (Hin : EvWatch 1 ∈ trace (exec Sample.manifest2 Sample.vol1 Sample.schedAll New)).
  { vm_compute. do 10 (apply elem_of_cons; right). apply elem_of_cons. by left. }
  destruct (watcher_never_unregistered Sample.manifest2 Sample.vol1 Sample.schedAll 1
              (ConfigSet "options" "{}") Hin) as (b & w & cl & _ & _ & _ & _ & _ & H).
  exact H.
Defined.

(** X13.  [ReInit] comes after [Init], and only to clients bound by
    discovery: on every schedule, whenever the [ReInit] of a client is
    called, that client's [Init] has been called exactly once before, and
    the client was registered with [Discovery] options; the [ReInit] of a
    client registered with options of its own is never called. *)
Theorem ReInit_only_after_Init (manifest : list client) (vol : Voltron)
    (sched : list Action) (k : nat) :
  let s := exec manifest vol sched New in
  hist_all (is_reinit k) (fun h => count (is_client_init k) h = 1) (trace s) /\
  (0 < count (is_reinit k) (trace s) -> discovery_bound manifest k) /\
  (forall cl srvname, manifest !! k = Some cl ->
     client_options cl = StaticOptions srvname -> count (is_reinit k) (trace s) = 0).
Proof.
  intros s. pose proof (BInv_reachable manifest vol sched) as HB. fold s in HB.
  assert (Hd : 0 < count (is_reinit k) (trace s) -> discovery_bound manifest k).
  { intros Hpos. destruct (b_reinit _ _ HB _ Hpos) as [b Hb].
    by destruct (b_known _ _ HB _ _ Hb) as (_ & ? & _). }
  split; [|split; [done|]].
  - eapply hist_all_suffix; [|apply (b_h_reinit _ _ HB)].
    intros newer h Heq Hpos. cbv beta in Hpos.
    pose proof (count_init_le_1 manifest vol sched k) as Hle. fold s in Hle.
    rewrite Heq, count_app in Hle. lia.
  - intros cl srv Hcl Ho. destruct (count (is_reinit k) (trace s)) eqn:E; [done|].
    destruct (Hd ltac:(lia)) as (cl' & srv' & Hcl' & Ho'). congruence.
Qed.

Section Preserve3.
Variable manifest : list client.
Variable vol : Voltron.
#[local] Abbreviation Inv := (Inv manifest vol).
#[local] Abbreviation Inv2 := (Inv2 manifest vol).
#[local] Abbreviation Step := (Step manifest vol).

Lemma Inv3_step s s' : Inv s -> Inv2 s -> Inv3 s -> Step s s' -> Inv3 s'.
Proof.
  intros HI HI2 [H1 H2 H3] HS.
  pose proof (inv2_waited _ _ _ HI2) as Hw.
  pose proof (inv2_wg _ _ _ HI2) as Hlive.
  pose proof (inv_task_counts _ _ _ HI) as Htc.
  pose proof (inv_fresh _ _ _ HI) as Hf.
  unfold ctx_done in *.
  step_cases HS.
  all: constructor; simpl.
  all: try (rewrite Hpc in *; simpl in * ).
  all: rewrite ?denoise_around, ?denoise_noise by done; simpl.
  all: try solve [ done | eauto ].
  all: try solve [ intros Hc; destruct (H2 Hc) as [r0 Hr0]; done ].
  all: try solve [ intros j0 Hj0 Hc; destruct (H3 _ Hj0 Hc) as [?|[? ?]]; eauto; done ].
  all: intros j0 Hj0 Hc.
  all: destruct (decide (j0 = j)) as [->|Hne];
         [ rewrite lookup_insert_eq in Hj0; try done
         | rewrite lookup_insert_ne in Hj0 by done ].
  all: try solve [ destruct (H3 _ Hj0 Hc) as [?|[? ?]]; eauto; done ].
  all: try solve [ rewrite bool_decide_eq_false_2 in Hc by done;
                   destruct (H3 _ Hj0 Hc) as [?|[? ?]]; eauto; done ].
  all: try solve [ specialize (Htc j); rewrite Hj in Htc; unfold task_ok in Htc;
                   simpl in Hc; lia ].
  - destruct (ctx_caller s) eqn:E1; [by left|right].
    destruct (ctx_Run s) eqn:E2.
    { destruct (H2 eq_refl) as [r Hr]. rewrite Hr in *. simpl in *.
      destruct r as [e|]; [eauto|].
      rewrite Hw in Hlive. symmetry in Hlive.
      by pose proof (live_tasks_0 _ _ _ Hlive Hj). }
    unfold ctx_done in Hdone. rewrite E1, E2 in Hdone. simpl in Hdone.
    specialize (H1 Hdone).
    destruct (pc s) as [| | | | |k [e|]|[e|]]; simpl in *; try done; eauto.
    all: rewrite Hw in Hlive; symmetry in Hlive.
    all: by pose proof (live_tasks_0 _ _ _ Hlive Hj).
Qed.

Lemma Inv3_New : Inv3 New.
Proof. constructor; simpl; done. Qed.

Lemma Inv3_reachable sched : Inv3 (exec manifest vol sched New).
Proof.
  assert (H : forall s, Inv s -> Inv2 s -> Inv3 s ->
                        Inv3 (exec manifest vol sched s)).
  { induction sched as [|a sched IH]; intros s HI HI2 HI3; simpl; [done|].
    destruct (step manifest vol s a) as [s'|] eqn:Hs; simpl; [|by apply IH].
    apply step_Step in Hs.
    apply IH; [by eapply Inv_Step | by eapply Inv2_step | by eapply Inv3_step]. }
  apply H; [apply Inv_New | apply Inv2_New | apply Inv3_New].
Qed.

End Preserve3.

Lemma caused_cons e x t : caused e t -> caused e (x :: t).
Proof.
  intros [[k H]|[[k H]|[j H]]]; [left|right; left|right; right]; eexists;
    apply elem_of_cons; right; exact H.
Qed.

(** Look for the failed call among the newest events. *)
Ltac among_new :=
  repeat first [ apply elem_of_cons; left; reflexivity | apply elem_of_cons; right ].
Ltac find_cause :=
  first [ solve [ left; eexists; among_new ]
        | solve [ right; left; eexists; among_new ]
        | solve [ right; right; eexists; among_new ] ].

Section Cause.
Variable manifest : list client.
Variable vol : Voltron.
Variable joined : Cluster.
Hypothesis Hjoined : cluster vol = Some joined.

Lemma CInv_step s a s' : CInv s -> step manifest vol s a = Some s' -> CInv s'.
Proof.
  intros [C1 C2].
  assert (Hkeep : forall s0 : State, pc s0 = pc s -> trace s0 = trace s -> CInv s0).
  { intros s0 H1 H2. constructor; rewrite H1, H2; auto. }
  destruct a as [| |k ev|j|j|j]; simpl.
  - unfold main_step. destruct (pc s) as [|k|j| | |k r|r] eqn:Hpc.
    + rewrite Hjoined. intros [= <-]. constructor; simpl; [done|].
      intros k e Hin. by apply C2 in Hin.
    + destruct (manifest !! k) as [cl|] eqn:Hk.
      * unfold init_client, initBroker. rewrite Hjoined.
        destruct (client_options cl) as [srv|srv]; simpl.
        -- unfold call. destruct (cl_Init _ _) eqn:Hi; intros [= <-]; constructor; simpl.
           all: try (intros e0 He0; simplify_eq; find_cause).
           all: try done.
           all: intros k0 e0 Hin; peel Hin; by apply C2 in Hin.
        -- destruct (NewBroker joined srv) as [e|b]; simpl.
           ++ intros [= <-]. constructor; simpl.
              ** intros e0 He0; simplify_eq; find_cause.
              ** intros k0 e0 Hin; peel Hin; [done|]. by apply C2 in Hin.
           ++ unfold call. destruct (cl_Init _ _) eqn:Hi; intros [= <-]; constructor; simpl.
              all: try (intros e0 He0; simplify_eq; find_cause).
              all: try done.
              all: intros k0 e0 Hin; peel Hin; by apply C2 in Hin.
      * intros [= <-]. constructor; simpl; [done|].
        intros k0 e0 Hin. by apply C2 in Hin.
    + destruct (services vol !! j) as [sv|]. 
      * unfold call. case_decide; simpl.
        all: match goal with |- context [sv_Init ?a ?b] => destruct (sv_Init a b) end.
        all: intros [= <-]; constructor; simpl.
        all: try (intros e0 He0; simplify_eq; find_cause).
        all: try done.
        all: intros k0 e0 Hin; peel Hin; by apply C2 in Hin.
      * intros [= <-]. constructor; simpl; [done|].
        intros k0 e0 Hin. by apply C2 in Hin.
    + intros [= <-]. constructor; simpl; [done|].
      intros k0 e0 Hin; peel Hin; by apply C2 in Hin.
    + case_decide; [|done]. intros [= <-]. constructor; simpl; [done|].
      intros k0 e0 Hin. by apply C2 in Hin.
    + destruct (vol_clients s !! k); intros [= <-]; constructor; simpl.
      * intros e0 He0. by apply caused_cons, C1.
      * intros k0 e0 Hin; peel Hin; by apply C2 in Hin.
      * intros e0 He0. by apply C1.
      * intros k0 e0 Hin. by apply C2 in Hin.
    + done.
  - intros [= <-]. by apply Hkeep.
  - unfold deliver_step. destruct (brokers s !! k) as [b|] eqn:Hb; [|done].
    destruct (manifest !! k) as [cl|] eqn:Hk; [|done].
    destruct (watcher b) as [w|] eqn:Hw.
    + rewrite (deliver_cases _ _ _ _ _ Hw).
      pose proof (notify_cases (client_rt cl) ev w (trace s)) as Hn.
      destruct (Watcher.notify (client_rt cl) ev w (trace s)) as [w' t']. simpl.
      destruct Hn as (_ & _ & ->). intros [= <-].
      destruct (effective ev w); [|by apply Hkeep].
      rewrite reinit_trace_eq. constructor; simpl.
      * intros e0 He0. by apply caused_cons, caused_cons, C1.
      * intros k0 e0 Hin; peel Hin; by apply C2 in Hin.
    + unfold Watcher.deliver. rewrite Hw. simpl. intros [= <-]. by apply Hkeep.
  - unfold task_done. destruct (tasks s !! j) as [[]|]; try done.
    destruct (ctx_done s); [|done]. intros [= <-]. by apply Hkeep.
  - unfold task_go. destruct (tasks s !! j) as [[]|]; try done.
    destruct (signal s); [|done]. intros [= <-]. by apply Hkeep.
  - unfold task_step. destruct (tasks s !! j) as [[| |d|d|d|]|]; try done.
    + destruct (services vol !! j) as [sv|]; [|done].
      case_decide; intros [= <-]; [|by apply Hkeep].
      constructor; simpl; [intros e0 He0; by apply caused_cons, C1|].
      intros k0 e0 Hin; peel Hin; by apply C2 in Hin.
    + intros [= <-]. constructor; simpl; [intros e0 He0; by apply caused_cons, C1|].
      intros k0 e0 Hin; peel Hin; by apply C2 in Hin.
    + intros [= <-]. constructor; simpl; [intros e0 He0; by apply caused_cons, C1|].
      intros k0 e0 Hin; peel Hin; by apply C2 in Hin.
    + intros [= <-]. destruct d; [|by apply Hkeep].
      constructor; simpl; [intros e0 He0; by apply caused_cons, C1|].
      intros k0 e0 Hin; peel Hin; by apply C2 in Hin.
Qed.

Lemma CInv_reachable sched : CInv (exec manifest vol sched New).
Proof.
  assert (H : forall s, CInv s -> CInv (exec manifest vol sched s)).
  { induction sched as [|a sched IH]; intros s HC; simpl; [done|].
    destruct (step manifest vol s a) as [s'|] eqn:Hs; simpl; [|by apply IH].
    apply IH. by eapply CInv_step. }
  apply H. constructor; simpl; [done|]. intros k e Hin. by apply elem_of_nil in Hin.
Qed.

End Cause.

(** X14.  What [Run] returns has a cause, and every failure is returned.
    On every schedule: an error [Run] is leaving with is [ErrInvalidCluster]
    when no cluster was joined (and then nothing at all has been called), and
    otherwise it is the error that a client's [Init], [NewBroker] or a
    service's [Init] returned; conversely, whenever one of these has failed,
    [Run] is leaving with exactly that error.  So a cancelled context never
    makes [Run] return an error, and [Run] returns nil only if no [Init] and
    no [NewBroker] failed. *)
Theorem Run_error_has_a_cause (manifest : list client) (vol : Voltron)
    (sched : list Action) :
  let s := exec manifest vol sched New in
  (forall e, failed_with e (pc s) ->
     (cluster vol = None /\ e = ErrInvalidCluster /\ trace s = []) \/
     (is_Some (cluster vol) /\ caused e (trace s))) /\
  (forall e, caused e (trace s) -> failed_with e (pc s)) /\
  (pc s = PcReturned None -> forall e, ~ caused e (trace s)).
Proof.
  intros s. pose proof (Inv_reachable manifest vol sched) as HI.
  pose proof (Inv2_reachable manifest vol sched) as HI2. fold s in HI, HI2.
  assert (Hidle : cluster vol = None -> idle s).
  { intros Hn. apply (idle_exec manifest vol Hn sched New). by repeat split; auto. }
  assert (H2 : forall e, caused e (trace s) -> failed_with e (pc s)).
  { intros e [[k H]|[[k H]|[j H]]].
    - apply (elem_of_denoise (EvClientInit k (Some e)) _ eq_refl) in H.
      destruct (inv_fail _ _ _ HI _ _ H) as (-> & _). done.
    - destruct (cluster vol) as [cl|] eqn:Hcl.
      + pose proof (CInv_reachable manifest vol cl Hcl sched) as HC. fold s in HC.
        by rewrite (c_broker _ HC _ _ H).
      + destruct (Hidle eq_refl) as (Ht & _). rewrite Ht in H. by apply elem_of_nil in H.
    - apply (elem_of_denoise (EvSvcInit j (Some e)) _ eq_refl) in H.
      by destruct (inv2_svc_fail _ _ _ HI2 _ _ H) as (? & _). }
  split; [|split; [done|]].
  - intros e He. destruct (cluster vol) as [cl|] eqn:Hcl.
    + right. split; [eauto|].
      pose proof (CInv_reachable manifest vol cl Hcl sched) as HC. fold s in HC.
      by apply (c_cause _ HC).
    + left. destruct (Hidle eq_refl) as (Ht & _ & _ & [Hp|Hp]); rewrite Hp in He.
      * done.
      * simpl in He. by simplify_eq.
  - intros Hpc e He. apply H2 in He. rewrite Hpc in He. done.
Qed.

Lemma count_svc_init_ids j t :
  count (is_svc_init j) t = length (filter (fun i => i = j) (svc_init_ids t)).
Proof.
  induction t as [|e t IH]; simpl; [done|].
  destruct e; simpl; try done. rewrite filter_cons.
  case_bool_decide; [rewrite decide_True by done|rewrite decide_False by done]; simpl; lia.
Qed.

Lemma filter_eq_rev_seq j P :
  length (filter (fun i => i = j) (rev (seq 0 P))) = if decide (j < P) then 1 else 0.
Proof.
  induction P as [|P IH]; [done|].
  rewrite rev_seq_S, filter_cons.
  destruct (decide (P = j)); simpl; rewrite IH; repeat case_decide; lia.
Qed.

(** X15.  What has happened when [Run] returns nil.  On every schedule on
    which [Run] has returned nil and the caller has not cancelled its
    context: every registered service was initialised exactly once; its
    implementation's [Run] was invoked exactly once, and has returned; if
    it reports, exactly one Keepalive was sent and its reporter closed once,
    and if not, none; the start channel was closed once; and every client
    was initialised once and shut down. *)
Theorem Run_nil_runs_every_service (manifest : list client) (vol : Voltron)
    (sched : list Action) :
  let s := exec manifest vol sched New in
  pc s = PcReturned None -> ctx_caller s = false ->
  (forall j, j < length (services vol) ->
     count (is_svc_init j) (trace s) = 1 /\
     count (is_svc_run j) (trace s) = 1 /\
     count (is_svc_run_return j) (trace s) = 1 /\
     count (is_keepalive j) (trace s) = Nat.b2n (reports vol j) /\
     count (is_reporter_close j) (trace s) = Nat.b2n (reports vol j)) /\
  count is_release (trace s) = 1 /\
  (forall k, k < length manifest -> count (is_client_init k) (trace s) = 1) /\
  shutdown_ids (trace s) = rev (seq 0 (length manifest)).
Proof.
  intros s Hpc Hcc. pose proof (Inv_reachable manifest vol sched) as HI.
  pose proof (Inv2_reachable manifest vol sched) as HI2.
  pose proof (Inv3_reachable manifest vol sched) as HI3. fold s in HI, HI2, HI3.
  assert (Hsig : signal s = true) by (by rewrite (inv_signal _ _ _ HI), Hpc).
  assert (Hph : in_phase1 s = false).
  { destruct (in_phase1 s) eqn:E; [|done].
    destruct (inv_phase1 _ _ _ HI E) as (_ & _ & _ & Hs & _). congruence. }
  split; [|split; [|split]].
  - intros j Hj.
    destruct (signal_prepared _ _ _ HI Hsig) as [_ Hall].
    destruct (inv2_launched _ _ _ HI2 _ (Hall _ Hj)) as [p Hp].
    pose proof (inv2_waited _ _ _ HI2) as Hw. rewrite Hpc in Hw.
    rewrite (inv2_wg _ _ _ HI2) in Hw.
    pose proof (live_tasks_0 _ _ _ Hw Hp) as ->.
    rewrite <- !(count_denoise _ (trace s)) by auto.
    split.
    + destruct (inv2_svc_order _ _ _ HI2) as (P & HP & Hids & _).
      rewrite count_svc_init_ids, Hids, filter_eq_rev_seq.
      assert (j ∈ svc_init_ids (denoise (trace s))) as Hin.
      { eapply svc_init_ids_in. apply (inv2_boot _ _ _ HI2). eauto. }
      rewrite Hids in Hin. apply elem_of_rev_seq in Hin. by rewrite decide_True.
    + pose proof (inv_task_counts _ _ _ HI j) as Ht. unfold task_ok in Ht.
      rewrite Hp in Ht. simpl in Ht.
      destruct Ht as [(T1 & T2 & T3 & T4)|(T1 & T2 & T3 & T4)]; [|done].
      destruct (inv3_done _ HI3 _ Hp T2) as [Hc|[e He]]; [congruence|].
      rewrite Hpc in He. done.
  - rewrite <- count_denoise by auto. by rewrite (inv_release _ _ _ HI), Hsig.
  - intros k Hk. rewrite <- count_denoise by auto.
    apply (inv_init_lt _ _ _ HI). by rewrite (inv_phase2 _ _ _ HI Hph).
  - pose proof (inv_shutdown _ _ _ HI) as Hsh. rewrite Hpc in Hsh.
    rewrite <- shutdown_ids_denoise. auto.
Qed.

Lemma Run_nil_runs_every_service_witness :
  let s := exec Sample.manifest2 Sample.vol1 Sample.schedAll New in
  pc s = PcReturned None /\ ctx_caller s = false /\
  count (is_svc_run 0) (trace s) = 1 /\ count (is_keepalive 0) (trace s) = 1.
Proof.
  cbv zeta. split; [reflexivity|]. split; [reflexivity|].
  destruct (Run_nil_runs_every_service Sample.manifest2 Sample.vol1 Sample.schedAll
              eq_refl eq_refl) as (H & _).
  destruct (H 0 ltac:(simpl; lia)) as (_ & H1 & _ & H2 & _).
  split; [exact H1 | exact H2].
Defined.

(** ** The HTTP client *)

Section HTTPClient.
Import HTTP.

Lemma buildUrl_state uri c : (buildUrl uri c).2 = set_balance ((balance c + 1) mod 2 ^ 32) c.
Proof. unfold buildUrl, Inc. by destruct (endpoints c). Qed.

Lemma request_state m uri headers c :
  (request m uri headers c).2 =
  if ready c then set_balance ((balance c + 1) mod 2 ^ 32) c else c.
Proof.
  unfold request. destruct (ready c); simpl; [|done].
  pose proof (buildUrl_state uri c) as H.
  destruct (buildUrl uri c) as [[url|msg] c']; simpl in *; subst c'; [|done].
  simpl. by destruct (client c).
Qed.

Lemma apply_ready c op :
  ready c = true -> op <> OpShutdown ->
  same_configuration c (apply c op) /\ ready (apply c op) = true.
Proof.
  intros Hr Hop. unfold same_configuration.
  destruct op as [opts|opts| |m uri headers]; simpl.
  - unfold Init. by rewrite Hr.
  - done.
  - done.
  - rewrite request_state, Hr. done.
Qed.

Lemma run_ready ops c :
  ready c = true -> Forall (fun op => op <> OpShutdown) ops ->
  same_configuration c (run ops c) /\ ready (run ops c) = true.
Proof.
  intros Hr Hops. revert c Hr. induction Hops as [|op ops Hop _ IH]; intros c Hr.
  { done. }
  destruct (apply_ready c op Hr Hop) as [(A1 & A2 & A3 & A4) A5].
  destruct (IH _ A5) as [(B1 & B2 & B3 & B4) B5].
  change (run (op :: ops) c) with (run ops (apply c op)).
  split; [|done]. unfold same_configuration. by rewrite B1, B2, B3, B4.
Qed.

(** X16.  The configuration of a ready client is frozen.  Until [Shutdown]
    is called, whatever else is called on it -- [Init] again, [ReInit],
    requests -- leaves scheme, host, endpoint list and heimdall client as
    they are: [ReInit] never takes the new options in, so an endpoint the
    watcher reports later is never used; and an [Init] on a ready client
    returns nil without looking at its options, whatever their type. *)
Theorem configuration_frozen_while_ready (ops : list Op) (c : Client) :
  ready c = true -> Forall (fun op => op <> OpShutdown) ops ->
  let c' := run ops c in
  scheme c' = scheme c /\ host c' = host c /\ endpoints c' = endpoints c /\
  client c' = client c /\ ready c' = true /\
  (forall opts, Init opts c' = (Return None, c')) /\
  (forall opts, ReInit opts c' = (None, c')).
Proof.
  intros Hr Hops. destruct (run_ready ops c Hr Hops) as [(H1 & H2 & H3 & H4) H5].
  cbv zeta. repeat split; try done.
  intros opts. unfold Init. by rewrite H5.
Qed.

Lemma configuration_frozen_while_ready_witness :
  let co1 := {| SevName := "ip"; Raw := ""; Endpoints := ["10.0.0.1:80"];
                Scheme := "http"; Host := ""; Timeout := 0; RetryCount := 0 |} in
  let co2 := {| SevName := "ip"; Raw := ""; Endpoints := ["10.0.0.2:80"; "10.0.0.3:80"];
                Scheme := "https"; Host := ""; Timeout := 0; RetryCount := 0 |} in
  let c := (Init (OwnOptions (Some co1)) zero).2 in
  endpoints (run [OpReInit (OwnOptions (Some co2)); OpRequest GET "/" None;
                  OpInit (OwnOptions (Some co2))] c) = ["10.0.0.1:80"].
Proof.
  cbv zeta.
  apply (configuration_frozen_while_ready
           [OpReInit (OwnOptions (Some
              {| SevName := "ip"; Raw := ""; Endpoints := ["10.0.0.2:80"; "10.0.0.3:80"];
                 Scheme := "https"; Host := ""; Timeout := 0; RetryCount := 0 |}));
            OpRequest GET "/" None;
            OpInit (OwnOptions (Some
              {| SevName := "ip"; Raw := ""; Endpoints := ["10.0.0.2:80"; "10.0.0.3:80"];
                 Scheme := "https"; Host := ""; Timeout := 0; RetryCount := 0 |}))]).
  - reflexivity.
  - repeat constructor; discriminate.
Defined.

Lemma request_ready m uri headers c hc :
  ready c = true -> client c = Some hc -> endpoints c <> [] ->
  let i := Z.to_nat (((balance c + 1) mod 2 ^ 32) mod Z.of_nat (length (endpoints c))) in
  i < length (endpoints c) /\
  (request m uri headers c).1 =
  Return (Sent m (url_of c (default "" (endpoints c !! i)) uri) (buildHeaders headers c) hc).
Proof.
  intros Hr Hc Hne. cbv zeta.
  assert (Hlen : 0 < length (endpoints c)) by (destruct (endpoints c); simpl; [done|lia]).
  pose proof (Z.mod_pos_bound (balance c + 1) (2 ^ 32) ltac:(lia)) as Hb.
  pose proof (Z.mod_pos_bound ((balance c + 1) mod 2 ^ 32)
                (Z.of_nat (length (endpoints c))) ltac:(lia)) as Hi.
  split; [lia|].
  unfold request, buildUrl, Inc. rewrite Hr. simpl.
  destruct (endpoints c) as [|ep eps] eqn:He; [done|]. simpl client. rewrite Hc.
  rewrite Z.rem_mod_nonneg by lia. done.
Qed.

Lemma requests_lookup m uri headers hc k : forall c i,
  ready c = true -> client c = Some hc -> endpoints c <> [] ->
  (0 <= balance c)%Z -> (balance c + Z.of_nat k < 2 ^ 32)%Z -> i < k ->
  requests m uri headers k c !! i =
  Some (Return (Sent m
    (url_of c (default "" (endpoints c !!
       Z.to_nat ((balance c + 1 + Z.of_nat i) mod Z.of_nat (length (endpoints c))))) uri)
    (buildHeaders headers c) hc)).
Proof.
  induction k as [|k IH]; intros c i Hr Hc Hne Hb Hk Hi; [lia|].
  change (requests m uri headers (S k) c) with
    ((request m uri headers c).1 :: requests m uri headers k (request m uri headers c).2).
  assert (Hs : (request m uri headers c).2 = set_balance (balance c + 1) c).
  { rewrite request_state, Hr. by rewrite Z.mod_small by lia. }
  destruct i as [|i].
  - simpl. destruct (request_ready m uri headers c hc Hr Hc Hne) as [_ ->].
    rewrite (Z.mod_small (balance c + 1)) by lia. by rewrite Z.add_0_r.
  - simpl. rewrite Hs, IH; simpl; try done; try lia.
    unfold url_of, buildHeaders. simpl.
    replace (balance c + 1 + 1 + Z.of_nat i)%Z with (balance c + 1 + Z.of_nat (S i))%Z by lia.
    done.
Qed.

(** X17.  Requests go round the endpoint list.  On a ready client with [n]
    endpoints, as long as the 32-bit counter does not wrap, [n] requests in a
    row are sent to the [n] endpoints, each exactly once, in the order of the
    list starting behind the endpoint of the previous request; every request
    adds one to the counter.  When the counter does wrap, the next request
    starts again at the first endpoint, whichever was used last. *)
Theorem requests_round_robin (m : Method) (uri : string) (headers : option Header)
    (c : Client) (hc : list HcOption) :
  ready c = true -> client c = Some hc -> endpoints c <> [] -> (0 <= balance c)%Z ->
  ((balance c + Z.of_nat (length (endpoints c)) < 2 ^ 32)%Z ->
   requests m uri headers (length (endpoints c)) c =
   (fun ep => Return (Sent m (url_of c ep uri) (buildHeaders headers c) hc))
     <$> rotate (Z.to_nat (balance c + 1)) (endpoints c)) /\
  (balance c = (2 ^ 32 - 1)%Z ->
   exists ep, endpoints c !! 0 = Some ep /\
     request m uri headers c =
     (Return (Sent m (url_of c ep uri) (buildHeaders headers c) hc), set_balance 0 c)).
Proof.
  intros Hr Hc Hne Hb. split.
  - intros Hn. apply list_eq. intros i.
    destruct (decide (i < length (endpoints c))) as [Hi|Hi].
    + rewrite (requests_lookup m uri headers hc) by done.
      rewrite list_lookup_fmap, lookup_rotate_r by done. unfold rotate_nat_add.
      rewrite Z2Nat.id by lia.
      destruct (endpoints c !! _) as [ep|] eqn:Hep; [done|].
      apply lookup_ge_None in Hep.
      pose proof (Z.mod_pos_bound (balance c + 1 + Z.of_nat i)
                    (Z.of_nat (length (endpoints c))) ltac:(lia)). lia.
    + rewrite !lookup_ge_None_2; [done| |].
      * rewrite length_fmap, length_rotate. lia.
      * clear -Hi. assert (Hl : forall k c, length (requests m uri headers k c) = k).
        { induction k as [|k IH]; intros c0; simpl; [done|]. by rewrite IH. }
        rewrite Hl. lia.
  - intros Hw. destruct (endpoints c) as [|ep eps] eqn:He; [done|]. exists ep.
    split; [done|].
    destruct (request_ready m uri headers c hc Hr Hc) as [_ H1]; [by rewrite He|].
    rewrite (surjective_pairing (request m uri headers c)), H1, request_state, Hr.
    rewrite Hw. change ((2 ^ 32 - 1 + 1) mod 2 ^ 32)%Z with 0%Z.
    rewrite Z.mod_0_l by (rewrite He; simpl; lia). rewrite He. done.
Qed.

Lemma requests_round_robin_witness :
  let c := {| scheme := "http"; host := ""; balance := 4; endpoints := ["a"; "b"; "c"];
              client := Some []; ready := true |} in
  requests GET "/x" None 3 c =
  (fun ep => Return (Sent GET (url_of c ep "/x") (buildHeaders None c) []))
    <$> ["c"; "a"; "b"].
Proof.
  cbv zeta.
  apply (requests_round_robin GET "/x" None
           {| scheme := "http"; host := ""; balance := 4; endpoints := ["a"; "b"; "c"];
              client := Some []; ready := true |} []); simpl; try done; lia.
Defined.

Lemma request_no_endpoints m uri headers c :
  ready c = true -> endpoints c = [] ->
  (request m uri headers c).1 = Panic "integer divide by zero".
Proof.
  intros Hr He. unfold request, buildUrl, Inc. rewrite Hr, He. done.
Qed.

(** X18.  A client without endpoints is ready and useless.  [Init] takes
    options with an empty endpoint list without complaint -- the options
    [NewOptions] builds for a service that has no member are such -- and
    marks the client ready; from then until [Shutdown], whatever is called
    in between, every request panics on the division by the length of the
    endpoint list instead of returning an error. *)
Theorem no_endpoints_panics (co : ClientOptions) (c : Client) (ops : list Op)
    (m : Method) (uri : string) (headers : option Header) :
  ready c = false -> Endpoints co = [] ->
  Forall (fun op => op <> OpShutdown) ops ->
  let c1 := (Init (OwnOptions (Some co)) c).2 in
  (Init (OwnOptions (Some co)) c).1 = Return None /\ ready c1 = true /\
  (request m uri headers (run ops c1)).1 = Panic "integer divide by zero" /\
  (forall Unmarshal raw, skips_untagged Unmarshal ->
     Endpoints (NewOptions Unmarshal raw []) = []).
Proof.
  intros Hr He Hops. cbv zeta. unfold Init. rewrite Hr. simpl.
  split; [done|]. split; [done|]. split.
  - match goal with |- context [run ops ?c1] =>
      destruct (run_ready ops c1 eq_refl Hops) as [(_ & _ & H3 & _) H5] end.
    apply request_no_endpoints; [done|]. by rewrite H3.
  - intros U raw HU. unfold NewOptions. simpl.
    destruct (HU raw {| SevName := ""; Raw := raw; Endpoints := []; Scheme := "";
                        Host := ""; Timeout := 0; RetryCount := 0 |}) as (_ & _ & ->).
    done.
Qed.

Lemma no_endpoints_panics_witness :
  let co := NewOptions (fun _ o => o) "" [] in
  let c1 := (Init (OwnOptions (Some co)) zero).2 in
  ready c1 = true /\
  (Get "/ping" None (run [OpReInit (OwnOptions (Some co)); OpRequest GET "/" None] c1)).1 =
  Panic "integer divide by zero".
Proof.
  cbv zeta.
  destruct (no_endpoints_panics (NewOptions (fun _ o => o) "" []) zero
              [OpReInit (OwnOptions (Some (NewOptions (fun _ o => o) "" [])));
               OpRequest GET "/" None] GET "/ping" None eq_refl eq_refl)
    as (_ & H2 & H3 & _).
  { repeat constructor; discriminate. }
  split; [exact H2 | exact H3].
Defined.

Lemma path_shape uri : path uri = "" \/ String.prefix "/" (path uri) = true.
Proof.
  unfold path. case_decide; [by left|right].
  destruct (String.prefix "/" uri) eqn:Hp; [done|]. by destruct uri.
Qed.

(** X19.  What a request hands to the heimdall client.  On a ready client
    with endpoints, a request never fails on the client's side: it is sent
    with the method asked for to scheme://endpoint/path for one of the
    configured endpoints, where the path is empty for the uri "/" and
    otherwise the uri with a slash in front unless it starts with one --
    so a uri and the same uri behind a slash give the same URL, and the
    empty uri gives a URL ending in a slash while "/" gives none.  When a
    host is configured the Host header is set to it, replacing the
    caller's; all other headers are the caller's. *)
Theorem request_shape (m : Method) (uri : string) (headers : option Header)
    (c : Client) (hc : list HcOption) :
  ready c = true -> client c = Some hc -> endpoints c <> [] ->
  (exists ep, ep ∈ endpoints c /\
     (request m uri headers c).1 =
     Return (Sent m (url_of c ep uri) (buildHeaders headers c) hc)) /\
  (path uri = "" \/ String.prefix "/" (path uri) = true) /\
  (uri <> "" -> String.prefix "/" uri = false ->
     forall ep, url_of c ep (String.append "/" uri) = url_of c ep uri) /\
  path "" = "/" /\ path "/" = "" /\
  (host c <> "" -> buildHeaders headers c !! "Host" = Some [host c]) /\
  (host c = "" -> buildHeaders headers c = default ∅ headers) /\
  (forall key, key <> "Host" -> buildHeaders headers c !! key = default ∅ headers !! key).
Proof.
  intros Hr Hc Hne. split; [|split; [apply path_shape|split; [|split; [done|split; [done|]]]]].
  - destruct (request_ready m uri headers c hc Hr Hc Hne) as [Hi ->].
    apply lookup_lt_is_Some in Hi as [ep Hep]. exists ep. rewrite Hep.
    split; [|done]. by apply list_elem_of_lookup_2 in Hep.
  - intros Hu Hp ep. unfold url_of, path. f_equal.
    rewrite Hp. rewrite decide_False by (by destruct uri).
    rewrite (decide_False (P := uri = "/")) by (intros ->; done).
    by destruct uri.
  - unfold buildHeaders, Header in *. repeat split.
    + intros Hh. rewrite decide_False by done. by rewrite lookup_insert_eq.
    + intros Hh. by rewrite decide_True.
    + intros key Hk. case_decide; [done|]. by rewrite lookup_insert_ne.
Qed.

Lemma request_shape_witness :
  let c := {| scheme := "http"; host := "open.example"; balance := 0;
              endpoints := ["10.0.0.1:8099"]; client := Some []; ready := true |} in
  (Get "_ip/" None c).1 =
  Return (Sent GET "http://10.0.0.1:8099/_ip/" {[ "Host" := ["open.example"] ]} []).
Proof.
  cbv zeta.
  destruct (request_shape GET "_ip/" None
              {| scheme := "http"; host := "open.example"; balance := 0;
                 endpoints := ["10.0.0.1:8099"]; client := Some []; ready := true |} []
              eq_refl eq_refl ltac:(discriminate)) as ((ep & Hep & H) & _).
  apply list_elem_of_singleton in Hep. subst ep. exact H.
Defined.

(** X20.  The heimdall client [Init] builds.  It is given a retry count
    exactly when [RetryCount] is positive and a timeout exactly when
    [Timeout] is positive; the timeout, configured in milliseconds, is
    passed on in nanoseconds, exactly so up to 9223372036854 ms; a larger
    one does not fit 64 bits, and what is passed on is not the configured
    time. *)
Theorem Init_transport (co : ClientOptions) (c : Client) :
  ready c = false ->
  let c1 := (Init (OwnOptions (Some co)) c).2 in
  (exists hc, client c1 = Some hc /\
     (forall n, WithRetryCount n ∈ hc <-> (0 < n)%Z /\ n = RetryCount co) /\
     (forall d, WithHTTPTimeout d ∈ hc <->
                (0 < Timeout co)%Z /\ d = int64 (Timeout co * Millisecond))) /\
  ((0 < Timeout co <= 9223372036854)%Z ->
     int64 (Timeout co * Millisecond) = (Timeout co * 1000000)%Z) /\
  ((9223372036854 < Timeout co)%Z ->
     int64 (Timeout co * Millisecond) <> (Timeout co * 1000000)%Z).
Proof.
  intros Hr. cbv zeta. unfold Init. rewrite Hr. simpl. split; [|split].
  - exists (hcopts co). split; [done|]. unfold hcopts. split.
    + intros n. rewrite elem_of_app. repeat case_decide.
      all: rewrite ?list_elem_of_singleton, ?elem_of_nil.
      all: split; [intros [H1|H1]; try done; inversion H1; subst; done|].
      all: intros [H1 ->]; try lia; by left.
    + intros d. rewrite elem_of_app. repeat case_decide.
      all: rewrite ?list_elem_of_singleton, ?elem_of_nil.
      all: split; [intros [H1|H1]; try done; inversion H1; subst; done|].
      all: intros [H1 ->]; try lia; by right.
  - intros Ht. unfold int64, Millisecond. rewrite Z.mod_small; lia.
  - intros Ht. unfold int64, Millisecond.
    pose proof (Z.mod_pos_bound (Timeout co * 1000000 + 2 ^ 63) (2 ^ 64) ltac:(lia)). lia.
Qed.

Lemma Init_transport_witness :
  let co := {| SevName := "ip"; Raw := ""; Endpoints := ["114.116.209.130:8099"];
               Scheme := "http"; Host := "open.17paipai.cn"; Timeout := 3000;
               RetryCount := 0 |} in
  client (Init (OwnOptions (Some co)) zero).2 = Some [WithHTTPTimeout 3000000000].
Proof.
  cbv zeta.
  destruct (Init_transport
              {| SevName := "ip"; Raw := ""; Endpoints := ["114.116.209.130:8099"];
                 Scheme := "http"; Host := "open.17paipai.cn"; Timeout := 3000;
                 RetryCount := 0 |} zero eq_refl) as (_ & H & _).
  simpl in H. specialize (H ltac:(lia)). unfold Init, hcopts. simpl. by rewrite H.
Defined.

(** X21.  A nil options pointer leaves a client that claims to be ready.
    [Init] with a nil [*ClientOptions] on a client that is not ready panics,
    yet its deferred function marks the client ready without having
    configured it; if the panic is recovered, every later [Init], with
    whatever options, returns nil and configures nothing, until [Shutdown]
    is called: the client keeps the configuration it had, and starting
    from the zero value every request panics. *)
Theorem nil_options_pointer_marks_ready (c : Client) (ops : list Op) :
  ready c = false -> Forall (fun op => op <> OpShutdown) ops ->
  let r := Init (OwnOptions None) c in
  r.1 = Panic "invalid memory address or nil pointer dereference" /\
  r.2 = set_ready true c /\
  same_configuration c (run ops r.2) /\ ready (run ops r.2) = true /\
  (forall opts, Init opts (run ops r.2) = (Return None, run ops r.2)) /\
  (endpoints c = [] -> forall m uri headers,
     (request m uri headers (run ops r.2)).1 = Panic "integer divide by zero").
Proof.
  intros Hr Hops. cbv zeta.
  assert (Hi : Init (OwnOptions None) c =
               (Panic "invalid memory address or nil pointer dereference", set_ready true c)).
  { unfold Init. by rewrite Hr. }
  rewrite Hi. simpl fst. simpl snd.
  destruct (run_ready ops (set_ready true c) eq_refl Hops) as [Hs H5].
  split; [done|]. split; [done|]. split; [done|]. split; [done|]. split.
  - intros opts. unfold Init. by rewrite H5.
  - intros He m uri headers. apply request_no_endpoints; [done|].
    destruct Hs as (_ & _ & -> & _). done.
Qed.

Lemma nil_options_pointer_marks_ready_witness :
  let c1 := (Init (OwnOptions None) zero).2 in
  ready c1 = true /\ (Get "/" None c1).1 = Panic "integer divide by zero".
Proof.
  cbv zeta.
  destruct (nil_options_pointer_marks_ready zero [] eq_refl ltac:(constructor))
    as (_ & _ & _ & H4 & _ & H6).
  split; [exact H4 | exact (H6 eq_refl GET "/" None)].
Defined.

End HTTPClient.

(** ** Services as they were set up *)

Lemma setups_services (regs : list (Service * string * list Registration.RunOption)) vol0 :
  services (foldl (fun vol '(srv, description, opts) =>
                     Registration.Setup srv description opts vol) vol0 regs) =
  services vol0 ++
  ((fun '(srv, description, opts) =>
      foldl (fun s (setOpt : Registration.RunOption) => setOpt s)
        {| service_rt := srv; service_description := description;
           addr := ""; weight := 0; ttl := 0 |} opts) <$> regs) /\
  cluster (foldl (fun vol '(srv, description, opts) =>
                     Registration.Setup srv description opts vol) vol0 regs) = cluster vol0.
Proof.
  revert vol0. induction regs as [|[[srv d] opts] regs IH]; intros vol0; simpl.
  { by rewrite app_nil_r. }
  destruct (IH (Registration.Setup srv d opts vol0)) as [-> ->]. simpl.
  by rewrite <- app_assoc.
Qed.

(** X22.  Services run as they were set up.  For an orchestrator built by
    calls to [Setup] followed by [Join], on every schedule of [Run]: the
    service of the j-th [Setup] is the service with index j; if the last of
    its options is [WithAutoReport a w l], every Keepalive sent for it
    carries exactly [a], [w] and [l], whatever options came before; and a
    service set up without options never has a reporter acquired and never
    sends a Keepalive. *)
Theorem services_as_set_up (manifest : list client)
    (regs : list (Service * string * list Registration.RunOption))
    (cl : Cluster) (sched : list Action) :
  exists vol, Registration.build regs (Some cl) = Some vol /\
    length (services vol) = length regs /\
    let s := exec manifest vol sched New in
    (forall j srv d pre a w l,
       regs !! j = Some (srv, d, pre ++ [WithAutoReport a w l]) ->
       forall a' w' l', EvKeepalive j a' w' l' ∈ trace s -> a' = a /\ w' = w /\ l' = l) /\
    (forall j srv d, regs !! j = Some (srv, d, []) ->
       exists sv, services vol !! j = Some sv /\ service_rt sv = srv /\
         count (is_new_reporter j) (trace s) = 0 /\ count (is_keepalive j) (trace s) = 0).
Proof.
  unfold Registration.build, Registration.Join.
  destruct (setups_services regs (Registration.New [])) as [Hs Hc].
  change (services (Registration.New [])) with (@nil service) in Hs.
  rewrite app_nil_l in Hs.
  eexists. split; [reflexivity|].
  match goal with |- context [exec manifest ?v sched New] => set (vol := v) end.
  assert (Hvol : services vol = services (foldl
            (fun vol '(srv, description, opts) =>
               Registration.Setup srv description opts vol) (Registration.New []) regs))
    by reflexivity.
  rewrite Hs in Hvol. clear Hs.
  split; [by rewrite Hvol, length_fmap|]. cbv zeta.
  pose proof (Inv_reachable manifest vol sched) as HI.
  pose proof (Inv2_reachable manifest vol sched) as HI2.
  unfold Registration.RunOption in *.
  split.
  - intros j srv d pre a w l Hj a' w' l' Hin.
    apply (elem_of_denoise (EvKeepalive j a' w' l') _ eq_refl) in Hin.
    destruct (inv_keepalive_args _ _ _ HI _ _ _ _ Hin) as (sv & Hsv & -> & -> & ->).
    rewrite Hvol, list_lookup_fmap, Hj in Hsv. simpl in Hsv.
    injection Hsv as <-. rewrite foldl_app. simpl. done.
  - intros j srv d Hj.
    assert (Hsv : services vol !! j =
                  Some {| service_rt := srv; service_description := d;
                          addr := ""; weight := 0; ttl := 0 |}).
    { by rewrite Hvol, list_lookup_fmap, Hj. }
    eexists. split; [exact Hsv|]. split; [done|].
    assert (Hr : reports vol j = false).
    { unfold reports. rewrite Hsv. reflexivity. }
    destruct (inv2_noreport _ _ _ HI2 _ Hr) as [N1 _].
    rewrite <- !(count_denoise _ (trace _)) by auto. split; [done|].
    pose proof (inv_task_counts _ _ _ HI j) as Ht. unfold task_ok in Ht.
    rewrite Hr in Ht. simpl in Ht.
    destruct (tasks _ !! j) as [[]|]; intuition (subst; simpl in *; lia).
Qed.
